(** * TickandTie: export packaging, annotation geometry, table extraction

    A shallow embedding of the utility layer of the TickandTie audit tool
    ([utils.ts], [geminiService.ts]) and of the zoom and field list of its
    document viewer ([DocumentViewer.tsx]), together with the properties
    its design document states about it and further properties of the
    code.

    Conventions of the embedding.
    - A JavaScript string is the list of its UTF-16 code units; a code unit
      is a number of type [N].  Nothing below depends on a code unit being
      smaller than 65536, so no bound is imposed.
    - A JavaScript [Set<string>] is a [gset], a [Map<string,string>] and an
      object used as a dictionary are [gmap]s; an object whose key order is
      observed is an association list.
    - A JavaScript number that only ever holds a small non-negative integer
      (a loop counter, an index) is an [N] or a [nat].
    - A JavaScript number that holds a fraction (a canvas coordinate, the
      zoom factor) is the rational [Q] it stands for; every arithmetic
      operation of the source is followed by the rounding of IEEE-754
      binary64 ([Binary64.round64]: to nearest, ties to even).
    - Effects (console, alert, download) are recorded in an explicit trace. *)

From Stdlib Require Import NArith ZArith QArith Qminmax Qround Qpower Qreduction.
From Stdlib Require Import Lia Lqa List Bool Ascii String.
From Stdlib Require Import Sorted DecimalString DecimalN DecimalZ.
From Stdlib Require Floats.
From stdpp Require Import base decidable option list gmap sets.

Set Default Proof Using "Type".

(** ** JavaScript strings *)

Module JsString.

Definition char := N.
Definition jsstring := list N.

(** The code-unit sequence of an ASCII literal. *)
Definition lit (s : string) : jsstring :=
  List.map N_of_ascii (list_ascii_of_string s).

Definition c_pipe : char := 124%N.
Definition c_dash : char := 45%N.
Definition c_dot : char := 46%N.
Definition c_underscore : char := 95%N.
Definition c_newline : char := 10%N.

Definition in_range (lo hi c : N) : bool := ((lo <=? c) && (c <=? hi))%N.

Definition is_digit (c : char) : bool := in_range 48 57 c.
Definition is_upper (c : char) : bool := in_range 65 90 c.
Definition is_lower (c : char) : bool := in_range 97 122 c.
Definition is_ascii (c : char) : bool := (c <? 128)%N.

(** The character class [[a-zA-Z0-9]]. *)
Definition is_alnum (c : char) : bool := is_lower c || is_upper c || is_digit c.

(** [String.prototype.trim] removes WhiteSpace and LineTerminator code
    points from both ends (ECMA-262, 22.1.3.32). *)
Definition is_space (c : char) : bool :=
  in_range 9 13 c || (c =? 32)%N || (c =? 160)%N || (c =? 5760)%N
  || in_range 8192 8202 c || (c =? 8232)%N || (c =? 8233)%N
  || (c =? 8239)%N || (c =? 8287)%N || (c =? 12288)%N || (c =? 65279)%N.

Fixpoint trimStart (s : jsstring) : jsstring :=
  match s with
  | c :: s' => if is_space c then trimStart s' else s
  | [] => []
  end.

Definition trimEnd (s : jsstring) : jsstring := rev (trimStart (rev s)).

Definition trim (s : jsstring) : jsstring := trimEnd (trimStart s).

(** [s.split(sep)] for a one-character separator: never the empty list,
    [''.split(sep)] is [['']]. *)
Fixpoint split (sep : char) (s : jsstring) : list jsstring :=
  match s with
  | [] => [[]]
  | c :: s' =>
      if (c =? sep)%N then [] :: split sep s'
      else match split sep s' with
           | w :: ws => (c :: w) :: ws
           | [] => [[c]]
           end
  end.

(** [s.startsWith(c)] and [s.endsWith(c)] for a one-character argument. *)
Definition startsWith (c : char) (s : jsstring) : bool :=
  match s with
  | c' :: _ => (c' =? c)%N
  | [] => false
  end.

Definition endsWith (c : char) (s : jsstring) : bool := startsWith c (rev s).

(** [s.startsWith(p)] for a string [p]. *)
Fixpoint is_prefix (p s : jsstring) : bool :=
  match p, s with
  | [], _ => true
  | c :: p', c' :: s' => (c =? c')%N && is_prefix p' s'
  | _ :: _, [] => false
  end.

(** [s.lastIndexOf(c)]: [None] stands for the result [-1]. *)
Fixpoint lastIndexOf (c : char) (s : jsstring) : option nat :=
  match s with
  | [] => None
  | c' :: s' =>
      match lastIndexOf c s' with
      | Some i => Some (S i)
      | None => if (c' =? c)%N then Some 0 else None
      end
  end.

(** [s.substring(0, i)] and [s.substring(i)], for [0 <= i <= s.length]. *)
Definition substring_to (i : nat) (s : jsstring) : jsstring := take i s.
Definition substring_from (i : nat) (s : jsstring) : jsstring := drop i s.

(** Template-literal conversion of a non-negative integer counter. *)
Definition string_of_N (n : N) : jsstring :=
  lit (NilEmpty.string_of_uint (N.to_uint n)).

(** [JSON.stringify] / template conversion of an integer. *)
Definition string_of_Z (z : Z) : jsstring :=
  lit (NilEmpty.string_of_int (Z.to_int z)).

(** ASCII case folding: the action of [toLowerCase] on a code unit below
    128. *)
Definition ascii_lower (c : char) : char :=
  if is_upper c then (c + 32)%N else c.

End JsString.

Import JsString.

(** ** [sanitizeKey] *)

Section SanitizeKey.

(** [toLowerCase] applies the Unicode default case conversion.  On a
    string of ASCII code units this is [ascii_lower] on every unit; on any
    other string the conversion is left unspecified. *)
Variable unicode_lower : jsstring -> jsstring.

Definition toLowerCase (s : jsstring) : jsstring :=
  if forallb is_ascii s then List.map ascii_lower s else unicode_lower s.

(** [name.replace(/[^a-zA-Z0-9]/g, '_')]: without the [u] flag the class
    is matched against single code units. *)
Definition replace_non_alnum (s : jsstring) : jsstring :=
  List.map (fun c => if is_alnum c then c else c_underscore) s.

Definition sanitizeKey (name : jsstring) : jsstring :=
  toLowerCase (replace_non_alnum name).

(** What [sanitizeKey] does to one code unit. *)
Definition sanitize_char (c : char) : char :=
  ascii_lower (if is_alnum c then c else c_underscore).

(** The alphabet of sanitized keys: [[a-z0-9_]]. *)
Definition is_key_char (c : char) : bool :=
  is_lower c || is_digit c || (c =? c_underscore)%N.

End SanitizeKey.

(** ** [parseMarkdownTable] *)

Module Markdown.

Definition Row := list jsstring.

(** [line.startsWith('|') && line.endsWith('|')] *)
Definition is_pipe_line (line : jsstring) : bool :=
  startsWith c_pipe line && endsWith c_pipe line.

(** [line.replace(/\|/g, '')] *)
Definition remove_pipes (line : jsstring) : jsstring :=
  List.filter (fun c => negb (c =? c_pipe)%N) line.

(** [s.match(/^-+$/)]: one or more dashes and nothing else. *)
Definition all_dashes (s : jsstring) : bool :=
  match s with
  | [] => false
  | _ => forallb (fun c => (c =? c_dash)%N) s
  end.

(** [line.replace(/\|/g, '').trim().match(/^-+$/)] *)
Definition is_separator (line : jsstring) : bool :=
  all_dashes (trim (remove_pipes line)).

(** [a.slice(1, -1)] *)
Definition slice_1_m1 {A} (a : list A) : list A := removelast (tl a).

(** [line.split('|').slice(1, -1).map(c => c.trim())] *)
Definition cells_of (line : jsstring) : Row :=
  List.map trim (slice_1_m1 (split c_pipe line)).

(** The [for ... of] loop.  [data] is the array being filled; next to
    every pushed row the index of the line it was cut from is kept (ghost
    information, used to state where rows come from).  [i] is the index of
    the head of [lines] in the input. *)
Fixpoint scan (lines : list jsstring) (i : nat) (tableStarted : bool)
    (data : list (nat * Row)) : list (nat * Row) :=
  match lines with
  | [] => data
  | l :: rest =>
      let line := trim l in
      if is_pipe_line line then
        if is_separator line then scan rest (S i) tableStarted data
        else scan rest (S i) true (data ++ [(i, cells_of line)])
      else if tableStarted && bool_decide (line = []) then data
      else scan rest (S i) tableStarted data
  end.

Definition lines_of (markdown : jsstring) : list jsstring :=
  split c_newline markdown.

Definition table_scan (markdown : jsstring) : list (nat * Row) :=
  scan (lines_of markdown) 0 false [].

(** Indices of the input lines from which a row was taken. *)
Definition contributing (markdown : jsstring) : list nat :=
  List.map fst (table_scan markdown).

(** [None] stands for [null]. *)
Definition parseMarkdownTable (markdown : jsstring) : option (list Row) :=
  let data := List.map snd (table_scan markdown) in
  if (0 <? length data)%nat then Some data else None.

(** Vocabulary for the statements. *)

(** the [i]-th line, trimmed *)
Definition line_at (markdown : jsstring) (i : nat) : jsstring :=
  trim (nth i (lines_of markdown) []).

(** a line that is cut into a row when the loop reaches it *)
Definition is_row_line (line : jsstring) : bool :=
  is_pipe_line line && negb (is_separator line).

Definition is_blank (line : jsstring) : bool := bool_decide (line = []).

(** made of dashes and pipes only *)
Definition dashes_and_pipes (line : jsstring) : bool :=
  forallb (fun c => (c =? c_dash)%N || (c =? c_pipe)%N) line.

Definition has_dash (line : jsstring) : bool :=
  existsb (fun c => (c =? c_dash)%N) line.

(** The rows come from one contiguous block of pipe-delimited lines:
    every line between two lines that gave a row starts and ends with a
    pipe. *)
Definition contiguous_block (markdown : jsstring) : Prop :=
  forall i j k,
    In i (contributing markdown) -> In k (contributing markdown) ->
    (i < j < k)%nat -> is_pipe_line (line_at markdown j) = true.

(** Line [k] is not behind a blank line that follows a row line. *)
Definition before_stop (markdown : jsstring) (k : nat) : Prop :=
  forall i j, (i < j < k)%nat ->
    is_row_line (line_at markdown i) = true ->
    is_blank (line_at markdown j) = false.

(** Line [k] of [lines] gives row [r] when the loop starts on [lines] with
    the flag [tableStarted]. *)
Definition gives (lines : list jsstring) (tableStarted : bool) (k : nat)
    (r : Row) : Prop :=
  is_row_line (trim (nth k lines [])) = true
  /\ r = cells_of (trim (nth k lines []))
  /\ forall j, (j < k)%nat -> is_blank (trim (nth j lines [])) = true ->
       tableStarted = false
       /\ forall i, (i < j)%nat -> is_row_line (trim (nth i lines [])) = false.

(** The table of the design document, followed by a blank line and text. *)
Definition example_markdown : jsstring :=
  lit "| A | B |" ++ [c_newline] ++ lit "|---|---|" ++ [c_newline]
    ++ lit "| 1 | 2 |" ++ [c_newline] ++ [c_newline] ++ lit "Trailing text".

(** Two pipe-delimited lines with a line of text between them. *)
Definition gapped_markdown : jsstring :=
  lit "| A |" ++ [c_newline] ++ lit "text" ++ [c_newline] ++ lit "| B |".

End Markdown.

(** ** Data model *)

Module Types.

(** The declarations of [types.ts], which the functions below import, are
    not among the sources at hand.  The records list the fields that the
    design document gives and the code reads; a property that is [null],
    [undefined] or missing is [None]. *)

(** Modelled from the spec: [box_2d] is [[ymin, xmin, ymax, xmax]], each an
    integer on the 0-1000 scale. *)
Definition Box := (Z * Z * Z * Z)%type.

(** Modelled from the spec: [ExtractedValue], a [value] that is text or
    absent and a [box_2d] that is a box or absent. *)
Record ExtractedValue := {
  value : option jsstring;
  box_2d : option Box
}.

(** Modelled from the spec: [FieldDefinition], with its id, sanitized [key],
    display [name] and display [color]. *)
Record FieldDefinition := {
  field_id : jsstring;
  key : jsstring;
  name : jsstring;
  color : jsstring
}.

(** The bytes of a [Blob]. *)
Definition Blob := list N.

Record File := {
  file_name : jsstring;
  file_type : jsstring;
  file_bytes : list N
}.

(** Modelled from the spec: [DocumentResult].  The preview and annotated
    URLs, which no function below reads, are left out. *)
Record DocumentResult := {
  doc_id : jsstring;
  fileName : jsstring;
  file : File;
  status : jsstring;
  data : gmap jsstring ExtractedValue;
  annotatedBlob : option Blob
}.

(** A parsed JSON text.  The values are never inspected. *)
#[local] Unset Elimination Schemes.
Inductive Json :=
| JNull
| JBool (b : bool)
| JNumber (q : Q)
| JString (s : jsstring)
| JArray (items : list Json)
| JObject (members : list (jsstring * Json)).
#[local] Set Elimination Schemes.

(** Modelled from the spec: [ReconcileResult]. *)
Record ReconcileResult := {
  report : jsstring;
  code : jsstring;
  joinedData : option Json
}.

End Types.

Import Types.

(** ** [exportToZip] *)

Module Packager.

Definition folderName : jsstring := lit "annotated_documents".

(** *** Filename resolution *)

(** [base] and [ext] of a name around its last dot:
    [name.substring(0, lastDotIndex)] and [name.substring(lastDotIndex)],
    or [name] and [''] when there is no dot. *)
Definition dot_split (name : jsstring) : jsstring * jsstring :=
  match lastIndexOf c_dot name with
  | Some lastDotIndex =>
      (substring_to lastDotIndex name, substring_from lastDotIndex name)
  | None => (name, [])
  end.

(** [`${base}_annotated.jpg`] *)
Definition annotated_name (name : jsstring) : jsstring :=
  fst (dot_split name) ++ lit "_annotated.jpg".

(** The value of [name] before the uniqueness loop. *)
Definition export_name (doc : DocumentResult) : jsstring :=
  match annotatedBlob doc with
  | Some _ => annotated_name (fileName doc)
  | None => fileName doc
  end.

(** [`${base}_${counter}${ext}`] *)
Definition numbered (base ext : jsstring) (counter : N) : jsstring :=
  base ++ lit "_" ++ string_of_N counter ++ ext.

(** The loop [while (usedFilenames.has(uniqueName)) { ... }], entered with
    the current [counter] and [uniqueName].  [None] when [fuel] iterations
    did not suffice. *)
Fixpoint unique_loop (fuel : nat) (usedFilenames : gset jsstring)
    (base ext : jsstring) (counter : N) (uniqueName : jsstring)
    : option jsstring :=
  if bool_decide (uniqueName ∈ usedFilenames) then
    match fuel with
    | O => None
    | S fuel' =>
        unique_loop fuel' usedFilenames base ext (counter + 1)
          (numbered base ext counter)
    end
  else Some uniqueName.

(** What goes under a name in the documents folder. *)
Inductive Payload :=
| AnnotatedImage (blob : Blob)
| OriginalFile (f : File).

(** The state the first [forEach] works on.  [docsFolder] lists the calls
    [docsFolder.file(uniqueName, ...)] in the order they are made (JSZip
    would keep the last call for a name used twice). *)
Record Packing := {
  usedFilenames : gset jsstring;
  filenameMap : gmap jsstring jsstring;
  docsFolder : list (jsstring * Payload)
}.

Definition empty_packing : Packing :=
  {| usedFilenames := ∅; filenameMap := ∅; docsFolder := [] |}.

Definition payload_of (doc : DocumentResult) : Payload :=
  match annotatedBlob doc with
  | Some blob => AnnotatedImage blob
  | None => OriginalFile (file doc)
  end.

(** The name the loop settles on for [doc] in state [st].  The fuel is one
    more than the number of names in use, which is always enough
    ([unique_loop_total]). *)
Definition resolve_name (st : Packing) (doc : DocumentResult) : option jsstring :=
  let name := export_name doc in
  let '(base, ext) := dot_split name in
  unique_loop (S (size (usedFilenames st))) (usedFilenames st) base ext 1 name.

(** One iteration of [documents.forEach(doc => ...)]. *)
Definition pack_document (st : Packing) (doc : DocumentResult) : option Packing :=
  match resolve_name st doc with
  | Some uniqueName =>
      Some {| usedFilenames := {[uniqueName]} ∪ usedFilenames st;
              filenameMap := <[doc_id doc := uniqueName]> (filenameMap st);
              docsFolder := docsFolder st ++ [(uniqueName, payload_of doc)] |}
  | None => None
  end.

Fixpoint pack_documents (st : Packing) (documents : list DocumentResult)
    : option Packing :=
  match documents with
  | [] => Some st
  | doc :: rest =>
      match pack_document st doc with
      | Some st' => pack_documents st' rest
      | None => None
      end
  end.

(** The resolved filenames in document order. *)
Definition resolved_names (st : Packing) : list jsstring :=
  List.map fst (docsFolder st).

(** [u] is what the uniqueness loop yields for the candidate [name] when
    the names of [earlier] are taken: [name] itself if it is free,
    otherwise [base_n.ext] for the least [n >= 1] that is free. *)
Definition resolves (earlier : list jsstring) (name u : jsstring) : Prop :=
  ((name ∉ earlier) /\ u = name)
  \/ ((name ∈ earlier)
      /\ exists n : N,
           (1 <= n)%N
           /\ u = numbered (dot_split name).1 (dot_split name).2 n
           /\ (u ∉ earlier)
           /\ forall m : N, (1 <= m < n)%N ->
                numbered (dot_split name).1 (dot_split name).2 m ∈ earlier).

(** A processed PDF named [a.pdf]. *)
Definition annotated_a_pdf (id : jsstring) : DocumentResult :=
  {| doc_id := id;
     fileName := lit "a.pdf";
     file := {| file_name := lit "a.pdf";
                file_type := lit "application/pdf";
                file_bytes := [] |};
     status := lit "success";
     data := ∅;
     annotatedBlob := Some [] |}.

(** *** The audit sheet *)

(** A row handed to [json_to_sheet]: an object with string-valued
    properties, in insertion order.  Assigning to a property that exists
    replaces its value and keeps its place.  (JavaScript enumerates keys
    that look like array indices first; the order of the keys plays no role
    for the sheet as long as every key is in the header, which is the case
    for the rows built here, see [row_of_keys].) *)
Definition JsObject := list (jsstring * jsstring).

Fixpoint obj_set (k v : jsstring) (o : JsObject) : JsObject :=
  match o with
  | [] => [(k, v)]
  | (k', v') :: o' =>
      if bool_decide (k' = k) then (k, v) :: o' else (k', v') :: obj_set k v o'
  end.

(** [o[k] = v] for a string [v]: an ordinary property is set; the key
    [__proto__] names the prototype accessor, whose setter ignores a
    string, so that the object is left as it was. *)
Definition assign (k v : jsstring) (o : JsObject) : JsObject :=
  if bool_decide (k = lit "__proto__") then o else obj_set k v o.

Fixpoint obj_get (k : jsstring) (o : JsObject) : option jsstring :=
  match o with
  | [] => None
  | (k', v') :: o' => if bool_decide (k' = k) then Some v' else obj_get k o'
  end.

(** [`${f.name} (Coords)`] *)
Definition coords_header (f : FieldDefinition) : jsstring :=
  name f ++ lit " (Coords)".

Definition headers (fields : list FieldDefinition) : list jsstring :=
  [lit "File Name"; lit "Status"]
    ++ List.map name fields ++ List.map coords_header fields.

(** An integer that a number holds exactly and that [JSON.stringify] writes
    digit by digit: [Number.isSafeInteger]. *)
Definition safe_integer (z : Z) : Prop := (Z.abs z < 2 ^ 53)%Z.

Definition safe_box (b : Box) : Prop :=
  let '(ymin, xmin, ymax, xmax) := b in
  safe_integer ymin /\ safe_integer xmin
  /\ safe_integer ymax /\ safe_integer xmax.

(** [JSON.stringify] of a box whose entries are safe integers.  (A larger
    entry is written with seventeen significant digits at most, and with an
    exponent from [1e21] on; that is outside the model, and what is stated
    about the text of a box is stated for safe boxes.) *)
Definition JSON_stringify_box (b : Box) : jsstring :=
  let '(ymin, xmin, ymax, xmax) := b in
  lit "[" ++ string_of_Z ymin ++ lit "," ++ string_of_Z xmin ++ lit ","
    ++ string_of_Z ymax ++ lit "," ++ string_of_Z xmax ++ lit "]".

(** [extracted?.value || ''] *)
Definition value_text (extracted : option ExtractedValue) : jsstring :=
  match extracted ≫= value with
  | Some (c :: v) => c :: v
  | _ => []
  end.

(** [extracted?.box_2d ? JSON.stringify(extracted.box_2d) : ''] *)
Definition coords_text (extracted : option ExtractedValue) : jsstring :=
  match extracted ≫= box_2d with
  | Some b => JSON_stringify_box b
  | None => []
  end.

(** The body of [fields.forEach] inside [documents.map]. *)
Definition fill_field (doc : DocumentResult) (row : JsObject)
    (field : FieldDefinition) : JsObject :=
  let extracted := data doc !! key field in
  assign (coords_header field) (coords_text extracted)
    (assign (name field) (value_text extracted) row).

Definition row_of (fields : list FieldDefinition) (doc : DocumentResult)
    : JsObject :=
  fold_left (fill_field doc) fields
    (assign (lit "Status") (status doc)
       (assign (lit "File Name") (fileName doc) [])).

Definition dataRows (fields : list FieldDefinition)
    (documents : list DocumentResult) : list JsObject :=
  List.map (row_of fields) documents.

(** A worksheet cell: its text [v] and the target of its hyperlink [l]. *)
Record Cell := {
  cell_v : jsstring;
  cell_l : option jsstring
}.

(** A worksheet: the cells by (row, column), and the last row and column
    of its range ['!ref'], which starts at A1. *)
Record Worksheet := {
  cells : gmap (nat * nat) Cell;
  last_row : nat;
  last_col : nat
}.

(** First index of [k] in [hdr]: [hdr.indexOf(k)], [None] for [-1]. *)
Fixpoint indexOf (k : jsstring) (hdr : list jsstring) : option nat :=
  match hdr with
  | [] => None
  | h :: hdr' => if bool_decide (h = k) then Some O else S <$> indexOf k hdr'
  end.

(** [XLSX.utils.json_to_sheet(js, { header })], after the SheetJS
    implementation ([sheet_add_json]): row [R] of [js] fills sheet row
    [R + 1]; the value under key [k] goes to the column that is the first
    index of [k] in the header, a key not in the header being appended to
    it; a cell that exists keeps everything but its value; row 0 receives
    the header. *)
Definition write_cell (v : jsstring) (ref : nat * nat)
    (ws : gmap (nat * nat) Cell) : gmap (nat * nat) Cell :=
  match ws !! ref with
  | Some cell => <[ref := {| cell_v := v; cell_l := cell_l cell |}]> ws
  | None => <[ref := {| cell_v := v; cell_l := None |}]> ws
  end.

Definition add_property (R : nat)
    (acc : list jsstring * gmap (nat * nat) Cell) (kv : jsstring * jsstring)
    : list jsstring * gmap (nat * nat) Cell :=
  let '(hdr, ws) := acc in
  let '(k, v) := kv in
  match indexOf k hdr with
  | Some C => (hdr, write_cell v (R, C) ws)
  | None => (hdr ++ [k], write_cell v (R, length hdr) ws)
  end.

Fixpoint add_rows (js : list JsObject) (R : nat)
    (acc : list jsstring * gmap (nat * nat) Cell)
    : list jsstring * gmap (nat * nat) Cell :=
  match js with
  | [] => acc
  | JS :: js' => add_rows js' (S R) (fold_left (add_property R) JS acc)
  end.

Fixpoint write_header (hdr : list jsstring) (C : nat)
    (ws : gmap (nat * nat) Cell) : gmap (nat * nat) Cell :=
  match hdr with
  | [] => ws
  | h :: hdr' =>
      write_header hdr' (S C) (<[(O, C) := {| cell_v := h; cell_l := None |}]> ws)
  end.

Definition json_to_sheet (js : list JsObject) (header : list jsstring)
    : Worksheet :=
  let '(hdr, ws) := add_rows js 1 (header, ∅) in
  {| cells := write_header hdr 0 ws;
     last_row := length js;
     last_col := length hdr - 1 |}.

(** The body of the hyperlink loop for sheet row [R]. *)
Definition add_hyperlink (documents : list DocumentResult)
    (filenameMap : gmap jsstring jsstring)
    (worksheet : gmap (nat * nat) Cell) (R : nat) : gmap (nat * nat) Cell :=
  let docIndex := (R - 1)%nat in
  match documents !! docIndex with
  | Some doc =>
      match filenameMap !! doc_id doc with
      | Some (c :: u) =>
          let uniqueName := c :: u in
          let cellRef := (R, O) in
          let cell :=
            match worksheet !! cellRef with
            | Some cell => cell
            | None => {| cell_v := fileName doc; cell_l := None |}
            end in
          <[cellRef := {| cell_v := cell_v cell;
                          cell_l := Some (folderName ++ lit "/" ++ uniqueName) |}]>
            worksheet
      | _ => worksheet
      end
  | None => worksheet
  end.

(** [for (let R = range.s.r + 1; R <= range.e.r; ++R)] *)
Definition add_hyperlinks (documents : list DocumentResult)
    (filenameMap : gmap jsstring jsstring) (worksheet : Worksheet) : Worksheet :=
  {| cells := fold_left (add_hyperlink documents filenameMap)
                (seq 1 (last_row worksheet)) (cells worksheet);
     last_row := last_row worksheet;
     last_col := last_col worksheet |}.

(** The sheet "Source Data (Tick)". *)
Definition audit_sheet (fields : list FieldDefinition)
    (documents : list DocumentResult) (filenameMap : gmap jsstring jsstring)
    : Worksheet :=
  add_hyperlinks documents filenameMap
    (json_to_sheet (dataRows fields documents) (headers fields)).

(** A field that the user has named like the first column. *)
Definition file_name_field : FieldDefinition :=
  {| field_id := lit "f1"; key := lit "file_name"; name := lit "File Name";
     color := lit "#ff0000" |}.

(** A processed document for which the value [INV-7] was extracted for
    [file_name_field]. *)
Definition invoice_document : DocumentResult :=
  {| doc_id := lit "d1";
     fileName := lit "a.pdf";
     file := {| file_name := lit "a.pdf";
                file_type := lit "application/pdf";
                file_bytes := [] |};
     status := lit "success";
     data := {[ lit "file_name" :=
                  {| value := Some (lit "INV-7"); box_2d := None |} ]};
     annotatedBlob := Some [] |}.



(** *** The workbook and the archive *)

(** A sheet is made by [json_to_sheet] or by [aoa_to_sheet]; for the
    latter the rows are kept as given, with the width set on the first
    column, if any. *)
Inductive Sheet :=
| JsonSheet (worksheet : Worksheet)
| AoaSheet (rows : list (list jsstring)) (col0_wch : option N).

(** The sheets in the order of the [book_append_sheet] calls. *)
Definition Workbook := list (jsstring * Sheet).

(** Sheets 2 and following. *)
Definition reconcile_sheets (reconcileResult : option ReconcileResult)
    : Workbook :=
  match reconcileResult with
  | Some r =>
      match Markdown.parseMarkdownTable (report r) with
      | Some parsedTable => [(lit "Joined Data Details", AoaSheet parsedTable None)]
      | None => []
      end
      ++ [(lit "Analysis Report",
           AoaSheet [[lit "Analysis Report"]; [report r]] (Some 100%N));
          (lit "Python Code",
           AoaSheet [[lit "Executed Python Code"]; [code r]] (Some 100%N))]
  | None => []
  end.

(** What the archive object has been given: the name of the documents
    folder, the calls [docsFolder.file(name, payload)] and the calls
    [zip.file(name, workbook)], each list in the order of the calls.  Which
    entries JSZip makes of the calls is its own matter (it stores none for
    the empty name, and one for a name used twice). *)
Record Zip := {
  zip_folder : jsstring;
  zip_documents : list (jsstring * Payload);
  zip_root : list (jsstring * Workbook)
}.

(** What the browser provides: whether the two CDN libraries are loaded,
    and whether [XLSX.write] and [zip.generateAsync] succeed. *)
Record Env := {
  XLSX_loaded : bool;
  JSZip_loaded : bool;
  write_ok : bool;
  generateAsync_ok : bool
}.

Inductive Effect :=
| console_error (msg : jsstring)
| alert (msg : jsstring)
| download (filename : jsstring) (content : Zip).

(** A run of [exportToZip]: the effects in order, the archive object as
    far as it was assembled ([None]: [new JSZip()] was never reached), and
    whether the returned promise rejects. *)
Record Run := {
  effects : list Effect;
  assembled : option Zip;
  rejects : bool
}.

(** [None] only if the uniqueness loop ran out of fuel, which does not
    happen ([exportToZip_total]). *)
Definition exportToZip (env : Env) (fields : list FieldDefinition)
    (documents : list DocumentResult)
    (reconcileResult : option ReconcileResult) : option Run :=
  if negb (XLSX_loaded env) || negb (JSZip_loaded env) then
    Some {| effects :=
              [console_error (lit "Required libraries (SheetJS or JSZip) not loaded");
               alert (lit "Export libraries are still loading. Please try again in a moment.")];
            assembled := None;
            rejects := false |}
  else
    match pack_documents empty_packing documents with
    | None => None
    | Some st =>
        let worksheet := audit_sheet fields documents (filenameMap st) in
        let workbook :=
          (lit "Source Data (Tick)", JsonSheet worksheet)
            :: reconcile_sheets reconcileResult in
        if negb (write_ok env) then
          Some {| effects := [];
                  assembled := Some {| zip_folder := folderName;
                                       zip_documents := docsFolder st;
                                       zip_root := [] |};
                  rejects := true |}
        else
          let zip := {| zip_folder := folderName;
                        zip_documents := docsFolder st;
                        zip_root := [(lit "Audit_Report.xlsx", workbook)] |} in
          if generateAsync_ok env then
            Some {| effects := [download (lit "TickAndTie_Audit_Annotated.zip") zip];
                    assembled := Some zip;
                    rejects := false |}
          else
            Some {| effects := [console_error (lit "Failed to generate zip");
                                alert (lit "Failed to generate ZIP file.")];
                    assembled := Some zip;
                    rejects := false |}
    end.

End Packager.

(** ** Asynchronous results *)

(** How an awaited promise settles. *)
Inductive Outcome (A : Type) :=
| resolved (a : A)
| rejected (error : jsstring).

Arguments resolved {A} a.
Arguments rejected {A} error.

(** ** Numbers *)

(** The arithmetic of JavaScript numbers: the exact result of an operation,
    rounded to the nearest number of the binary64 format, a tie going to
    the even significand.  A number of the format is zero or
    [+-m * 2^e] with [m < 2^53] and [-1074 <= e]; outside the subnormal
    range [2^52 <= m].  Results of magnitude [2^1024] and more, which
    JavaScript turns into an infinity, are outside the model. *)

Module Binary64.

(** [2^e] *)
Definition pow2 (e : Z) : Q := (2 ^ e)%Q.

(** The nearest integer, a tie going to the even one. *)
Definition round_half_even (t : Q) : Z :=
  let f := Qfloor t in
  match Qcompare (t - inject_Z f)%Q (1 # 2)%Q with
  | Lt => f
  | Gt => (f + 1)%Z
  | Eq => if Z.even f then f else (f + 1)%Z
  end.

(** For [q > 0]: [2^(ilog2 q) <= q < 2^(ilog2 q + 2)]. *)
Definition ilog2 (q : Q) : Z :=
  (Z.log2 (Qnum q) - Z.log2 (Zpos (Qden q)) - 1)%Z.

(** For [q > 0], the [e] with [2^52 <= q / 2^e < 2^53]. *)
Definition normal_exponent (q : Q) : Z :=
  let e0 := (ilog2 q - 52)%Z in
  if Qle_bool (pow2 (e0 + 53)) q then (e0 + 1)%Z else e0.

(** The exponent of the format's numbers around [q]: it does not go below
    that of the subnormal numbers. *)
Definition exponent (q : Q) : Z := Z.max (normal_exponent q) (-1074).

Definition round_pos (q : Q) : Q :=
  let e := exponent q in
  (inject_Z (round_half_even (q / pow2 e)) * pow2 e)%Q.

Definition round64 (q : Q) : Q :=
  let r := Qred q in
  match Qnum r with
  | Z0 => 0%Q
  | Zpos _ => round_pos r
  | Zneg _ => (- round_pos (- r))%Q
  end.

(** The number a decimal literal of the source stands for. *)
Definition literal (q : Q) : Q := round64 q.

(** The number that holds a whole number: the whole number itself up to
    [2^53], the nearest number of the format beyond. *)
Definition number (z : Z) : Q := round64 (inject_Z z).

(** *** Comparison with machine arithmetic *)

(** The value of a finite number of the prover's own binary64
    arithmetic. *)
Definition Q_of_float (f : PrimFloat.float) : Q :=
  match FloatOps.Prim2SF f with
  | SpecFloat.S754_finite s m e =>
      ((if s then -1 else 1) * inject_Z (Zpos m) * pow2 e)%Q
  | _ => 0%Q
  end.

(** The machine number of a whole number below [2^53]. *)
Definition float_of_Z (z : Z) : PrimFloat.float :=
  PrimFloat.of_uint63 (Uint63.of_Z z).

(** [a / b], [(a / b) * c], [a / b + c / d] and [a / b - c / d] on whole
    numbers: whether the machine and [round64] give the same number. *)
Definition same_quotient (a b : Z) : bool :=
  Qeq_bool (Q_of_float (PrimFloat.div (float_of_Z a) (float_of_Z b)))
    (round64 (inject_Z a / inject_Z b)).

Definition same_product (a b c : Z) : bool :=
  Qeq_bool
    (Q_of_float (PrimFloat.mul (PrimFloat.div (float_of_Z a) (float_of_Z b))
                   (float_of_Z c)))
    (round64 (round64 (inject_Z a / inject_Z b) * inject_Z c)).

Definition same_sum (a b c d : Z) : bool :=
  Qeq_bool
    (Q_of_float (PrimFloat.add (PrimFloat.div (float_of_Z a) (float_of_Z b))
                   (PrimFloat.div (float_of_Z c) (float_of_Z d))))
    (round64 (round64 (inject_Z a / inject_Z b)
              + round64 (inject_Z c / inject_Z d))).

Definition same_difference (a b c d : Z) : bool :=
  Qeq_bool
    (Q_of_float (PrimFloat.sub (PrimFloat.div (float_of_Z a) (float_of_Z b))
                   (PrimFloat.div (float_of_Z c) (float_of_Z d))))
    (round64 (round64 (inject_Z a / inject_Z b)
              - round64 (inject_Z c / inject_Z d))).

(** [z], [z + 1], ..., [n] numbers in all. *)
Fixpoint upfrom (n : nat) (z : Z) : list Z :=
  match n with
  | O => []
  | S n' => z :: upfrom n' (z + 1)%Z
  end.

(** Canvas sides and thousandths to try. *)
Definition sample_sides : list Z := [800; 960; 1224; 4294967295]%Z.

Definition sample_thousandths : list Z :=
  [0; 28; 63; 500; 937; 999; 1000]%Z ++ upfrom 60 1.

End Binary64.

(** ** [generateAnnotatedImage] *)

Module Renderer.
Import Binary64.

(** A canvas: its dimensions and the pixels it holds when drawing starts.
    [canvas.width] and [canvas.height] are unsigned 32-bit integers. *)
Record Canvas := {
  width : N;
  height : N;
  bitmap : list N
}.

Definition Q_of_N (n : N) : Q := inject_Z (Z.of_N n).

(** What is done on the 2D context, in order: the properties set and the
    methods called.  [set_font fontSize] stands for
    [ctx.font = `bold ${fontSize}px sans-serif`], [measureText_of text] for
    the call [ctx.measureText(text)]. *)
Inductive CtxOp :=
| set_lineWidth (w : Q)
| set_strokeStyle (style : jsstring)
| strokeRect (x y w h : Q)
| set_fillStyle (style : jsstring)
| fillRect (x y w h : Q)
| set_font (fontSize : Q)
| measureText_of (text : jsstring)
| set_textBaseline (baseline : jsstring)
| fillText (text : jsstring) (x y : Q).

(** [(a / 1000) * size]: the division is rounded, then the product. *)
Definition scaled (a : Q) (size : N) : Q :=
  round64 (round64 (a / 1000) * Q_of_N size).

(** [x], [y], [w], [h]: the normalized box in canvas coordinates.  The
    differences [xmax - xmin] and [ymax - ymin] are rounded like every
    other result. *)
Definition rect_of (canvas : Canvas) (b : Box) : Q * Q * Q * Q :=
  let '(ymin, xmin, ymax, xmax) := b in
  let x := scaled (number xmin) (width canvas) in
  let y := scaled (number ymin) (height canvas) in
  let w := scaled (round64 (number xmax - number xmin)) (width canvas) in
  let h := scaled (round64 (number ymax - number ymin)) (height canvas) in
  (x, y, w, h).

(** [Math.max(2, canvas.width * 0.003)] *)
Definition lineWidth_of (canvas : Canvas) : Q :=
  Qmax 2 (round64 (Q_of_N (width canvas) * literal (3 # 1000))).

(** [Math.max(12, canvas.width * 0.015)] *)
Definition fontSize_of (canvas : Canvas) : Q :=
  Qmax 12 (round64 (Q_of_N (width canvas) * literal (15 # 1000))).

Section Draw.

(** [ctx.measureText(text).width] under the font of the given size. *)
Variable measureText : Q -> jsstring -> Q.

(** [y - textH > 0 ? y - textH : y] *)
Definition labelY_of (y textH : Q) : Q :=
  let above := round64 (y - textH) in
  if Qle_bool above 0 then y else above.

(** The body of the [if] for a field whose box is [b]. *)
Definition draw_box (canvas : Canvas) (field : FieldDefinition) (b : Box)
    : list CtxOp :=
  let '(x, y, w, h) := rect_of canvas b in
  let fontSize := fontSize_of canvas in
  let text := name field in
  let padding := 4%Q in
  let textW := round64 (measureText fontSize text + padding * 2) in
  let textH := round64 (fontSize + padding * 2) in
  let labelY := labelY_of y textH in
  [ set_lineWidth (lineWidth_of canvas);
    set_strokeStyle (color field);
    strokeRect x y w h;
    set_fillStyle (color field ++ lit "20");
    fillRect x y w h;
    set_font fontSize;
    measureText_of text;
    set_fillStyle (color field);
    fillRect x labelY textW textH;
    set_fillStyle (lit "white");
    set_textBaseline (lit "top");
    fillText text (round64 (x + padding)) (round64 (labelY + padding)) ].

(** The body of [fields.forEach]: [if (extracted && extracted.box_2d)]. *)
Definition draw_field (canvas : Canvas)
    (data : gmap jsstring ExtractedValue) (field : FieldDefinition)
    : list CtxOp :=
  match data !! key field with
  | Some extracted =>
      match box_2d extracted with
      | Some b => draw_box canvas field b
      | None => []
      end
  | None => []
  end.

Definition draw_fields (canvas : Canvas)
    (data : gmap jsstring ExtractedValue) (fields : list FieldDefinition)
    : list CtxOp :=
  flat_map (draw_field canvas data) fields.

(** The browser and pdf.js:
    - [loadImage]: decoding an image file, which yields its natural width
      and height and its pixels, or fails ([img.onerror]);
    - [pdfViewport]: opening a PDF and taking the viewport of its first
      page at a scale, which yields the width and height of the canvas;
    - [pdfRender]: rendering that page, which yields the pixels;
    - [getContext]: whether [getContext('2d')] yields a context on a canvas
      of the given size;
    - [toBlob]: [canvas.toBlob(..., 'image/jpeg', 0.85)] applied to the
      canvas after the given calls ([None]: the callback receives
      [null]). *)
Variable loadImage : File -> Outcome (N * N * list N).
Variable pdfViewport : File -> Q -> Outcome (N * N).
Variable pdfRender : File -> Q -> Outcome (list N).
Variable getContext : N -> N -> bool.
Variable toBlob : Canvas -> list CtxOp -> option Blob.

Definition fileToCanvas (f : File) (pdfScale : Q) : Outcome Canvas :=
  if is_prefix (lit "image/") (file_type f) then
    match loadImage f with
    | resolved (naturalWidth, naturalHeight, pixels) =>
        if getContext naturalWidth naturalHeight then
          resolved {| width := naturalWidth; height := naturalHeight;
                      bitmap := pixels |}
        else rejected (lit "Could not get 2d context")
    | rejected e => rejected e
    end
  else if bool_decide (file_type f = lit "application/pdf") then
    match pdfViewport f pdfScale with
    | resolved (w, h) =>
        if getContext w h then
          match pdfRender f pdfScale with
          | resolved pixels =>
              resolved {| width := w; height := h; bitmap := pixels |}
          | rejected e => rejected e
          end
        else rejected (lit "Canvas context not available")
    | rejected e => rejected e
    end
  else rejected (lit "Unsupported file type for rendering").

(** The result carries the calls made and the encoded image; the object URL
    made for the image is left out. *)
Definition generateAnnotatedImage (f : File)
    (data : gmap jsstring ExtractedValue) (fields : list FieldDefinition)
    : Outcome (list CtxOp * Blob) :=
  match fileToCanvas f 2 with
  | rejected e => rejected e
  | resolved canvas =>
      if getContext (width canvas) (height canvas) then
        let ops := draw_fields canvas data fields in
        match toBlob canvas ops with
        | Some blob => resolved (ops, blob)
        | None => rejected (lit "Failed to create blob from canvas")
        end
      else rejected (lit "No canvas context")
  end.

End Draw.

(** The validity condition the design document puts on a box. *)
Definition valid_box (b : Box) : Prop :=
  let '(ymin, xmin, ymax, xmax) := b in
  (0 <= ymin < ymax)%Z /\ (ymax <= 1000)%Z /\
  (0 <= xmin < xmax)%Z /\ (xmax <= 1000)%Z.

(** A box whose corners are swapped: [ymax < ymin] and [xmax < xmin]. *)
Definition inverted_box : Box := (500, 500, 100, 100)%Z.

Definition total_field : FieldDefinition :=
  {| field_id := lit "f1"; key := lit "total"; name := lit "Total";
     color := lit "#ff0000" |}.

(** The extraction result of a document for [total_field]. *)
Definition total_data (b : option Box) : gmap jsstring ExtractedValue :=
  {[ lit "total" := {| value := Some (lit "12"); box_2d := b |} ]}.

Definition square_canvas : Canvas :=
  {| width := 1000; height := 1000; bitmap := [] |}.

(** A canvas and a valid box that reaches the right edge. *)
Definition wide_canvas : Canvas :=
  {| width := 1224; height := 1000; bitmap := [] |}.

Definition edge_box : Box := (0, 63, 1000, 1000)%Z.



End Renderer.

(** ** [reconcileData] *)

Module Reconcile.

(** A part of the first candidate of the reply; [executableCode] holds
    [part.executableCode.code] when the part carries code. *)
Record Part := {
  part_text : option jsstring;
  executableCode : option jsstring
}.

(** The reply of the service: [response.text], and
    [response.candidates?.[0]?.content?.parts]. *)
Record Response := {
  response_text : option jsstring;
  response_parts : option (list Part)
}.

Definition default_report : jsstring :=
  lit "Analysis completed, but no text explanation was returned.".

(** newline, newline, a rule of 57 dashes, [# Next Code Block], the rule
    again, newline, newline *)
Definition code_separator : jsstring :=
  let nl := [c_newline] in
  let rule := lit "# ---------------------------------------------------------" in
  nl ++ nl ++ rule ++ nl ++ lit "# Next Code Block" ++ nl ++ rule ++ nl ++ nl.

(** [a.join(sep)] *)
Fixpoint join (sep : jsstring) (a : list jsstring) : jsstring :=
  match a with
  | [] => []
  | [s] => s
  | s :: a' => s ++ sep ++ join sep a'
  end.

(** Index of the first occurrence of [p] in [s]. *)
Fixpoint find_sub (p s : jsstring) : option nat :=
  if is_prefix p s then Some O
  else match s with
       | [] => None
       | _ :: s' => S <$> find_sub p s'
       end.

Definition open_tag : jsstring := lit "<JSON_RESULT>".
Definition close_tag : jsstring := lit "</JSON_RESULT>".

(** Group 1 of [report.match(/<JSON_RESULT>([\s\S]*?)<\/JSON_RESULT>/)].
    The match starts at the first opening tag (if a closing tag follows
    any opening tag, one follows the first), and the lazy group ends at
    the first closing tag after it. *)
Definition match_JSON_RESULT (report : jsstring) : option jsstring :=
  match find_sub open_tag report with
  | Some i =>
      let rest := drop (i + length open_tag) report in
      match find_sub close_tag rest with
      | Some j => Some (take j rest)
      | None => None
      end
  | None => None
  end.

(** [response.text || "Analysis completed, ..."] *)
Definition report_of (response : Response) : jsstring :=
  match response_text response with
  | Some (c :: t) => c :: t
  | _ => default_report
  end.

(** The code of the parts that carry some, joined by the separator. *)
Definition code_of (response : Response) : jsstring :=
  let parts := default [] (response_parts response) in
  let codeBlocks := omap executableCode parts in
  join code_separator codeBlocks.

Section Service.

(** [JSON.parse]; [None] when it throws a [SyntaxError]. *)
Variable JSON_parse : jsstring -> option Json.

(** [if (jsonMatch && jsonMatch[1]) { try { ... } catch (e) { ... } }]:
    the [catch] logs and leaves [joinedData] undefined. *)
Definition joinedData_of (report : jsstring) : option Json :=
  match match_JSON_RESULT report with
  | Some (c :: g) => JSON_parse (c :: g)
  | _ => None
  end.

(** The statements after [await ai.models.generateContent(...)]. *)
Definition build_result (response : Response) : ReconcileResult :=
  let report := report_of response in
  let code := code_of response in
  let joinedData := joinedData_of report in
  {| report := report; code := code; joinedData := joinedData |}.

(** [API_KEY] is [process.env.API_KEY]; [reply] is how the request to
    the service settles.  The prompt sent with the request is not
    modelled. *)
Definition reconcileData (API_KEY : option jsstring)
    (reply : Outcome Response) : Outcome ReconcileResult :=
  match API_KEY with
  | Some (_ :: _) =>
      match reply with
      | resolved response => resolved (build_result response)
      | rejected error => rejected error
      end
  | _ => rejected (lit "API Key is missing")
  end.

End Service.

(** [p] occurs in [s] at index [i]. *)
Definition occurs_at (p s : jsstring) (i : nat) : Prop :=
  exists t, drop i s = p ++ t.

(** [inner] is the content of the first tagged block of [report]: no
    opening tag starts before the block, and [inner] ends at the first
    closing tag behind the opening tag. *)
Definition first_block (report inner : jsstring) : Prop :=
  exists before after,
    report = before ++ open_tag ++ inner ++ close_tag ++ after
    /\ (forall j, (j < length before)%nat -> ~ occurs_at open_tag report j)
    /\ (forall j, (j < length inner)%nat ->
          ~ occurs_at close_tag (inner ++ close_tag ++ after) j).

(** A reply whose report carries a tagged block that is not JSON. *)
Definition broken_reply : Response :=
  {| response_text :=
       Some (lit "Summary <JSON_RESULT>[{oops</JSON_RESULT> done");
     response_parts :=
       Some [ {| part_text := Some (lit "Summary"); executableCode := None |};
              {| part_text := None; executableCode := Some (lit "print(1)") |} ] |}.

(** A reply whose report carries two tagged blocks: the first holds JSON,
    the second does not. *)
Definition two_block_reply : Response :=
  {| response_text :=
       Some (lit "a <JSON_RESULT>[1]</JSON_RESULT> b <JSON_RESULT>[{oops</JSON_RESULT>");
     response_parts := Some [] |}.

(** [JSON.parse] on the texts of the blocks above: it reads [[1]] as the
    array of the number 1 and throws on [[{oops]; this function throws on
    every other text too. *)
Definition parse_array_of_one (text : jsstring) : option Json :=
  if bool_decide (text = lit "[1]") then Some (JArray [JNumber 1]) else None.

End Reconcile.

(** ** [getNextColor] *)

Module Palette.

(** [COLORS[index % COLORS.length]] for a non-negative integer [index].
    The palette [COLORS] is declared in [types.ts] and is taken as a
    parameter.  With an empty palette the remainder is [NaN] and the result
    [undefined]: [None]. *)
Definition getNextColor (COLORS : list jsstring) (index : nat) : option jsstring :=
  COLORS !! (index mod length COLORS)%nat.

End Palette.

(** ** The document viewer *)

Module Viewer.
Import Binary64.

(** The zoom factor, a number; the sum and the difference are rounded. *)

(** [s => Math.max(0.5, s - 0.25)] *)
Definition zoomOut (s : Q) : Q := Qmax (1 # 2) (round64 (s - (1 # 4))).

(** [s => Math.min(3, s + 0.25)] *)
Definition zoomIn (s : Q) : Q := Qmin 3%Q (round64 (s + (1 # 4))).

(** What changes the zoom factor: the two buttons, and the effect that
    resets it when another document is shown. *)
Inductive Action :=
| ZoomOut
| ZoomIn
| DocumentChanged.

Definition step (scale : Q) (a : Action) : Q :=
  match a with
  | ZoomOut => zoomOut scale
  | ZoomIn => zoomIn scale
  | DocumentChanged => 1%Q
  end.

(** The zoom factor after a sequence of actions, from [useState(1)]. *)
Definition scale_after (actions : list Action) : Q := fold_left step actions 1%Q.

(** [Math.round]: the nearest integer, halves going up. *)
Definition Math_round (x : Q) : Z := Qfloor (x + (1 # 2))%Q.

(** [Math.round(scale * 100)], shown with a percent sign. *)
Definition percent (scale : Q) : Z := Math_round (round64 (scale * 100)).

(** [doc.annotatedUrl || doc.previewUrl], and [None] when the component
    returns [null] because that value is falsy. *)
Definition displayUrl (annotatedUrl previewUrl : option jsstring)
    : option jsstring :=
  match annotatedUrl with
  | Some (c :: u) => Some (c :: u)
  | _ =>
      match previewUrl with
      | Some (c :: u) => Some (c :: u)
      | _ => None
      end
  end.

(** [hasValue ? extracted.value : 'Not found'] with
    [hasValue = extracted && extracted.value]; [None] stands for the
    placeholder. *)
Definition shown_value (extracted : option ExtractedValue) : option jsstring :=
  match extracted with
  | Some e =>
      match value e with
      | Some (c :: v) => Some (c :: v)
      | _ => None
      end
  | None => None
  end.

End Viewer.

(** ** [processDocument] and the data sent by [reconcileData] *)

Module Extraction.

Definition c_comma : char := 44%N.

(** An object with properties of type [V], in insertion order.
    (JavaScript enumerates keys that look like array indices first; only
    what is held under a key is used below, not the order.) *)
Fixpoint put {V} (k : jsstring) (v : V) (o : list (jsstring * V))
    : list (jsstring * V) :=
  match o with
  | [] => [(k, v)]
  | (k', v') :: o' =>
      if bool_decide (k' = k) then (k, v) :: o' else (k', v') :: put k v o'
  end.

(** [o[k] = v]: the key [__proto__] names the prototype accessor, so that
    no property of the object itself is made or changed. *)
Definition assign_any {V} (k : jsstring) (v : V) (o : list (jsstring * V))
    : list (jsstring * V) :=
  if bool_decide (k = lit "__proto__") then o else put k v o.

Fixpoint get {V} (k : jsstring) (o : list (jsstring * V)) : option V :=
  match o with
  | [] => None
  | (k', v') :: o' => if bool_decide (k' = k) then Some v' else get k o'
  end.

(** The two descriptions that the schema entry of a field carries. *)
Record SchemaEntry := {
  value_description : jsstring;
  entry_description : jsstring
}.

Definition schema_entry (field : FieldDefinition) : SchemaEntry :=
  {| value_description := lit "The extracted value for " ++ name field;
     entry_description := lit "Extraction result for " ++ name field |}.

(** [fields.forEach(field => { properties[field.key] = {...} })] *)
Definition schema_properties (fields : list FieldDefinition)
    : list (jsstring * SchemaEntry) :=
  fold_left (fun properties field =>
               assign_any (key field) (schema_entry field) properties)
    fields [].

(** [base64DataUrl.split(',')[1]] *)
Definition base64Data (base64DataUrl : jsstring) : option jsstring :=
  split c_comma base64DataUrl !! 1%nat.

(** [fields.map(f => f.name).join(', ')] *)
Definition field_list (fields : list FieldDefinition) : jsstring :=
  Reconcile.join (lit ", ") (List.map name fields).

(** What is sent to the service for a document. *)
Record Request := {
  mimeType : jsstring;
  inline_data : option jsstring;
  prompt_fields : jsstring;
  responseSchema : list (jsstring * SchemaEntry)
}.

(** A settled call: the requests made, the errors passed to
    [console.error], and the outcome. *)
Record Settled := {
  requests : list Request;
  logged : list jsstring;
  outcome : Outcome Json
}.

Section Service.

(** [JSON.parse]; [rejected] carries the message of the [SyntaxError]. *)
Variable JSON_parse : jsstring -> Outcome Json.

(** [API_KEY] is [process.env.API_KEY], [base64DataUrl] how
    [fileToBase64(doc.file)] settles, [reply] how the request settles, with
    [response.text]. *)
Definition processDocument (API_KEY : option jsstring)
    (base64DataUrl : Outcome jsstring) (reply : Outcome (option jsstring))
    (doc : DocumentResult) (fields : list FieldDefinition) : Settled :=
  match API_KEY with
  | Some (_ :: _) =>
      let properties := schema_properties fields in
      match base64DataUrl with
      | rejected e => {| requests := []; logged := []; outcome := rejected e |}
      | resolved url =>
          let request :=
            {| mimeType := file_type (file doc);
               inline_data := base64Data url;
               prompt_fields := field_list fields;
               responseSchema := properties |} in
          match reply with
          | rejected e =>
              {| requests := [request]; logged := [e]; outcome := rejected e |}
          | resolved (Some (c :: t)) =>
              match JSON_parse (c :: t) with
              | resolved json =>
                  {| requests := [request]; logged := [];
                     outcome := resolved json |}
              | rejected e =>
                  {| requests := [request]; logged := [e];
                     outcome := rejected e |}
              end
          | resolved _ =>
              {| requests := [request];
                 logged := [lit "No response from Gemini"];
                 outcome := rejected (lit "No response from Gemini") |}
          end
      end
  | _ =>
      {| requests := []; logged := [];
         outcome := rejected (lit "API Key is missing") |}
  end.

End Service.

(** [d.data[f.key]?.value || null] *)
Definition value_or_null (extracted : option ExtractedValue) : option jsstring :=
  match extracted with
  | Some e =>
      match value e with
      | Some (c :: v) => Some (c :: v)
      | _ => None
      end
  | None => None
  end.

(** A row of [extractedData]: its own properties, each a string or
    [null], in insertion order, and whether its prototype has become
    [null]. *)
Record RowObject := {
  own : list (jsstring * option jsstring);
  null_prototype : bool
}.

(** [row[k] = v] for a [v] that is a string or [null].  As long as the row
    inherits from [Object.prototype], the key [__proto__] names the
    prototype accessor, whose setter makes [null] the prototype of the row
    and ignores a string.  Once the prototype is [null] no accessor is
    found, and [__proto__] is a key like any other. *)
Definition set_property (k : jsstring) (v : option jsstring) (row : RowObject)
    : RowObject :=
  if bool_decide (k = lit "__proto__") && negb (null_prototype row) then
    match v with
    | None => {| own := own row; null_prototype := true |}
    | Some _ => row
    end
  else {| own := put k v (own row); null_prototype := null_prototype row |}.

(** [const row = { fileName: d.fileName };
     fields.forEach(f => { row[f.name] = d.data[f.key]?.value || null })] *)
Definition extracted_row (fields : list FieldDefinition) (d : DocumentResult)
    : RowObject :=
  fold_left (fun row f =>
               set_property (name f) (value_or_null (data d !! key f)) row)
    fields
    {| own := [(lit "fileName", Some (fileName d))];
       null_prototype := false |}.

(** The values assigned under [__proto__], in the order of the fields. *)
Definition proto_values (fields : list FieldDefinition) (d : DocumentResult)
    : list (option jsstring) :=
  List.map (fun f => value_or_null (data d !! key f))
    (List.filter (fun f => bool_decide (name f = lit "__proto__")) fields).

(** What follows the first [null] of a list of values. *)
Fixpoint after_first_null (vs : list (option jsstring))
    : list (option jsstring) :=
  match vs with
  | [] => []
  | None :: vs' => vs'
  | Some _ :: vs' => after_first_null vs'
  end.

(** [documents.filter(d => d.status === 'success').map(d => ...)] *)
Definition extractedData (documents : list DocumentResult)
    (fields : list FieldDefinition) : list RowObject :=
  List.map (extracted_row fields)
    (List.filter (fun d => bool_decide (status d = lit "success")) documents).

(** The last field of [fields] that satisfies [p]. *)
Definition last_field (p : FieldDefinition -> bool) (fields : list FieldDefinition)
    : option FieldDefinition :=
  List.find p (rev fields).

End Extraction.

(** ** Vocabulary for further statements *)

Module Layout.

(** A row in the usual markdown layout: a pipe, then every cell between
    spaces and followed by a pipe. *)
Definition layout_row (cells : list jsstring) : jsstring :=
  c_pipe :: flat_map (fun c => lit " " ++ c ++ lit " |") cells.

(** A table: its rows, one per line. *)
Definition layout (rows : list (list jsstring)) : jsstring :=
  Reconcile.join [c_newline] (List.map layout_row rows).

(** A cell that the layout can carry: no pipe, no newline, no white space at
    either end. *)
Definition edge_ok (c : jsstring) : bool :=
  match c with
  | [] => true
  | x :: _ => negb (is_space x)
  end.

Definition plain_cell (c : jsstring) : bool :=
  forallb (fun x => negb (x =? c_pipe)%N && negb (x =? c_newline)%N) c
  && edge_ok c && edge_ok (rev c).

(** A row that the layout can carry and that the extractor does not take
    for a separator line. *)
Definition plain_row (cells : list jsstring) : bool :=
  forallb plain_cell cells && negb (Markdown.is_separator (layout_row cells)).

(** A text none of whose lines gives a row. *)
Definition no_rows (text : jsstring) : bool :=
  forallb (fun l => negb (Markdown.is_row_line (trim l)))
    (Markdown.lines_of text).

(** Whether the renderer finds a box for a field. *)
Definition has_box (data : gmap jsstring ExtractedValue)
    (field : FieldDefinition) : bool :=
  match data !! key field with
  | Some extracted =>
      match box_2d extracted with
      | Some _ => true
      | None => false
      end
  | None => false
  end.

(** The stroke styles set by a sequence of calls, in order. *)
Definition stroke_styles (ops : list Renderer.CtxOp) : list jsstring :=
  omap (fun op => match op with
                  | Renderer.set_strokeStyle style => Some style
                  | _ => None
                  end) ops.

(** The number of pipes of a line. *)
Definition count_pipes (line : jsstring) : nat :=
  length (List.filter (fun c => (c =? c_pipe)%N) line).

End Layout.

(** * Properties *)

(** ** Code units *)

(** Case analysis on the comparisons that classify a code unit. *)
Ltac char_step :=
  match goal with
  | |- context [N.leb ?a ?b] => destruct (N.leb_spec a b)
  | |- context [N.ltb ?a ?b] => destruct (N.ltb_spec a b)
  | |- context [N.eqb ?a ?b] => destruct (N.eqb_spec a b)
  | H : context [N.leb ?a ?b] |- _ => destruct (N.leb_spec a b)
  | H : context [N.ltb ?a ?b] |- _ => destruct (N.ltb_spec a b)
  | H : context [N.eqb ?a ?b] |- _ => destruct (N.eqb_spec a b)
  end.

Ltac char_cases :=
  unfold sanitize_char, ascii_lower, is_key_char, is_alnum, is_ascii,
    is_lower, is_upper, is_digit, in_range, c_underscore, c_pipe, c_dash in *;
  repeat (char_step; simpl in *; try discriminate; try lia);
  simpl in *; try reflexivity; try discriminate; try lia.

Lemma sanitize_char_key (c : char) : is_key_char (sanitize_char c) = true.
Proof. char_cases. Qed.

Lemma sanitize_char_fix (c : char) :
  is_key_char c = true -> sanitize_char c = c.
Proof. intros H. char_cases. Qed.

Lemma key_char_ascii (c : char) : is_key_char c = true -> is_ascii c = true.
Proof. intros H. char_cases. Qed.

Lemma replaced_ascii (c : char) :
  is_ascii (if is_alnum c then c else c_underscore) = true.
Proof. char_cases. Qed.

Lemma forallb_map_compose {A B} (f : B -> bool) (g : A -> B) (l : list A) :
  forallb f (List.map g l) = forallb (fun a => f (g a)) l.
Proof. induction l as [|a l IH]; simpl; [reflexivity | now rewrite IH]. Qed.

Section SanitizeKeyFacts.

Variable unicode_lower : jsstring -> jsstring.

(** After the replacement only ASCII is left, so that the case conversion
    is the ASCII one and [sanitizeKey] works unit by unit. *)
Lemma sanitizeKey_map (name : jsstring) :
  sanitizeKey unicode_lower name = List.map sanitize_char name.
Proof.
  unfold sanitizeKey, toLowerCase, replace_non_alnum.
  rewrite forallb_map_compose.
  replace (forallb _ name) with true.
  - rewrite List.map_map. reflexivity.
  - symmetry. apply forallb_forall. intros c _. apply replaced_ascii.
Qed.

Lemma sanitizeKey_alphabet (name : jsstring) :
  forallb is_key_char (sanitizeKey unicode_lower name) = true.
Proof.
  rewrite sanitizeKey_map, forallb_map_compose.
  apply forallb_forall. intros c _. apply sanitize_char_key.
Qed.

Lemma sanitizeKey_fix (s : jsstring) :
  forallb is_key_char s = true -> sanitizeKey unicode_lower s = s.
Proof.
  rewrite sanitizeKey_map. induction s as [|c s IH]; simpl; [reflexivity|].
  intros [Hc Hs]%andb_prop. rewrite sanitize_char_fix, IH; auto.
Qed.

End SanitizeKeyFacts.

(** C10. For every input string and whatever the case conversion does
    outside ASCII, the key produced by [sanitizeKey] consists of lowercase
    ASCII letters, digits and underscores only, and [sanitizeKey] applied to
    its own output returns that output unchanged. *)
Theorem sanitizeKey_lowercase_idempotent :
  forall (unicode_lower : jsstring -> jsstring) (name : jsstring),
    Forall (fun c => is_lower c = true \/ is_digit c = true \/ c = c_underscore)
      (sanitizeKey unicode_lower name)
    /\ sanitizeKey unicode_lower (sanitizeKey unicode_lower name)
       = sanitizeKey unicode_lower name.
Proof.
  intros lower name. split.
  - apply List.Forall_forall. intros c Hc.
    pose proof (sanitizeKey_alphabet lower name) as Hall.
    rewrite forallb_forall in Hall. specialize (Hall c Hc).
    unfold is_key_char in Hall.
    apply orb_prop in Hall as [[Hl | Hd]%orb_prop | He]; auto.
    right; right. apply N.eqb_eq, He.
  - apply sanitizeKey_fix, sanitizeKey_alphabet.
Qed.

(** ** The table extractor *)

Module MarkdownFacts.
Import Markdown.

Lemma pipe_line_not_blank (line : jsstring) :
  is_pipe_line line = true -> is_blank line = false.
Proof. destruct line; [discriminate | reflexivity]. Qed.

Lemma row_line_pipe (line : jsstring) :
  is_row_line line = true ->
  is_pipe_line line = true /\ is_separator line = false.
Proof.
  unfold is_row_line. intros [H1 H2]%andb_prop. split; [exact H1|].
  now apply negb_true_iff.
Qed.

Lemma gives_nil ts k r : ~ gives [] ts k r.
Proof. intros [H _]. destruct k; discriminate H. Qed.

(** The head line gives a row exactly when it is a row line. *)
Lemma gives_head l rest ts r :
  gives (l :: rest) ts 0 r <->
  is_row_line (trim l) = true /\ r = cells_of (trim l).
Proof.
  unfold gives; simpl. split.
  - intros (H1 & H2 & _); auto.
  - intros [H1 H2]. repeat split; auto; lia.
Qed.

(** Behind a head line that is skipped without effect on the flag. *)
Lemma gives_skip l rest ts k r :
  is_row_line (trim l) = false ->
  (is_blank (trim l) = true -> ts = false) ->
  gives (l :: rest) ts (S k) r <-> gives rest ts k r.
Proof.
  intros Hrow Hblank. unfold gives; simpl. split.
  - intros (H1 & H2 & H3). repeat split; auto.
    + destruct (H3 (S j)) as [Hts _]; [lia | assumption | exact Hts].
    + intros i Hi. destruct (H3 (S j)) as [_ Hi']; [lia | assumption |].
      apply (Hi' (S i)). lia.
  - intros (H1 & H2 & H3). repeat split; auto.
    + destruct j as [|j]; [auto|]. apply (H3 j); [lia | assumption].
    + intros i Hi. destruct j as [|j]; [lia|].
      destruct i as [|i]; [exact Hrow|].
      simpl in *. apply (H3 j); [lia | assumption | lia].
Qed.

(** Behind a head line that is a row. *)
Lemma gives_after_row l rest ts k r :
  is_row_line (trim l) = true ->
  gives (l :: rest) ts (S k) r <-> gives rest true k r.
Proof.
  intros Hrow. unfold gives; simpl. split.
  - intros (H1 & H2 & H3). split; [exact H1 | split; [exact H2 |]].
    intros j Hj Hb. exfalso.
    destruct (H3 (S j)) as [_ Hi]; [lia | exact Hb |].
    specialize (Hi O ltac:(lia)). simpl in Hi. congruence.
  - intros (H1 & H2 & H3). split; [exact H1 | split; [exact H2 |]].
    intros j Hj Hb. exfalso. destruct j as [|j]; simpl in Hb.
    + apply row_line_pipe in Hrow as [Hp _].
      apply pipe_line_not_blank in Hp. congruence.
    + destruct (H3 j) as [Hf _]; [lia | exact Hb | discriminate Hf].
Qed.

(** Behind a blank head line when the table has started: nothing. *)
Lemma gives_stopped l rest k r :
  is_blank (trim l) = true -> ~ gives (l :: rest) true (S k) r.
Proof.
  intros Hb (_ & _ & H3). destruct (H3 O) as [Hf _]; [lia | exact Hb | discriminate Hf].
Qed.

Lemma ex_shift (P : nat -> Prop) (i k : nat) :
  (exists k', k = (i + k')%nat /\ P k') <->
  (k = i /\ P O) \/ (exists k', k = (S i + k')%nat /\ P (S k')).
Proof.
  split.
  - intros ([|k'] & -> & HP).
    + left. split; [lia | exact HP].
    + right. exists k'. split; [lia | exact HP].
  - intros [[-> HP] | (k' & -> & HP)].
    + exists O. split; [lia | exact HP].
    + exists (S k'). split; [lia | exact HP].
Qed.

(** What the loop adds to [data]: the rows that the remaining lines give,
    each with the index of its line. *)
Lemma scan_In lines : forall i ts data k r,
  In (k, r) (scan lines i ts data) <->
  In (k, r) data \/ exists k', k = (i + k')%nat /\ gives lines ts k' r.
Proof.
  induction lines as [|l rest IH]; intros i ts data k r; simpl.
  - split; [auto|]. intros [H | (k' & _ & H)]; [exact H|].
    destruct (gives_nil _ _ _ H).
  - rewrite ex_shift.
    destruct (is_pipe_line (trim l)) eqn:Hp.
    + destruct (is_separator (trim l)) eqn:Hs.
      * assert (Hrow : is_row_line (trim l) = false)
          by (unfold is_row_line; rewrite Hp, Hs; reflexivity).
        rewrite IH. rewrite gives_head, Hrow.
        setoid_rewrite (gives_skip l rest ts _ r Hrow).
        -- intuition discriminate.
        -- intros Hb. apply pipe_line_not_blank in Hp. congruence.
      * assert (Hrow : is_row_line (trim l) = true)
          by (unfold is_row_line; rewrite Hp, Hs; reflexivity).
        rewrite IH, in_app_iff. rewrite gives_head.
        setoid_rewrite (gives_after_row l rest ts _ r Hrow).
        simpl. split.
        -- intros [[H | [H | []]] | H]; auto.
           injection H as <- <-. auto.
        -- intros [H | [[-> [_ ->]] | H]]; auto.
    + assert (Hrow : is_row_line (trim l) = false)
        by (unfold is_row_line; rewrite Hp; reflexivity).
      rewrite gives_head, Hrow.
      destruct (ts && bool_decide (trim l = [])) eqn:Hstop.
      * apply andb_prop in Hstop as [-> Hb]. split; [auto|].
        intros [H | [[_ [H _]] | (k' & _ & H)]]; [exact H | discriminate H |].
        destruct (gives_stopped l rest k' r Hb H).
      * rewrite IH.
        setoid_rewrite (gives_skip l rest ts _ r Hrow).
        -- intuition discriminate.
        -- unfold is_blank. intros Hb. rewrite Hb, andb_true_r in Hstop.
           exact Hstop.
Qed.

Lemma table_scan_In markdown k r :
  In (k, r) (table_scan markdown) <-> gives (lines_of markdown) false k r.
Proof.
  unfold table_scan. rewrite scan_In. simpl. split.
  - intros [[] | (k' & -> & H)]. exact H.
  - intros H. right. exists k. auto.
Qed.

Lemma gives_before_stop markdown k :
  (exists r, gives (lines_of markdown) false k r) <->
  is_row_line (line_at markdown k) = true /\ before_stop markdown k.
Proof.
  unfold gives, before_stop, line_at. split.
  - intros (r & Hrow & _ & H). split; [exact Hrow|].
    intros i j Hij Hi.
    destruct (is_blank (trim (nth j (lines_of markdown) []))) eqn:Hb;
      [|reflexivity].
    destruct (H j) as [_ Hno]; [lia | exact Hb |].
    rewrite Hno in Hi; [discriminate Hi | lia].
  - intros [Hrow H]. eexists. split; [exact Hrow | split; [reflexivity|]].
    intros j Hj Hb. split; [reflexivity|]. intros i Hi.
    destruct (is_row_line (trim (nth i (lines_of markdown) []))) eqn:Hr;
      [|reflexivity].
    rewrite (H i j) in Hb; [discriminate Hb | lia | exact Hr].
Qed.

Lemma contributing_iff markdown k :
  In k (contributing markdown) <->
  is_row_line (line_at markdown k) = true /\ before_stop markdown k.
Proof.
  rewrite <- gives_before_stop. unfold contributing. rewrite in_map_iff. split.
  - intros ([k' r] & <- & H). exists r. now apply table_scan_In.
  - intros (r & H). exists (k, r). split; [reflexivity|]. now apply table_scan_In.
Qed.

(** The rows are the cells of the contributing lines, in the order of
    [contributing]. *)
Lemma table_scan_rows markdown :
  List.map snd (table_scan markdown)
  = List.map (fun k => cells_of (line_at markdown k)) (contributing markdown).
Proof.
  unfold contributing. rewrite List.map_map. apply map_ext_in.
  intros [k r] H. apply table_scan_In in H as (_ & -> & _). reflexivity.
Qed.

(** The rows are pushed in the order of the lines. *)
Lemma sorted_snoc (l : list nat) (i : nat) :
  StronglySorted lt l -> Forall (fun k => k < i)%nat l ->
  StronglySorted lt (l ++ [i]).
Proof.
  induction 1 as [|k l Hs IH Hk]; intros Hall; simpl.
  - repeat constructor.
  - apply Forall_cons in Hall as [Hki Hall]. constructor; [auto|].
    apply Forall_app. split; [exact Hk | constructor; [exact Hki | constructor]].
Qed.

Lemma scan_sorted lines : forall i ts data,
  StronglySorted lt (List.map fst data) ->
  Forall (fun k => k < i)%nat (List.map fst data) ->
  StronglySorted lt (List.map fst (scan lines i ts data)).
Proof.
  induction lines as [|l rest IH]; intros i ts data Hs Hall; simpl; [exact Hs|].
  assert (Hall' : Forall (fun k => k < S i)%nat (List.map fst data)).
  { eapply Forall_impl; [exact Hall|]. simpl. intros k Hk. lia. }
  destruct (is_pipe_line (trim l)).
  - destruct (is_separator (trim l)); [apply IH; assumption|].
    apply IH; rewrite List.map_app; simpl.
    + apply sorted_snoc; assumption.
    + apply Forall_app. split; [exact Hall' | repeat constructor].
  - destruct (ts && _); [exact Hs | apply IH; assumption].
Qed.

Lemma contributing_sorted markdown :
  StronglySorted lt (contributing markdown).
Proof.
  unfold contributing, table_scan. apply scan_sorted; constructor.
Qed.

(** Without a pipe-delimited line the loop leaves [data] as it is. *)
Lemma scan_no_pipe lines : forall i ts data,
  (forall l, In l lines -> is_pipe_line (trim l) = false) ->
  scan lines i ts data = data.
Proof.
  induction lines as [|l rest IH]; intros i ts data H; simpl; [reflexivity|].
  rewrite (H l) by (left; reflexivity).
  destruct (ts && _); [reflexivity|].
  apply IH. intros l' Hl'. apply H. right. exact Hl'.
Qed.

(** *** Separator lines *)

Lemma trimStart_dashes (s : jsstring) :
  forallb (fun c => (c =? c_dash)%N) s = true -> trimStart s = s.
Proof.
  destruct s as [|c s]; simpl; [reflexivity|].
  intros [Hc _]%andb_prop. apply N.eqb_eq in Hc. subst c. reflexivity.
Qed.

Lemma trim_dashes (s : jsstring) :
  forallb (fun c => (c =? c_dash)%N) s = true -> trim s = s.
Proof.
  intros H. unfold trim, trimEnd. rewrite (trimStart_dashes s H).
  rewrite trimStart_dashes, rev_involutive; [reflexivity|].
  apply forallb_forall. intros c Hc. rewrite forallb_forall in H.
  apply H, in_rev, Hc.
Qed.

Lemma remove_pipes_dashes (line : jsstring) :
  dashes_and_pipes line = true ->
  forallb (fun c => (c =? c_dash)%N) (remove_pipes line) = true.
Proof.
  unfold dashes_and_pipes, remove_pipes.
  induction line as [|c line IH]; simpl; [reflexivity|].
  intros [Hc Hl]%andb_prop.
  destruct (N.eqb_spec c c_pipe) as [->|Hne]; simpl; [auto|].
  rewrite orb_false_r in Hc. rewrite Hc. simpl. auto.
Qed.

Lemma remove_pipes_has_dash (line : jsstring) :
  has_dash line = true -> remove_pipes line <> [].
Proof.
  unfold has_dash, remove_pipes.
  induction line as [|c line IH]; simpl; [discriminate|].
  destruct (N.eqb_spec c c_dash) as [->|Hne]; simpl; [discriminate|].
  intros H. destruct (negb _); [discriminate | auto].
Qed.

(** A line of dashes and pipes with a dash in it passes the separator
    test. *)
Lemma dashes_and_pipes_separator (line : jsstring) :
  dashes_and_pipes line = true -> has_dash line = true ->
  is_separator line = true.
Proof.
  intros Hdp Hd. unfold is_separator.
  rewrite (trim_dashes _ (remove_pipes_dashes line Hdp)).
  pose proof (remove_pipes_has_dash line Hd) as Hne.
  unfold all_dashes. destruct (remove_pipes line) eqn:E; [congruence|].
  rewrite <- E. apply remove_pipes_dashes, Hdp.
Qed.

(** *** The statements of the design document *)

(** C4. Applied to the table of the design document followed by a blank
    line and trailing text, the extractor returns exactly the grid
    [["A","B"],["1","2"]]; and for every text none of whose lines starts
    and ends with a pipe after trimming, it returns [null]. *)
Theorem parseMarkdownTable_example_and_absent :
  parseMarkdownTable example_markdown
  = Some [[lit "A"; lit "B"]; [lit "1"; lit "2"]]
  /\ forall markdown,
       (forall l, In l (lines_of markdown) -> is_pipe_line (trim l) = false) ->
       parseMarkdownTable markdown = None.
Proof.
  split; [vm_compute; reflexivity|].
  intros markdown H. unfold parseMarkdownTable, table_scan.
  rewrite (scan_no_pipe _ _ _ _ H). reflexivity.
Qed.

Lemma parseMarkdownTable_absent_witness :
  (forall l, In l (lines_of (lit "Trailing text")) -> is_pipe_line (trim l) = false)
  /\ parseMarkdownTable (lit "Trailing text") = None.
Proof.
  assert (H : forall l, In l (lines_of (lit "Trailing text")) ->
              is_pipe_line (trim l) = false)
    by (intros l [<- | []]; vm_compute; reflexivity).
  split; [exact H|].
  exact (proj2 parseMarkdownTable_example_and_absent (lit "Trailing text") H).
Defined.

(** C5 as stated fails: a line of text between two pipe-delimited lines
    does not end the table, so the lines that give rows (0 and 2) do not
    form a contiguous block of pipe-delimited lines. *)
Lemma table_block_not_contiguous :
  parseMarkdownTable gapped_markdown = Some [[lit "A"]; [lit "B"]]
  /\ contributing gapped_markdown = [0; 2]%nat
  /\ is_pipe_line (line_at gapped_markdown 1) = false
  /\ ~ contiguous_block gapped_markdown.
Proof.
  split; [vm_compute; reflexivity|].
  split; [vm_compute; reflexivity|].
  split; [vm_compute; reflexivity|].
  intros H. specialize (H 0 1 2)%nat.
  assert (Hc : contributing gapped_markdown = [0; 2]%nat) by (vm_compute; reflexivity).
  rewrite Hc in H.
  assert (Hf : is_pipe_line (line_at gapped_markdown 1) = true).
  { apply H; simpl; auto; lia. }
  vm_compute in Hf. discriminate Hf.
Qed.

(** A line of pipes alone is not taken for a separator: it gives a row. *)
Example pipes_only_line_gives_row :
  parseMarkdownTable (lit "||") = Some [[lit ""]].
Proof. vm_compute. reflexivity. Qed.

(** C5, amended. For every input text:
    - a row is taken only from a line that, after trimming, starts and
      ends with a pipe and does not pass the separator test;
    - a line made of dashes and pipes only, with at least one dash, gives
      no row;
    - no line after a blank line that follows a line that gave a row gives
      a row;
    - the lines that give rows are exactly the row lines that are not
      behind such a blank line: a line in between that is neither
      pipe-delimited nor blank is passed over and does not end the table;
    - the result lists the cells of these lines in the order of the input,
      and is [null] when there is none. *)
Theorem table_rows_provenance :
  forall markdown,
    (forall k, In k (contributing markdown) ->
       is_pipe_line (line_at markdown k) = true
       /\ is_separator (line_at markdown k) = false)
    /\ (forall k, dashes_and_pipes (line_at markdown k) = true ->
          has_dash (line_at markdown k) = true ->
          ~ In k (contributing markdown))
    /\ (forall i j k, (i < j < k)%nat ->
          In i (contributing markdown) ->
          is_blank (line_at markdown j) = true ->
          ~ In k (contributing markdown))
    /\ (forall k, In k (contributing markdown) <->
          is_row_line (line_at markdown k) = true /\ before_stop markdown k)
    /\ StronglySorted lt (contributing markdown)
    /\ parseMarkdownTable markdown
       = match List.map (fun k => cells_of (line_at markdown k))
                 (contributing markdown) with
         | [] => None
         | rows => Some rows
         end.
Proof.
  intros markdown.
  split; [|split; [|split; [|split; [|split]]]].
  - intros k Hk. apply contributing_iff in Hk as [Hrow _].
    apply row_line_pipe, Hrow.
  - intros k Hdp Hd Hk. apply contributing_iff in Hk as [Hrow _].
    apply row_line_pipe in Hrow as [_ Hsep].
    rewrite (dashes_and_pipes_separator _ Hdp Hd) in Hsep. discriminate Hsep.
  - intros i j k Hijk Hi Hb Hk.
    apply contributing_iff in Hi as [Hrow _].
    apply contributing_iff in Hk as [_ Hstop].
    rewrite (Hstop i j Hijk Hrow) in Hb. discriminate Hb.
  - intros k. apply contributing_iff.
  - apply contributing_sorted.
  - unfold parseMarkdownTable. rewrite table_scan_rows.
    destruct (List.map _ (contributing markdown)); reflexivity.
Qed.

Lemma table_rows_provenance_witness :
  In 2%nat (contributing example_markdown)
  /\ is_pipe_line (line_at example_markdown 2) = true
  /\ ~ In 1%nat (contributing example_markdown)
  /\ ~ In 4%nat (contributing example_markdown).
Proof.
  pose proof (table_rows_provenance example_markdown) as (H1 & H2 & H3 & _).
  assert (Hc : contributing example_markdown = [0; 2]%nat) by (vm_compute; reflexivity).
  assert (H0 : In 0%nat (contributing example_markdown)) by (rewrite Hc; simpl; auto).
  assert (H2' : In 2%nat (contributing example_markdown)) by (rewrite Hc; simpl; auto).
  split; [exact H2'|].
  split; [exact (proj1 (H1 2%nat H2'))|].
  split.
  - apply H2; vm_compute; reflexivity.
  - apply (H3 0 3 4)%nat; [lia | exact H0 | vm_compute; reflexivity].
Defined.

End MarkdownFacts.

(** ** The export packager: filenames *)

Module PackagerFacts.
Import Packager.

(** *** Printing a counter is injective *)

Lemma lit_inj (s t : string) : lit s = lit t -> s = t.
Proof.
  unfold lit. intros H.
  rewrite <- (string_of_list_ascii_of_string s),
          <- (string_of_list_ascii_of_string t).
  f_equal. revert H.
  generalize (list_ascii_of_string s) (list_ascii_of_string t).
  induction l as [|a l IH]; intros [|b l'] H; simpl in H;
    try discriminate; [reflexivity|].
  injection H as Hab Hl. f_equal; [|auto].
  rewrite <- (ascii_N_embedding a), <- (ascii_N_embedding b), Hab.
  reflexivity.
Qed.

Lemma string_of_N_inj (n m : N) : string_of_N n = string_of_N m -> n = m.
Proof.
  unfold string_of_N. intros H%lit_inj.
  assert (Hu : N.to_uint n = N.to_uint m).
  { assert (Some (N.to_uint n) = Some (N.to_uint m)) as [=] ; [|assumption].
    rewrite <- !NilEmpty.usu. now rewrite H. }
  rewrite <- (DecimalN.Unsigned.of_to n), <- (DecimalN.Unsigned.of_to m), Hu.
  reflexivity.
Qed.

Lemma numbered_inj (base ext : jsstring) (n m : N) :
  numbered base ext n = numbered base ext m -> n = m.
Proof.
  unfold numbered. intros H.
  apply app_inv_head in H. apply app_inv_head in H.
  apply app_inv_tail in H. apply string_of_N_inj, H.
Qed.

(** *** The uniqueness loop *)

(** If the fuel runs out, the name the loop was entered with and the next
    [fuel] numbered names are all taken. *)
Lemma unique_loop_None fuel used base ext : forall counter u,
  unique_loop fuel used base ext counter u = None ->
  (u ∈ used)
  /\ forall i, (i < fuel)%nat ->
       numbered base ext (counter + N.of_nat i) ∈ used.
Proof.
  induction fuel as [|fuel IH]; intros counter u; simpl;
    destruct (bool_decide_reflect (u ∈ used)) as [Hu|Hu]; try discriminate.
  - intros _. split; [exact Hu | intros i Hi; lia].
  - intros H. apply IH in H as [H0 Hrest]. split; [exact Hu|].
    intros [|i] Hi.
    + rewrite N.add_0_r. exact H0.
    + replace (counter + N.of_nat (S i))%N with (counter + 1 + N.of_nat i)%N by lia.
      apply Hrest. lia.
Qed.

(** More names than [used] holds cannot all be taken. *)
Lemma numbered_not_all_used (used : gset jsstring) base ext counter fuel :
  (forall i, (i < fuel)%nat ->
     numbered base ext (counter + N.of_nat i) ∈ used) ->
  (fuel <= size used)%nat.
Proof.
  intros H.
  set (names := (fun i => numbered base ext (counter + N.of_nat i)) <$> seq 0 fuel).
  assert (Hnd : NoDup names).
  { apply NoDup_fmap_2_strong; [|apply NoDup_seq].
    intros i j _ _ Hij. apply numbered_inj in Hij. lia. }
  assert (Hsub : list_to_set (C:=gset jsstring) names ⊆ used).
  { intros x Hx. apply elem_of_list_to_set in Hx.
    apply list_elem_of_fmap in Hx as (i & -> & Hi).
    apply elem_of_seq in Hi. apply H. lia. }
  apply subseteq_size in Hsub.
  rewrite size_list_to_set in Hsub by exact Hnd.
  unfold names in Hsub. rewrite length_fmap, length_seq in Hsub. exact Hsub.
Qed.

(** With one more unit of fuel than there are names in use the loop
    always ends. *)
Lemma unique_loop_total (used : gset jsstring) base ext counter u :
  is_Some (unique_loop (S (size used)) used base ext counter u).
Proof.
  destruct (unique_loop _ used base ext counter u) eqn:E; [eauto|].
  apply unique_loop_None in E as [_ H].
  apply numbered_not_all_used in H. lia.
Qed.

(** What the loop returns. *)
Lemma unique_loop_Some fuel used base ext : forall counter u r,
  unique_loop fuel used base ext counter u = Some r ->
  (r ∉ used)
  /\ (((u ∉ used) /\ r = u)
      \/ ((u ∈ used)
          /\ exists n, (counter <= n)%N /\ r = numbered base ext n
               /\ forall m, (counter <= m < n)%N -> numbered base ext m ∈ used)).
Proof.
  induction fuel as [|fuel IH]; intros counter u r; simpl;
    destruct (bool_decide_reflect (u ∈ used)) as [Hu|Hu]; try discriminate.
  - intros [= <-]. auto.
  - intros H. apply IH in H as [Hr H]. split; [exact Hr|]. right.
    split; [exact Hu|].
    destruct H as [[Hfree ->] | (Hin & n & Hn & -> & Hm)].
    + exists counter. split; [lia|]. split; [reflexivity|]. intros m ?. lia.
    + exists n. split; [lia|]. split; [reflexivity|]. intros m Hmn.
      destruct (N.eq_dec m counter) as [->|Hne]; [exact Hin|].
      apply Hm. lia.
  - intros [= <-]. auto.
Qed.

(** *** One document, then all of them *)

Lemma resolve_name_spec (st : Packing) (doc : DocumentResult) :
  usedFilenames st = list_to_set (resolved_names st) ->
  exists u,
    resolve_name st doc = Some u
    /\ (u ∉ resolved_names st)
    /\ resolves (resolved_names st) (export_name doc) u.
Proof.
  intros Hused. unfold resolve_name, resolves.
  destruct (dot_split (export_name doc)) as [base ext]; simpl.
  destruct (unique_loop_total (usedFilenames st) base ext 1 (export_name doc))
    as [u Hu].
  exists u. split; [exact Hu|].
  apply unique_loop_Some in Hu as [Hfree Hu].
  rewrite Hused in Hfree, Hu. rewrite elem_of_list_to_set in Hfree.
  split; [exact Hfree|].
  destruct Hu as [[Hn ->] | (Hin & n & Hn & -> & Hm)].
  - left. rewrite elem_of_list_to_set in Hn. auto.
  - right. rewrite elem_of_list_to_set in Hin. split; [exact Hin|].
    exists n. repeat split; auto.
    intros m Hmn. specialize (Hm m Hmn).
    rewrite elem_of_list_to_set in Hm. exact Hm.
Qed.

Lemma pack_documents_spec (documents : list DocumentResult) :
  forall st,
    usedFilenames st = list_to_set (resolved_names st) ->
    NoDup (resolved_names st) ->
    exists st' new,
      pack_documents st documents = Some st'
      /\ usedFilenames st' = list_to_set (resolved_names st')
      /\ NoDup (resolved_names st')
      /\ resolved_names st' = resolved_names st ++ new
      /\ length new = length documents
      /\ forall i doc u,
           documents !! i = Some doc -> new !! i = Some u ->
           resolves (resolved_names st ++ take i new) (export_name doc) u.
Proof.
  induction documents as [|doc rest IH]; intros st Hused Hnd; simpl.
  - exists st, []. rewrite app_nil_r. repeat split; auto.
    intros i doc u H. destruct i; discriminate H.
  - unfold pack_document.
    destruct (resolve_name_spec st doc Hused) as (u & -> & Hfree & Hres).
    set (st1 := {| usedFilenames := {[u]} ∪ usedFilenames st;
                   filenameMap := <[doc_id doc:=u]> (filenameMap st);
                   docsFolder := docsFolder st ++ [(u, payload_of doc)] |}).
    assert (Hnames : resolved_names st1 = resolved_names st ++ [u]).
    { unfold resolved_names, st1; simpl. rewrite List.map_app. reflexivity. }
    destruct (IH st1) as (st' & new & Hrun & Hused' & Hnd' & Hnew & Hlen & Hall).
    + rewrite Hnames. simpl. rewrite Hused, list_to_set_app_L. simpl.
      rewrite (right_id_L ∅ (∪)). apply (comm_L (∪)).
    + rewrite Hnames. apply NoDup_app. repeat split; auto.
      * intros x Hx [->|[]]%list_elem_of_In. contradiction.
      * apply NoDup_singleton.
    + exists st', (u :: new). split; [exact Hrun|].
      split; [exact Hused'|]. split; [exact Hnd'|].
      split; [rewrite Hnew, Hnames, <- app_assoc; reflexivity|].
      split; [simpl; rewrite Hlen; reflexivity|].
      intros [|i] d v Hd Hv; simpl in *.
      * injection Hd as <-. injection Hv as <-. rewrite app_nil_r. exact Hres.
      * replace (resolved_names st ++ u :: take i new)
          with (resolved_names st1 ++ take i new)
          by (rewrite Hnames, <- app_assoc; reflexivity).
        eapply Hall; eauto.
Qed.

(** The filename loop of [exportToZip] always runs to its end. *)
Lemma pack_documents_total (documents : list DocumentResult) :
  is_Some (pack_documents empty_packing documents).
Proof.
  destruct (pack_documents_spec documents empty_packing) as (st & _ & -> & _);
    [reflexivity | constructor | eauto].
Qed.

(** C1. For every list of documents the filename resolution runs to its
    end, yields one name per document, and these names are pairwise
    distinct.  The name of a document is its candidate name if no earlier
    document took it, and otherwise the candidate with [_n] inserted before
    the extension, for the least [n >= 1] that gives a free name.  The
    candidate of a document with an annotated image is its original name
    with the extension replaced by [_annotated.jpg].  Three annotated
    documents named [a.pdf] resolve, in order, to [a_annotated.jpg],
    [a_annotated_1.jpg], [a_annotated_2.jpg]. *)
Theorem export_filenames_resolved :
  forall documents : list DocumentResult,
    (exists st,
       pack_documents empty_packing documents = Some st
       /\ length (resolved_names st) = length documents
       /\ NoDup (resolved_names st)
       /\ forall i doc u,
            documents !! i = Some doc -> resolved_names st !! i = Some u ->
            resolves (take i (resolved_names st)) (export_name doc) u)
    /\ (forall doc blob,
          annotatedBlob doc = Some blob ->
          export_name doc = (dot_split (fileName doc)).1 ++ lit "_annotated.jpg")
    /\ resolved_names <$>
         pack_documents empty_packing
           [annotated_a_pdf (lit "1"); annotated_a_pdf (lit "2");
            annotated_a_pdf (lit "3")]
       = Some [lit "a_annotated.jpg"; lit "a_annotated_1.jpg";
               lit "a_annotated_2.jpg"].
Proof.
  intros documents. split; [|split].
  - destruct (pack_documents_spec documents empty_packing)
      as (st & new & Hrun & _ & Hnd & Hnew & Hlen & Hall);
      [reflexivity | constructor |].
    simpl in Hnew. subst new.
    exists st. repeat split; auto.
  - intros doc blob Hblob. unfold export_name, annotated_name.
    rewrite Hblob. reflexivity.
  - vm_compute. reflexivity.
Qed.

(** *** The run as a whole *)

(** [exportToZip] always comes to an end. *)
Lemma exportToZip_total env fields documents reconcileResult :
  is_Some (exportToZip env fields documents reconcileResult).
Proof.
  unfold exportToZip.
  destruct (negb (XLSX_loaded env) || negb (JSZip_loaded env)); [eauto|].
  destruct (pack_documents_total documents) as [st ->].
  destruct (negb (write_ok env)); [eauto|].
  destruct (generateAsync_ok env); eauto.
Qed.

(** C7. If the spreadsheet library or the archive library is not loaded
    when [exportToZip] is called, the run logs the problem, shows a notice
    to the user and ends there: no archive object is created, nothing is
    offered for download, and the promise does not reject. *)
Theorem export_aborts_without_libraries :
  forall env fields documents reconcileResult,
    XLSX_loaded env = false \/ JSZip_loaded env = false ->
    exists run,
      exportToZip env fields documents reconcileResult = Some run
      /\ effects run
         = [console_error (lit "Required libraries (SheetJS or JSZip) not loaded");
            alert (lit "Export libraries are still loading. Please try again in a moment.")]
      /\ assembled run = None
      /\ rejects run = false
      /\ forall filename content, ~ In (download filename content) (effects run).
Proof.
  intros env fields documents reconcileResult Hlib.
  unfold exportToZip.
  assert (Hguard : negb (XLSX_loaded env) || negb (JSZip_loaded env) = true).
  { destruct Hlib as [-> | ->]; [reflexivity | apply orb_true_r]. }
  rewrite Hguard. eexists. split; [reflexivity|]. simpl.
  repeat split; try reflexivity.
  intros filename content [H | [H | []]]; discriminate H.
Qed.

Lemma export_aborts_witness :
  exists run,
    exportToZip
      {| XLSX_loaded := true; JSZip_loaded := false;
         write_ok := true; generateAsync_ok := true |}
      [] [annotated_a_pdf (lit "1")] None = Some run
    /\ assembled run = None.
Proof.
  destruct (export_aborts_without_libraries
              {| XLSX_loaded := true; JSZip_loaded := false;
                 write_ok := true; generateAsync_ok := true |}
              [] [annotated_a_pdf (lit "1")] None)
    as (run & Hrun & _ & Hnone & _).
  - right. reflexivity.
  - exists run. split; [exact Hrun | exact Hnone].
Defined.

End PackagerFacts.

(** ** The export packager: the audit sheet *)

Module SheetFacts.
Import Packager PackagerFacts.

(** *** Row objects *)

Lemma obj_get_set_eq k v o : obj_get k (obj_set k v o) = Some v.
Proof.
  induction o as [|[k' v'] o IH]; simpl.
  - rewrite bool_decide_eq_true_2 by reflexivity. reflexivity.
  - destruct (bool_decide_reflect (k' = k)) as [->|Hne]; simpl.
    + rewrite bool_decide_eq_true_2 by reflexivity. reflexivity.
    + rewrite bool_decide_eq_false_2 by exact Hne. exact IH.
Qed.

Lemma obj_get_set_ne k k' v o :
  k <> k' -> obj_get k' (obj_set k v o) = obj_get k' o.
Proof.
  intros Hne. induction o as [|[k0 v0] o IH]; simpl.
  - rewrite bool_decide_eq_false_2 by exact Hne. reflexivity.
  - destruct (bool_decide_reflect (k0 = k)) as [->|Hne0]; simpl.
    + rewrite !bool_decide_eq_false_2 by exact Hne. reflexivity.
    + destruct (bool_decide (k0 = k')); [reflexivity | exact IH].
Qed.

Lemma obj_set_keys k v o k' :
  In k' (List.map fst (obj_set k v o)) <-> k' = k \/ In k' (List.map fst o).
Proof.
  induction o as [|[k0 v0] o IH]; simpl.
  - intuition.
  - destruct (bool_decide_reflect (k0 = k)) as [->|Hne]; simpl.
    + intuition.
    + rewrite IH. intuition.
Qed.

Lemma obj_set_NoDup k v o :
  NoDup (List.map fst o) -> NoDup (List.map fst (obj_set k v o)).
Proof.
  induction o as [|[k0 v0] o IH]; simpl; intros Hnd.
  - constructor; [apply not_elem_of_nil | constructor].
  - apply NoDup_cons in Hnd as [Hk0 Hnd].
    destruct (bool_decide_reflect (k0 = k)) as [->|Hne]; simpl.
    + apply NoDup_cons. auto.
    + apply NoDup_cons. split; [|auto].
      rewrite list_elem_of_In, obj_set_keys. rewrite list_elem_of_In in Hk0.
      intros [-> | H]; [congruence | contradiction].
Qed.

(** A property that is there is listed with its value. *)
Lemma obj_get_In k v o :
  NoDup (List.map fst o) -> (In (k, v) o <-> obj_get k o = Some v).
Proof.
  induction o as [|[k0 v0] o IH]; simpl; intros Hnd.
  - split; [intros [] | discriminate].
  - apply NoDup_cons in Hnd as [Hk0 Hnd]. rewrite list_elem_of_In in Hk0.
    destruct (bool_decide_reflect (k0 = k)) as [->|Hne].
    + split.
      * intros [[= ->] | H]; [reflexivity|].
        destruct Hk0. apply in_map_iff. exists (k, v). auto.
      * intros [= ->]. auto.
    + rewrite <- (IH Hnd). split; [|auto].
      intros [[= -> ->] | H]; [congruence | exact H].
Qed.

Lemma assign_get_eq k v o :
  k <> lit "__proto__" -> obj_get k (assign k v o) = Some v.
Proof.
  intros Hk. unfold assign. rewrite bool_decide_eq_false_2 by exact Hk.
  apply obj_get_set_eq.
Qed.

Lemma assign_get_ne k k' v o :
  k <> k' -> obj_get k' (assign k v o) = obj_get k' o.
Proof.
  intros Hne. unfold assign. destruct (bool_decide _); [reflexivity|].
  apply obj_get_set_ne, Hne.
Qed.

Lemma assign_keys k v o k' :
  In k' (List.map fst (assign k v o)) -> k' = k \/ In k' (List.map fst o).
Proof.
  unfold assign. destruct (bool_decide _); [auto|]. apply obj_set_keys.
Qed.

Lemma assign_NoDup k v o :
  NoDup (List.map fst o) -> NoDup (List.map fst (assign k v o)).
Proof.
  unfold assign. destruct (bool_decide _); [auto|]. apply obj_set_NoDup.
Qed.


(** *** The row of a document *)

Lemma fill_fields_other doc fields : forall row k,
  ~ In k (List.map name fields) -> ~ In k (List.map coords_header fields) ->
  obj_get k (fold_left (fill_field doc) fields row) = obj_get k row.
Proof.
  induction fields as [|f rest IH]; intros row k Hn Hc; simpl; [reflexivity|].
  simpl in Hn, Hc. rewrite IH by tauto. unfold fill_field.
  rewrite !assign_get_ne by (intros <-; tauto). reflexivity.
Qed.



Lemma fill_fields_keys doc fields : forall row k,
  In k (List.map fst (fold_left (fill_field doc) fields row)) ->
  In k (List.map fst row) \/ In k (List.map name fields)
  \/ In k (List.map coords_header fields).
Proof.
  induction fields as [|f rest IH]; intros row k; simpl; [auto|].
  intros H. apply IH in H as [H | [H | H]]; [|auto|auto].
  unfold fill_field in H.
  apply assign_keys in H as [-> | H]; [auto|].
  apply assign_keys in H as [-> | H]; auto.
Qed.

Lemma fill_fields_NoDup doc fields : forall row,
  NoDup (List.map fst row) ->
  NoDup (List.map fst (fold_left (fill_field doc) fields row)).
Proof.
  induction fields as [|f rest IH]; intros row H; simpl; [exact H|].
  apply IH. unfold fill_field. apply assign_NoDup, assign_NoDup, H.
Qed.

Lemma row_of_start fields doc :
  row_of fields doc
  = fold_left (fill_field doc) fields
      [(lit "File Name", fileName doc); (lit "Status", status doc)].
Proof. reflexivity. Qed.


Lemma row_of_NoDup fields doc : NoDup (List.map fst (row_of fields doc)).
Proof.
  rewrite row_of_start. apply fill_fields_NoDup. simpl.
  apply NoDup_cons. split.
  - intros [=]%list_elem_of_singleton.
  - apply NoDup_singleton.
Qed.

Lemma row_of_keys fields doc k :
  In k (List.map fst (row_of fields doc)) -> In k (headers fields).
Proof.
  rewrite row_of_start. intros H. apply fill_fields_keys in H. unfold headers.
  simpl in *. rewrite in_app_iff. tauto.
Qed.



(** *** Columns *)

Lemma indexOf_lookup k hdr : forall C,
  indexOf k hdr = Some C -> hdr !! C = Some k.
Proof.
  induction hdr as [|h hdr IH]; intros C; simpl; [discriminate|].
  destruct (bool_decide_reflect (h = k)) as [->|Hne].
  - intros [= <-]. reflexivity.
  - destruct (indexOf k hdr) as [C'|]; [|discriminate].
    intros [= <-]. simpl. apply IH. reflexivity.
Qed.

Lemma indexOf_In k hdr : In k hdr -> is_Some (indexOf k hdr).
Proof.
  induction hdr as [|h hdr IH]; simpl; [intros []|].
  destruct (bool_decide_reflect (h = k)) as [->|Hne]; [eauto|].
  intros [-> | H]; [congruence|]. destruct (IH H) as [C ->]. simpl. eauto.
Qed.


Lemma indexOf_inj k k' hdr C :
  indexOf k hdr = Some C -> indexOf k' hdr = Some C -> k = k'.
Proof.
  intros H H'. apply indexOf_lookup in H, H'. congruence.
Qed.

(** *** Writing cells *)

Lemma write_cell_ne (v : jsstring) (ref ref' : nat * nat)
    (ws : gmap (nat * nat) Cell) :
  ref <> ref' -> write_cell v ref ws !! ref' = ws !! ref'.
Proof.
  intros Hne. unfold write_cell.
  destruct (ws !! ref); apply lookup_insert_ne, Hne.
Qed.

Lemma write_cell_fresh (v : jsstring) (ref : nat * nat)
    (ws : gmap (nat * nat) Cell) :
  ws !! ref = None ->
  write_cell v ref ws !! ref = Some {| cell_v := v; cell_l := None |}.
Proof.
  intros Hnone. unfold write_cell. rewrite Hnone. apply lookup_insert_eq.
Qed.

(** The properties of one row object go to the columns of their keys in
    sheet row [R]; nothing else changes. *)
Lemma add_row_spec hdr R (row : JsObject) : forall ws : gmap (nat * nat) Cell,
  (forall k, In k (List.map fst row) -> In k hdr) ->
  NoDup (List.map fst row) ->
  exists ws',
    fold_left (add_property R) row (hdr, ws) = (hdr, ws')
    /\ (forall r c, r <> R -> ws' !! (r, c) = ws !! (r, c))
    /\ (forall c, (forall k, In k (List.map fst row) -> indexOf k hdr <> Some c) ->
          ws' !! (R, c) = ws !! (R, c))
    /\ (forall k v C, In (k, v) row -> indexOf k hdr = Some C ->
          ws !! (R, C) = None ->
          ws' !! (R, C) = Some {| cell_v := v; cell_l := None |}).
Proof.
  induction row as [|[k0 v0] rest IH]; intros ws Hkeys Hnd; simpl.
  - exists ws. repeat split; auto. intros k v C [].
  - simpl in Hkeys, Hnd. apply NoDup_cons in Hnd as [Hk0 Hnd].
    rewrite list_elem_of_In in Hk0.
    destruct (indexOf_In k0 hdr) as [C0 HC0]; [auto|]. rewrite HC0.
    destruct (IH (write_cell v0 (R, C0) ws)) as (ws' & Hrun & Hrows & Hcols & Hvals);
      [auto | exact Hnd |].
    assert (Hfree : forall k, In k (List.map fst rest) -> indexOf k hdr <> Some C0).
    { intros k Hk HC. assert (k = k0) by (eapply indexOf_inj; eauto). congruence. }
    exists ws'. split; [exact Hrun|]. split; [|split].
    + intros r c Hr. rewrite Hrows by exact Hr.
      apply write_cell_ne. congruence.
    + intros c Hc. rewrite Hcols by auto.
      apply write_cell_ne. intros [= <-]. apply (Hc k0); auto.
    + intros k v C [[= -> ->] | Hin] HC Hnone.
      * assert (C = C0) by congruence. subst C.
        rewrite Hcols by exact Hfree. apply write_cell_fresh, Hnone.
      * apply (Hvals k v C); [exact Hin | exact HC |].
        rewrite write_cell_ne; [exact Hnone|].
        intros [= <-]. apply (Hfree k); [|exact HC].
        apply in_map_iff. exists (k, v). auto.
Qed.

Lemma add_rows_spec hdr (js : list JsObject) : forall R (ws : gmap (nat * nat) Cell),
  (forall row, In row js ->
     (forall k, In k (List.map fst row) -> In k hdr) /\ NoDup (List.map fst row)) ->
  exists ws',
    add_rows js R (hdr, ws) = (hdr, ws')
    /\ (forall r c, r < R \/ R + length js <= r -> ws' !! (r, c) = ws !! (r, c))
    /\ (forall i row k v C,
          js !! i = Some row -> In (k, v) row -> indexOf k hdr = Some C ->
          ws !! (R + i, C) = None ->
          ws' !! (R + i, C) = Some {| cell_v := v; cell_l := None |}).
Proof.
  induction js as [|JS js IH]; intros R ws Hjs; simpl.
  - exists ws. repeat split; auto. intros i row k v C H. discriminate H.
  - destruct (Hjs JS) as [Hkeys Hnd]; [left; reflexivity|].
    destruct (add_row_spec hdr R JS ws Hkeys Hnd)
      as (ws1 & -> & Hrows1 & _ & Hvals1).
    destruct (IH (S R) ws1) as (ws' & Hrun & Hframe & Hvals).
    { intros row Hrow. apply Hjs. right. exact Hrow. }
    exists ws'. split; [exact Hrun|]. split.
    + intros r c Hr. rewrite Hframe by lia. apply Hrows1. lia.
    + intros [|i] row k v C Hi Hin HC Hnone; simpl in Hi.
      * injection Hi as <-. rewrite Nat.add_0_r in *.
        rewrite Hframe by lia. apply (Hvals1 k v C); assumption.
      * replace (R + S i) with (S R + i) in * by lia.
        apply (Hvals i row k v C); try assumption.
        rewrite Hrows1 by lia. exact Hnone.
Qed.

Lemma write_header_frame hdr : forall C (ws : gmap (nat * nat) Cell) r c,
  r <> 0 -> write_header hdr C ws !! (r, c) = ws !! (r, c).
Proof.
  induction hdr as [|h hdr IH]; intros C ws r c Hr; simpl; [reflexivity|].
  rewrite IH by exact Hr. apply lookup_insert_ne. congruence.
Qed.

(** The sheet that [json_to_sheet] makes of rows whose keys are all in the
    header. *)
Lemma json_to_sheet_spec (js : list JsObject) (header : list jsstring) :
  (forall row, In row js ->
     (forall k, In k (List.map fst row) -> In k header)
     /\ NoDup (List.map fst row)) ->
  last_row (json_to_sheet js header) = length js
  /\ (forall r c, length js < r -> cells (json_to_sheet js header) !! (r, c) = None)
  /\ (forall i row k v C,
        js !! i = Some row -> In (k, v) row -> indexOf k header = Some C ->
        cells (json_to_sheet js header) !! (S i, C)
        = Some {| cell_v := v; cell_l := None |}).
Proof.
  intros Hjs. unfold json_to_sheet.
  destruct (add_rows_spec header js 1 ∅ Hjs) as (ws & -> & Hframe & Hvals).
  simpl. split; [reflexivity|]. split.
  - intros r c Hr. rewrite write_header_frame by lia.
    rewrite Hframe by lia. apply lookup_empty.
  - intros i row k v C Hi Hin HC.
    rewrite write_header_frame by lia.
    apply (Hvals i row k v C Hi Hin HC). apply lookup_empty.
Qed.

(** *** Hyperlinks *)

Lemma add_hyperlink_frame (documents : list DocumentResult) (fmap : gmap jsstring jsstring)
    (ws : gmap (nat * nat) Cell) (R : nat) (ref : nat * nat) :
  ref <> (R, 0) -> add_hyperlink documents fmap ws R !! ref = ws !! ref.
Proof.
  intros Hne. unfold add_hyperlink.
  destruct (documents !! (R - 1)) as [doc|]; [|reflexivity].
  destruct (fmap !! doc_id doc) as [[|c u]|]; try reflexivity.
  apply lookup_insert_ne. congruence.
Qed.

(** What the step for row [R] leaves in the first cell of that row depends
    on that cell only. *)
Lemma add_hyperlink_own (documents : list DocumentResult) (fmap : gmap jsstring jsstring)
    (ws ws1 : gmap (nat * nat) Cell) (R : nat) :
  ws1 !! (R, 0) = ws !! (R, 0) ->
  add_hyperlink documents fmap ws1 R !! (R, 0)
  = add_hyperlink documents fmap ws R !! (R, 0).
Proof.
  intros Hsame. unfold add_hyperlink.
  destruct (documents !! (R - 1)) as [doc|]; [|exact Hsame].
  destruct (fmap !! doc_id doc) as [[|c u]|]; try exact Hsame.
  rewrite !lookup_insert_eq, Hsame. reflexivity.
Qed.

Lemma add_hyperlinks_fold (documents : list DocumentResult)
    (fmap : gmap jsstring jsstring) (Rs : list nat) :
  forall ws : gmap (nat * nat) Cell,
    NoDup Rs ->
    (forall r c, c <> 0 \/ ~ In r Rs ->
       fold_left (add_hyperlink documents fmap) Rs ws !! (r, c) = ws !! (r, c))
    /\ (forall R, In R Rs ->
          fold_left (add_hyperlink documents fmap) Rs ws !! (R, 0)
          = add_hyperlink documents fmap ws R !! (R, 0)).
Proof.
  induction Rs as [|R0 Rs IH]; intros ws Hnd; simpl.
  - split; [reflexivity | intros R []].
  - apply NoDup_cons in Hnd as [HR0 Hnd]. rewrite list_elem_of_In in HR0.
    destruct (IH (add_hyperlink documents fmap ws R0) Hnd) as [Hframe Hown].
    split.
    + intros r c Hrc. rewrite Hframe by tauto.
      apply add_hyperlink_frame. intros [= -> ->]. tauto.
    + intros R [<- | HR].
      * apply Hframe. auto.
      * rewrite (Hown R HR). apply add_hyperlink_own.
        apply add_hyperlink_frame. intros [= ->]. contradiction.
Qed.

Lemma cells_add_hyperlinks (documents : list DocumentResult)
    (fmap : gmap jsstring jsstring) (worksheet : Worksheet) :
  cells (add_hyperlinks documents fmap worksheet)
  = fold_left (add_hyperlink documents fmap) (seq 1 (last_row worksheet))
      (cells worksheet).
Proof. reflexivity. Qed.

(** The link that the loop puts on the first cell of a document's row. *)
Lemma add_hyperlinks_cell (documents : list DocumentResult)
    (fmap : gmap jsstring jsstring) (worksheet : Worksheet)
    (i : nat) (doc : DocumentResult) (c : N) (u v : jsstring) :
  documents !! i = Some doc ->
  fmap !! doc_id doc = Some (c :: u) ->
  i < last_row worksheet ->
  cells worksheet !! (S i, 0) = Some {| cell_v := v; cell_l := None |} ->
  cells (add_hyperlinks documents fmap worksheet) !! (S i, 0)
  = Some {| cell_v := v;
            cell_l := Some (folderName ++ lit "/" ++ c :: u) |}.
Proof.
  intros Hdoc Hmap Hi Hcell. rewrite cells_add_hyperlinks.
  destruct (add_hyperlinks_fold documents fmap (seq 1 (last_row worksheet))
              (cells worksheet) (NoDup_seq _ _)) as [_ Hown].
  rewrite Hown by (apply in_seq; lia).
  unfold add_hyperlink. replace (S i - 1) with i by lia.
  rewrite Hdoc, Hmap, Hcell. apply lookup_insert_eq.
Qed.

Lemma add_hyperlinks_other (documents : list DocumentResult)
    (fmap : gmap jsstring jsstring) (worksheet : Worksheet) (r c : nat) :
  c <> 0 \/ last_row worksheet < r ->
  cells (add_hyperlinks documents fmap worksheet) !! (r, c)
  = cells worksheet !! (r, c).
Proof.
  intros Hrc. rewrite cells_add_hyperlinks.
  destruct (add_hyperlinks_fold documents fmap (seq 1 (last_row worksheet))
              (cells worksheet) (NoDup_seq _ _)) as [Hframe _].
  apply Hframe. destruct Hrc as [Hc | Hr]; [auto|].
  right. rewrite in_seq. lia.
Qed.

(** *** The map from document ids to resolved names *)

Lemma pack_documents_map_other (documents : list DocumentResult) :
  forall st st' id,
  pack_documents st documents = Some st' ->
  ~ In id (List.map doc_id documents) ->
  filenameMap st' !! id = filenameMap st !! id.
Proof.
  induction documents as [|doc rest IH]; intros st st' id; simpl.
  - intros [= <-] _. reflexivity.
  - unfold pack_document.
    destruct (resolve_name st doc) as [u|]; [|discriminate].
    intros Hrun Hid. rewrite (IH _ _ _ Hrun) by tauto. simpl.
    apply lookup_insert_ne. tauto.
Qed.

Lemma pack_documents_names (documents : list DocumentResult) :
  forall st st',
  pack_documents st documents = Some st' ->
  exists new, resolved_names st' = resolved_names st ++ new.
Proof.
  induction documents as [|doc rest IH]; intros st st'; simpl.
  - intros [= <-]. exists []. symmetry. apply app_nil_r.
  - unfold pack_document.
    destruct (resolve_name st doc) as [u|]; [|discriminate].
    intros Hrun. apply IH in Hrun as [new Hnew]. exists (u :: new).
    rewrite Hnew. unfold resolved_names. simpl.
    rewrite List.map_app, <- app_assoc. reflexivity.
Qed.

Lemma numbered_not_nil base ext n : numbered base ext n <> [].
Proof.
  unfold numbered. intros H. apply app_eq_nil in H as [_ H]. discriminate H.
Qed.

Lemma export_name_not_nil doc : fileName doc <> [] -> export_name doc <> [].
Proof.
  unfold export_name, annotated_name. intros Hname.
  destruct (annotatedBlob doc); [|exact Hname].
  intros H. apply app_eq_nil in H as [_ H]. discriminate H.
Qed.

Lemma resolve_name_not_nil st doc u :
  fileName doc <> [] -> resolve_name st doc = Some u -> u <> [].
Proof.
  intros Hname. unfold resolve_name.
  destruct (dot_split (export_name doc)) as [base ext].
  intros H. apply unique_loop_Some in H as [_ [[_ ->] | (_ & n & _ & -> & _)]].
  - apply export_name_not_nil, Hname.
  - apply numbered_not_nil.
Qed.

(** With distinct ids the map holds, for every document, the name that was
    resolved for it. *)
Lemma pack_documents_map (documents : list DocumentResult) :
  forall st st' i doc,
  pack_documents st documents = Some st' ->
  NoDup (List.map doc_id documents) ->
  Forall (fun d => fileName d <> []) documents ->
  documents !! i = Some doc ->
  exists u : jsstring,
    u <> []
    /\ filenameMap st' !! doc_id doc = Some u
    /\ resolved_names st' !! (length (resolved_names st) + i) = Some u.
Proof.
  induction documents as [|doc0 rest IH]; intros st st' i doc Hrun Hnd Hne Hi;
    [discriminate Hi|].
  simpl in Hrun, Hnd. unfold pack_document in Hrun.
  destruct (resolve_name st doc0) as [u0|] eqn:Hu0; [|discriminate].
  apply NoDup_cons in Hnd as [Hid Hnd]. rewrite list_elem_of_In in Hid.
  apply Forall_cons in Hne as [Hne0 Hne].
  set (st1 := {| usedFilenames := {[u0]} ∪ usedFilenames st;
                 filenameMap := <[doc_id doc0:=u0]> (filenameMap st);
                 docsFolder := docsFolder st ++ [(u0, payload_of doc0)] |}) in *.
  assert (Hnames : resolved_names st1 = resolved_names st ++ [u0]).
  { unfold resolved_names, st1; simpl. rewrite List.map_app. reflexivity. }
  destruct i as [|i]; simpl in Hi.
  - injection Hi as <-. exists u0.
    split; [eapply resolve_name_not_nil; eauto|]. split.
    + rewrite (pack_documents_map_other _ _ _ _ Hrun Hid). apply lookup_insert_eq.
    + destruct (pack_documents_names _ _ _ Hrun) as [new ->].
      rewrite Hnames, Nat.add_0_r, <- app_assoc.
      rewrite lookup_app_r by lia. rewrite Nat.sub_diag. reflexivity.
  - destruct (IH st1 st' i doc Hrun Hnd Hne Hi) as (u & Hu & Hmap & Hname).
    exists u. split; [exact Hu|]. split; [exact Hmap|].
    rewrite Hnames, length_app in Hname. simpl in Hname.
    replace (length (resolved_names st) + S i)
      with (length (resolved_names st) + 1 + i) by lia.
    exact Hname.
Qed.

(** *** The statement of the design document *)

Lemma lookup_map {A B} (f : A -> B) (l : list A) (i : nat) :
  List.map f l !! i = f <$> l !! i.
Proof.
  revert i. induction l as [|a l IH]; intros [|i]; simpl; auto.
Qed.



Lemma dataRows_ok fields documents row :
  In row (dataRows fields documents) ->
  (forall k, In k (List.map fst row) -> In k (headers fields))
  /\ NoDup (List.map fst row).
Proof.
  unfold dataRows. intros (doc & <- & _)%in_map_iff. split.
  - intros k. apply row_of_keys.
  - apply row_of_NoDup.
Qed.

(** The sheet described above is the first sheet of the workbook that a
    successful run puts into the archive, next to the documents under their
    resolved names. *)
Lemma exportToZip_download (env : Env) (fields : list FieldDefinition)
    (documents : list DocumentResult) (reconcileResult : option ReconcileResult) :
  XLSX_loaded env = true -> JSZip_loaded env = true ->
  write_ok env = true -> generateAsync_ok env = true ->
  exists st zip,
    pack_documents empty_packing documents = Some st
    /\ zip = {| zip_folder := folderName;
                zip_documents := docsFolder st;
                zip_root :=
                  [(lit "Audit_Report.xlsx",
                    (lit "Source Data (Tick)",
                     JsonSheet (audit_sheet fields documents (filenameMap st)))
                      :: reconcile_sheets reconcileResult)] |}
    /\ exportToZip env fields documents reconcileResult
       = Some {| effects := [download (lit "TickAndTie_Audit_Annotated.zip") zip];
                 assembled := Some zip;
                 rejects := false |}.
Proof.
  intros Hx Hz Hw Hg. destruct (pack_documents_total documents) as [st Hst].
  eexists st, _. split; [exact Hst|]. split; [reflexivity|].
  unfold exportToZip. rewrite Hx, Hz, Hst, Hw, Hg. reflexivity.
Qed.

End SheetFacts.

(** ** Rounding *)

Module Binary64Facts.
Import Binary64.

Lemma pow2_pos (e : Z) : (0 < pow2 e)%Q.
Proof. apply Qpower_0_lt. reflexivity. Qed.

Lemma pow2_add (a b : Z) : (pow2 (a + b) == pow2 a * pow2 b)%Q.
Proof. apply Qpower_plus. discriminate. Qed.

Lemma pow2_le (a b : Z) : (a <= b)%Z -> (pow2 a <= pow2 b)%Q.
Proof. intros H. apply Qpower_le_compat_l; [exact H | discriminate]. Qed.

Lemma pow2_lt (a b : Z) : (a < b)%Z -> (pow2 a < pow2 b)%Q.
Proof. intros H. apply Qpower_lt_compat_l; [exact H | reflexivity]. Qed.

Lemma pow2_lt_inv (a b : Z) : (pow2 a < pow2 b)%Q -> (a < b)%Z.
Proof. intros H. apply (Qpower_lt_compat_l_inv 2); [exact H | reflexivity]. Qed.

Lemma pow2_Z (e : Z) : (0 <= e)%Z -> (pow2 e == inject_Z (2 ^ e))%Q.
Proof. intros H. unfold pow2. rewrite Zpower_Qpower by exact H. reflexivity. Qed.

Lemma pow2_opp (e : Z) : (pow2 e * pow2 (- e) == 1)%Q.
Proof. rewrite <- pow2_add, Z.add_opp_diag_r. reflexivity. Qed.

Lemma div_pow2 (q : Q) (e : Z) : (q / pow2 e == q * pow2 (- e))%Q.
Proof.
  unfold Qdiv. apply Qmult_comp; [reflexivity|].
  unfold pow2. rewrite Qpower_opp. reflexivity.
Qed.

(** *** Rounding to the nearest integer *)

Lemma round_half_even_cases (t : Q) :
  (round_half_even t = Qfloor t /\ (t - inject_Z (Qfloor t) <= 1 # 2)%Q)
  \/ (round_half_even t = (Qfloor t + 1)%Z
      /\ (1 # 2 <= t - inject_Z (Qfloor t))%Q).
Proof.
  unfold round_half_even.
  destruct (Qcompare_spec (t - inject_Z (Qfloor t)) (1 # 2)) as [E | E | E].
  - destruct (Z.even (Qfloor t)); [left | right]; split; try reflexivity;
      rewrite E; apply Qle_refl.
  - left. split; [reflexivity | apply Qlt_le_weak, E].
  - right. split; [reflexivity | apply Qlt_le_weak, E].
Qed.

Lemma round_half_even_error (t : Q) :
  (t - (1 # 2) <= inject_Z (round_half_even t) <= t + (1 # 2))%Q.
Proof.
  pose proof (Qfloor_le t) as Hlo. pose proof (Qlt_floor t) as Hhi.
  rewrite inject_Z_plus in Hhi. change (inject_Z 1) with 1%Q in Hhi.
  destruct (round_half_even_cases t) as [[-> H] | [-> H]].
  - split; lra.
  - rewrite inject_Z_plus. change (inject_Z 1) with 1%Q. split; lra.
Qed.

Lemma round_half_even_ge (t : Q) (k : Z) :
  (inject_Z k <= t)%Q -> (k <= round_half_even t)%Z.
Proof.
  intros H. assert (Hk : (k <= Qfloor t)%Z).
  { rewrite <- (Qfloor_Z k). apply Qfloor_resp_le, H. }
  destruct (round_half_even_cases t) as [[-> _] | [-> _]]; lia.
Qed.

Lemma round_half_even_le (t : Q) (k : Z) :
  (t <= inject_Z k)%Q -> (round_half_even t <= k)%Z.
Proof.
  intros H.
  destruct (round_half_even_cases t) as [[-> _] | [-> Hhalf]].
  - rewrite <- (Qfloor_Z k). apply Qfloor_resp_le, H.
  - assert (Hlt : (inject_Z (Qfloor t) < inject_Z k)%Q) by lra.
    rewrite <- Zlt_Qlt in Hlt. lia.
Qed.

(** *** The exponent *)

Lemma ilog2_bounds (q : Q) :
  (0 < q)%Q -> (pow2 (ilog2 q) <= q /\ q < pow2 (ilog2 q + 2))%Q.
Proof.
  destruct q as [n d]. intros Hq0.
  assert (Hn : (0 < n)%Z) by (unfold Qlt in Hq0; simpl in Hq0; lia).
  unfold ilog2. cbn [Qnum Qden].
  pose proof (Z.log2_spec n Hn) as [Hn1 Hn2].
  pose proof (Z.log2_spec (Zpos d) eq_refl) as [Hd1 Hd2].
  rewrite <- Z.add_1_r in Hn2, Hd2.
  pose proof (Z.log2_nonneg n) as Ha. pose proof (Z.log2_nonneg (Zpos d)) as Hb.
  set (a := Z.log2 n) in *. set (b := Z.log2 (Zpos d)) in *.
  assert (Hq : (n # d == inject_Z n / inject_Z (Zpos d))%Q)
    by (unfold Qeq; simpl; lia).
  assert (Hdpos : (0 < inject_Z (Zpos d))%Q) by reflexivity.
  assert (Hp1 : (pow2 (a - b - 1) == inject_Z (2 ^ a) / inject_Z (2 ^ (b + 1)))%Q).
  { replace (a - b - 1)%Z with (a + - (b + 1))%Z by lia.
    rewrite pow2_add, <- div_pow2, !pow2_Z by lia. reflexivity. }
  assert (Hp2 : (pow2 (a - b - 1 + 2) == inject_Z (2 ^ (a + 1)) / inject_Z (2 ^ b))%Q).
  { replace (a - b - 1 + 2)%Z with (a + 1 + - b)%Z by lia.
    rewrite pow2_add, <- div_pow2, !pow2_Z by lia. reflexivity. }
  assert (H2b : (0 < inject_Z (2 ^ (b + 1)))%Q).
  { rewrite <- pow2_Z by lia. apply pow2_pos. }
  assert (H2b' : (0 < inject_Z (2 ^ b))%Q).
  { rewrite <- pow2_Z by lia. apply pow2_pos. }
  rewrite Hp1, Hp2, Hq. split.
  - apply Qle_shift_div_r; [exact H2b|].
    assert (E : (inject_Z n / inject_Z (Z.pos d) * inject_Z (2 ^ (b + 1))
                 == inject_Z n * inject_Z (2 ^ (b + 1)) / inject_Z (Z.pos d))%Q)
      by (field; discriminate).
    rewrite E. apply Qle_shift_div_l; [exact Hdpos|].
    rewrite <- !inject_Z_mult, <- Zle_Qle.
    apply Z.mul_le_mono_nonneg; lia.
  - apply Qlt_shift_div_l; [exact H2b'|].
    assert (E : (inject_Z n / inject_Z (Z.pos d) * inject_Z (2 ^ b)
                 == inject_Z n * inject_Z (2 ^ b) / inject_Z (Z.pos d))%Q)
      by (field; discriminate).
    rewrite E. apply Qlt_shift_div_r; [exact Hdpos|].
    rewrite <- !inject_Z_mult, <- Zlt_Qlt.
    assert (H2 : (0 < 2 ^ b)%Z) by lia.
    apply Z.lt_le_trans with (2 ^ (a + 1) * 2 ^ b)%Z.
    + apply Z.mul_lt_mono_pos_r; [exact H2 | exact Hn2].
    + apply Z.mul_le_mono_nonneg_l; lia.
Qed.

Lemma normal_exponent_bounds (q : Q) :
  (0 < q)%Q ->
  (pow2 (normal_exponent q + 52) <= q /\ q < pow2 (normal_exponent q + 53))%Q.
Proof.
  intros Hq. destruct (ilog2_bounds q Hq) as [Hlo Hhi].
  unfold normal_exponent.
  replace (ilog2 q) with (ilog2 q - 52 + 52)%Z in Hlo by lia.
  replace (ilog2 q + 2)%Z with (ilog2 q - 52 + 54)%Z in Hhi by lia.
  set (e0 := (ilog2 q - 52)%Z) in *.
  destruct (Qle_bool (pow2 (e0 + 53)) q) eqn:E.
  - apply Qle_bool_iff in E.
    replace (e0 + 1 + 52)%Z with (e0 + 53)%Z by lia.
    replace (e0 + 1 + 53)%Z with (e0 + 54)%Z by lia. auto.
  - split; [exact Hlo|]. apply Qnot_le_lt. intros H.
    apply Qle_bool_iff in H. congruence.
Qed.

Lemma exponent_normal (q : Q) :
  (pow2 (-1022) <= q)%Q -> exponent q = normal_exponent q.
Proof.
  intros Hq.
  assert (Hpos : (0 < q)%Q) by (eapply Qlt_le_trans; [apply pow2_pos | exact Hq]).
  destruct (normal_exponent_bounds q Hpos) as [_ Hhi].
  assert (H : (-1022 < normal_exponent q + 53)%Z).
  { apply pow2_lt_inv. eapply Qle_lt_trans; eauto. }
  unfold exponent. lia.
Qed.

Lemma scaled_back (q : Q) (e : Z) : (q / pow2 e * pow2 e == q)%Q.
Proof. field. apply Qnot_eq_sym, Qlt_not_eq, pow2_pos. Qed.

(** *** Rounding a positive number *)

Lemma round_pos_error (q : Q) :
  (q - pow2 (exponent q) * (1 # 2) <= round_pos q
   /\ round_pos q <= q + pow2 (exponent q) * (1 # 2))%Q.
Proof.
  unfold round_pos. set (e := exponent q).
  pose proof (round_half_even_error (q / pow2 e)) as [Hlo Hhi].
  pose proof (pow2_pos e) as He.
  apply (Qmult_le_compat_r _ _ (pow2 e)) in Hlo; [|apply Qlt_le_weak, He].
  apply (Qmult_le_compat_r _ _ (pow2 e)) in Hhi; [|apply Qlt_le_weak, He].
  assert (E1 : ((q / pow2 e - (1 # 2)) * pow2 e == q - pow2 e * (1 # 2))%Q).
  { rewrite <- (scaled_back q e) at 2. ring. }
  assert (E2 : ((q / pow2 e + (1 # 2)) * pow2 e == q + pow2 e * (1 # 2))%Q).
  { rewrite <- (scaled_back q e) at 2. ring. }
  rewrite E1 in Hlo. rewrite E2 in Hhi. auto.
Qed.

Lemma round_pos_nonneg (q : Q) : (0 <= q)%Q -> (0 <= round_pos q)%Q.
Proof.
  intros Hq. unfold round_pos. apply Qmult_le_0_compat.
  - change 0%Q with (inject_Z 0). rewrite <- Zle_Qle.
    apply round_half_even_ge. change (inject_Z 0) with 0%Q.
    apply Qle_shift_div_l; [apply pow2_pos|]. rewrite Qmult_0_l. exact Hq.
  - apply Qlt_le_weak, pow2_pos.
Qed.

(** Within the normal range the relative error is at most [2^-53]. *)
Lemma round_pos_relative (q : Q) :
  (pow2 (-1022) <= q)%Q ->
  (q * (1 - pow2 (-53)) <= round_pos q /\ round_pos q <= q * (1 + pow2 (-53)))%Q.
Proof.
  intros Hq.
  assert (Hpos : (0 < q)%Q) by (eapply Qlt_le_trans; [apply pow2_pos | exact Hq]).
  destruct (round_pos_error q) as [Hlo Hhi].
  rewrite (exponent_normal q Hq) in Hlo, Hhi.
  destruct (normal_exponent_bounds q Hpos) as [Hn _].
  set (e := normal_exponent q) in *.
  assert (He : (pow2 e * (1 # 2) <= q * pow2 (-53))%Q).
  { assert (E : (pow2 e * (1 # 2) == pow2 (e + 52) * pow2 (-53))%Q).
    { replace e with ((e + 52) + -52)%Z at 1 by lia. rewrite pow2_add.
      rewrite <- Qmult_assoc. apply Qmult_comp; reflexivity. }
    rewrite E. apply Qmult_le_compat_r; [exact Hn|].
    apply Qlt_le_weak, pow2_pos. }
  split; lra.
Qed.

(** A whole number up to [2^53] is never crossed. *)
Lemma round_pos_ge_int (q : Q) (n : Z) :
  (0 <= n <= 2 ^ 53)%Z -> (0 < q)%Q ->
  (inject_Z n <= q)%Q -> (inject_Z n <= round_pos q)%Q.
Proof.
  intros Hn Hq Hnq. unfold round_pos.
  destruct (Z_le_gt_dec (exponent q) 0) as [He | He].
  - set (e := exponent q) in *.
    assert (Hk : (inject_Z (n * 2 ^ (- e)) <= q / pow2 e)%Q).
    { rewrite inject_Z_mult, <- pow2_Z, div_pow2 by lia.
      apply Qmult_le_compat_r; [exact Hnq | apply Qlt_le_weak, pow2_pos]. }
    apply round_half_even_ge in Hk. rewrite Zle_Qle in Hk.
    apply (Qmult_le_compat_r _ _ (pow2 e)) in Hk; [|apply Qlt_le_weak, pow2_pos].
    rewrite inject_Z_mult, <- pow2_Z in Hk by lia.
    rewrite <- Qmult_assoc, (Qmult_comm (pow2 (- e))), pow2_opp, Qmult_1_r in Hk.
    exact Hk.
  - assert (E : exponent q = normal_exponent q) by (unfold exponent in *; lia).
    rewrite E in *. set (e := normal_exponent q) in *.
    destruct (normal_exponent_bounds q Hq) as [Hlo _]. fold e in Hlo.
    assert (Hk : (inject_Z (2 ^ 52) <= q / pow2 e)%Q).
    { apply Qle_shift_div_l; [apply pow2_pos|].
      rewrite <- pow2_Z, <- pow2_add, Z.add_comm by lia. exact Hlo. }
    apply round_half_even_ge in Hk. rewrite Zle_Qle in Hk.
    apply Qle_trans with (inject_Z (2 ^ 52) * pow2 1)%Q.
    + change (inject_Z (2 ^ 52) * pow2 1)%Q with (inject_Z (2 ^ 53)).
      rewrite <- Zle_Qle. lia.
    + apply Qle_trans with (inject_Z (2 ^ 52) * pow2 e)%Q.
      * apply Qmult_le_l; [reflexivity | apply pow2_le; lia].
      * apply Qmult_le_compat_r; [exact Hk | apply Qlt_le_weak, pow2_pos].
Qed.

Lemma round_pos_le_int (q : Q) (n : Z) :
  (0 <= n <= 2 ^ 53)%Z -> (0 < q)%Q ->
  (q <= inject_Z n)%Q -> (round_pos q <= inject_Z n)%Q.
Proof.
  intros Hn Hq Hnq. unfold round_pos.
  destruct (Z_le_gt_dec (exponent q) 0) as [He | He].
  - set (e := exponent q) in *.
    assert (Hk : (q / pow2 e <= inject_Z (n * 2 ^ (- e)))%Q).
    { rewrite inject_Z_mult, <- pow2_Z, div_pow2 by lia.
      apply Qmult_le_compat_r; [exact Hnq | apply Qlt_le_weak, pow2_pos]. }
    apply round_half_even_le in Hk. rewrite Zle_Qle in Hk.
    apply (Qmult_le_compat_r _ _ (pow2 e)) in Hk; [|apply Qlt_le_weak, pow2_pos].
    rewrite inject_Z_mult, <- pow2_Z in Hk by lia.
    rewrite <- Qmult_assoc, (Qmult_comm (pow2 (- e))), pow2_opp, Qmult_1_r in Hk.
    exact Hk.
  - assert (E : exponent q = normal_exponent q) by (unfold exponent in *; lia).
    rewrite E in *. set (e := normal_exponent q) in *.
    destruct (normal_exponent_bounds q Hq) as [Hlo _]. fold e in Hlo.
    assert (Hn53 : (inject_Z n <= pow2 53)%Q).
    { rewrite pow2_Z by lia. rewrite <- Zle_Qle. lia. }
    assert (He1 : e = 1%Z).
    { assert (H : (e + 52 < 54)%Z); [|lia].
      apply pow2_lt_inv. eapply Qle_lt_trans; [exact Hlo|].
      eapply Qle_lt_trans; [exact Hnq|]. eapply Qle_lt_trans; [exact Hn53|].
      apply pow2_lt. lia. }
    rewrite He1 in *.
    assert (Hk : (q / pow2 1 <= inject_Z (2 ^ 52))%Q).
    { apply Qle_shift_div_r; [apply pow2_pos|].
      eapply Qle_trans; [exact Hnq|]. eapply Qle_trans; [exact Hn53|].
      apply Qle_refl. }
    apply round_half_even_le in Hk. rewrite Zle_Qle in Hk.
    apply (Qmult_le_compat_r _ _ (pow2 1)) in Hk; [|apply Qlt_le_weak, pow2_pos].
    eapply Qle_trans; [exact Hk|].
    eapply Qle_trans; [|exact Hnq]. eapply Qle_trans; [|exact Hlo].
    vm_compute. discriminate.
Qed.

(** *** Rounding *)

Lemma round64_comp (p q : Q) : (p == q)%Q -> round64 p = round64 q.
Proof. intros H. unfold round64. rewrite (Qred_complete p q H). reflexivity. Qed.

Lemma Qnum_sign (q : Q) :
  match Qnum q with
  | Z0 => (q == 0)%Q
  | Zpos _ => (0 < q)%Q
  | Zneg _ => (q < 0)%Q
  end.
Proof.
  destruct q as [[|n|n] d]; unfold Qeq, Qlt; simpl; lia.
Qed.

Lemma round64_pos (q : Q) : (0 < q)%Q -> round64 q = round_pos (Qred q).
Proof.
  intros Hq. unfold round64. pose proof (Qnum_sign (Qred q)) as H.
  rewrite <- (Qred_correct q) in Hq.
  destruct (Qnum (Qred q)); [|reflexivity|]; lra.
Qed.

Lemma round64_zero (q : Q) : (q == 0)%Q -> round64 q = 0%Q.
Proof. intros H. rewrite (round64_comp q 0 H). reflexivity. Qed.

Lemma round64_nonneg (q : Q) : (0 <= q)%Q -> (0 <= round64 q)%Q.
Proof.
  intros Hq. destruct (Qlt_le_dec 0 q) as [Hpos | Hle].
  - rewrite (round64_pos q Hpos). apply round_pos_nonneg.
    rewrite Qred_correct. exact Hq.
  - rewrite round64_zero; [apply Qle_refl | lra].
Qed.

Lemma round64_ge_int (q : Q) (n : Z) :
  (0 <= n <= 2 ^ 53)%Z -> (inject_Z n <= q)%Q -> (inject_Z n <= round64 q)%Q.
Proof.
  intros Hn Hnq.
  assert (H0 : (0 <= inject_Z n)%Q)
    by (change 0%Q with (inject_Z 0); rewrite <- Zle_Qle; lia).
  destruct (Qlt_le_dec 0 q) as [Hpos | Hle].
  - rewrite (round64_pos q Hpos).
    apply round_pos_ge_int; rewrite ?Qred_correct; auto.
  - rewrite round64_zero by lra. lra.
Qed.

Lemma round64_le_int (q : Q) (n : Z) :
  (0 <= n <= 2 ^ 53)%Z -> (0 <= q)%Q ->
  (q <= inject_Z n)%Q -> (round64 q <= inject_Z n)%Q.
Proof.
  intros Hn Hq Hnq.
  assert (H0 : (0 <= inject_Z n)%Q)
    by (change 0%Q with (inject_Z 0); rewrite <- Zle_Qle; lia).
  destruct (Qlt_le_dec 0 q) as [Hpos | Hle].
  - rewrite (round64_pos q Hpos).
    apply round_pos_le_int; rewrite ?Qred_correct; auto.
  - rewrite round64_zero by lra. exact H0.
Qed.

(** On the thousandths and sides tried, and on sums, differences and
    quotients of some hundred further operands, [round64] gives the number
    that the machine gives. *)
Lemma round64_machine_samples :
  forallb (fun a => same_quotient a 1000
                    && forallb (same_product a 1000) sample_sides)
    sample_thousandths = true
  /\ forallb (fun a => forallb (fun c => same_sum a 1000 c 7
                                        && same_difference a 1000 c 7
                                        && same_difference a 977 c 1000)
                        (upfrom 5 1))
       (upfrom 12 1) = true
  /\ forallb (fun a => same_quotient 1 (a * a * a * 1234567891 + 1)
                       && same_quotient (a * 9007199254740 + 5) (3 + a))
       (upfrom 30 1) = true
  /\ same_product 1 (2 ^ 53 - 1) 3 = true.
Proof. vm_compute. auto. Qed.

(** A whole number up to [2^53] is a number of the format. *)
Lemma round64_int (n : Z) :
  (0 <= n <= 2 ^ 53)%Z -> (round64 (inject_Z n) == inject_Z n)%Q.
Proof.
  intros Hn. apply Qle_antisym.
  - apply round64_le_int; [exact Hn | | apply Qle_refl].
    change 0%Q with (inject_Z 0). rewrite <- Zle_Qle. lia.
  - apply round64_ge_int; [exact Hn | apply Qle_refl].
Qed.

Lemma round64_relative (q : Q) :
  (q == 0 \/ pow2 (-1022) <= q)%Q ->
  (q * (1 - pow2 (-53)) <= round64 q /\ round64 q <= q * (1 + pow2 (-53)))%Q.
Proof.
  intros [H0 | Hq].
  - rewrite (round64_zero q H0), H0. split; lra.
  - assert (Hpos : (0 < q)%Q)
      by (eapply Qlt_le_trans; [apply pow2_pos | exact Hq]).
    rewrite (round64_pos q Hpos).
    rewrite <- (Qred_correct q) in Hq.
    destruct (round_pos_relative (Qred q) Hq) as [Hlo Hhi].
    assert (E1 : (Qred q * (1 - pow2 (-53)) == q * (1 - pow2 (-53)))%Q)
      by (rewrite Qred_correct; reflexivity).
    assert (E2 : (Qred q * (1 + pow2 (-53)) == q * (1 + pow2 (-53)))%Q)
      by (rewrite Qred_correct; reflexivity).
    rewrite E1 in Hlo. rewrite E2 in Hhi. auto.
Qed.

End Binary64Facts.

(** ** The annotation renderer *)

Module RendererFacts.
Import Binary64 Binary64Facts Renderer.

Lemma Q_of_N_nonneg (n : N) : (0 <= Q_of_N n)%Q.
Proof.
  unfold Q_of_N. change 0%Q with (inject_Z 0). rewrite <- Zle_Qle. lia.
Qed.

Lemma draw_box_not_nil measureText canvas field b :
  draw_box measureText canvas field b <> [].
Proof.
  unfold draw_box. destruct (rect_of canvas b) as [[[x y] w] h]. discriminate.
Qed.

(** A canvas that [fileToCanvas] delivers has a 2D context. *)
Lemma fileToCanvas_context loadImage pdfViewport pdfRender getContext f scale canvas :
  fileToCanvas loadImage pdfViewport pdfRender getContext f scale
  = resolved canvas ->
  getContext (width canvas) (height canvas) = true.
Proof.
  unfold fileToCanvas.
  destruct (is_prefix _ _).
  - destruct (loadImage f) as [[[w h] px]|]; [|discriminate].
    destruct (getContext w h) eqn:E; [|discriminate].
    intros [= <-]. exact E.
  - destruct (bool_decide _); [|discriminate].
    destruct (pdfViewport f scale) as [[w h]|]; [|discriminate].
    destruct (getContext w h) eqn:E; [|discriminate].
    destruct (pdfRender f scale); [|discriminate].
    intros [= <-]. exact E.
Qed.

(** C2 as stated fails: a box with swapped corners is not valid, yet the
    field is drawn; the same field without a box draws nothing. *)
Lemma invalid_box_is_drawn :
  ~ valid_box inverted_box
  /\ draw_fields (fun _ _ => 0%Q) square_canvas
       (total_data (Some inverted_box)) [total_field] <> []
  /\ (exists x y w h,
        In (strokeRect x y w h)
          (draw_fields (fun _ _ => 0%Q) square_canvas
             (total_data (Some inverted_box)) [total_field])
        /\ (x == 500 /\ y == 500 /\ w == -400 /\ h == -400)%Q)
  /\ draw_fields (fun _ _ => 0%Q) square_canvas (total_data None) [total_field]
     = [].
Proof.
  split; [unfold valid_box, inverted_box; lia|].
  split; [vm_compute; discriminate|].
  split.
  - exists (fst (fst (fst (rect_of square_canvas inverted_box)))),
           (snd (fst (fst (rect_of square_canvas inverted_box)))),
           (snd (fst (rect_of square_canvas inverted_box))),
           (snd (rect_of square_canvas inverted_box)).
    split; [right; right; left; reflexivity|].
    repeat split; reflexivity.
  - vm_compute. reflexivity.
Qed.

(** C2, amended. For every data mapping and field, the renderer draws
    nothing for the field exactly when its extracted value is absent or
    carries no box; a box that is present is drawn as it is, whatever its
    coordinates.  Neither case raises an error: once the canvas and its
    context are there, the only failure left is that of the encoder. *)
Theorem renderer_skips_only_missing_boxes :
  forall (measureText : Q -> jsstring -> Q) (canvas : Canvas)
         (data : gmap jsstring ExtractedValue) (field : FieldDefinition),
    (draw_field measureText canvas data field = [] <->
       data !! key field = None
       \/ exists extracted,
            data !! key field = Some extracted /\ box_2d extracted = None)
    /\ (forall extracted b,
          data !! key field = Some extracted -> box_2d extracted = Some b ->
          draw_field measureText canvas data field
          = draw_box measureText canvas field b)
    /\ (forall loadImage pdfViewport pdfRender getContext toBlob f fields,
          fileToCanvas loadImage pdfViewport pdfRender getContext f 2%Q
          = resolved canvas ->
          generateAnnotatedImage measureText loadImage pdfViewport pdfRender
            getContext toBlob f data fields
          = match toBlob canvas (draw_fields measureText canvas data fields) with
            | Some blob =>
                resolved (draw_fields measureText canvas data fields, blob)
            | None => rejected (lit "Failed to create blob from canvas")
            end).
Proof.
  intros measureText canvas data field. split; [|split].
  - unfold draw_field. destruct (data !! key field) as [e|]; [|tauto].
    destruct (box_2d e) as [b|] eqn:Hb.
    + split.
      * intros H. destruct (draw_box_not_nil _ _ _ _ H).
      * intros [H | (e' & [= <-] & H)]; congruence.
    + split; [|reflexivity]. intros _. right. exists e. auto.
  - intros e b He Hb. unfold draw_field. rewrite He, Hb. reflexivity.
  - intros loadImage pdfViewport pdfRender getContext toBlob f fields Hc.
    unfold generateAnnotatedImage. rewrite Hc.
    rewrite (fileToCanvas_context _ _ _ _ _ _ _ Hc). reflexivity.
Qed.

Lemma renderer_skips_witness :
  draw_field (fun _ _ => 0%Q) square_canvas (total_data None) total_field = [].
Proof.
  apply (proj1 (renderer_skips_only_missing_boxes
                  (fun _ _ => 0%Q) square_canvas (total_data None) total_field)).
  right. eexists. split; [vm_compute; reflexivity | reflexivity].
Defined.

(** *** Geometry of a valid box *)

Lemma tiny_below_thousandth : (pow2 (-1022) <= (1 # 1000) * (1 - pow2 (-53)))%Q.
Proof.
  apply Qle_trans with (pow2 (-11)); [apply pow2_le; lia|].
  vm_compute. discriminate.
Qed.

Lemma Q_of_N_pos (n : N) : (0 < n)%N -> (1 <= Q_of_N n)%Q.
Proof.
  intros H. unfold Q_of_N. change 1%Q with (inject_Z 1).
  rewrite <- Zle_Qle. lia.
Qed.

(** The thousandths of a length: both roundings taken together change the
    exact value by the factor [(1 + d)^2] at most, [|d| <= 2^-53], and the
    result never leaves the length. *)
Lemma scaled_bounds (a : Z) (size : N) :
  (0 <= a <= 1000)%Z -> (size < 2 ^ 32)%N ->
  let exact := (inject_Z a / 1000 * Q_of_N size)%Q in
  (exact * ((1 - pow2 (-53)) * (1 - pow2 (-53))) <= scaled (inject_Z a) size
   /\ scaled (inject_Z a) size
      <= exact * ((1 + pow2 (-53)) * (1 + pow2 (-53)))
   /\ 0 <= scaled (inject_Z a) size
   /\ scaled (inject_Z a) size <= Q_of_N size)%Q.
Proof.
  intros Ha Hsize exact. unfold scaled.
  pose proof (Q_of_N_nonneg size) as HW.
  pose proof tiny_below_thousandth as Htiny.
  assert (Hu : (0 < pow2 (-53))%Q) by apply pow2_pos.
  assert (Hu1 : (pow2 (-53) <= 1 # 2)%Q) by (vm_compute; discriminate).
  assert (Qa0 : (0 <= inject_Z a)%Q)
    by (change 0%Q with (inject_Z 0); rewrite <- Zle_Qle; lia).
  assert (Qa1 : (inject_Z a <= 1000)%Q)
    by (change 1000%Q with (inject_Z 1000); rewrite <- Zle_Qle; lia).
  assert (Hq0 : (0 <= inject_Z a / 1000)%Q) by (apply Qle_shift_div_l; lra).
  assert (Hq1 : (inject_Z a / 1000 <= 1)%Q) by (apply Qle_shift_div_r; lra).
  set (q := (inject_Z a / 1000)%Q) in *.
  set (r := round64 q).
  assert (Hr0 : (0 <= r)%Q) by (apply round64_nonneg, Hq0).
  assert (Hr1 : (r <= 1)%Q).
  { change 1%Q with (inject_Z 1). apply round64_le_int; [lia | exact Hq0 |].
    exact Hq1. }
  assert (Hrel : (q * (1 - pow2 (-53)) <= r /\ r <= q * (1 + pow2 (-53)))%Q).
  { apply round64_relative.
    destruct (Z.eq_dec a 0%Z) as [-> | Hne]; [left; reflexivity | right].
    apply Qle_trans with ((1 # 1000) * (1 - pow2 (-53)))%Q; [exact Htiny|].
    assert (H1 : (1 # 1000 <= q)%Q).
    { assert (Qa : (1 <= inject_Z a)%Q)
        by (change 1%Q with (inject_Z 1); rewrite <- Zle_Qle; lia).
      unfold q. apply Qle_shift_div_l; [reflexivity | lra]. }
    nra. }
  destruct Hrel as [Hrlo Hrhi].
  set (W := Q_of_N size) in *.
  assert (Hp0 : (0 <= r * W)%Q) by (apply Qmult_le_0_compat; assumption).
  assert (Hp1 : (r * W <= W)%Q) by nra.
  assert (Hrel : (r * W * (1 - pow2 (-53)) <= round64 (r * W)
                  /\ round64 (r * W) <= r * W * (1 + pow2 (-53)))%Q).
  { apply round64_relative.
    destruct (N.eq_dec size 0%N) as [E | Hne].
    - left. unfold W. rewrite E. change (Q_of_N 0) with 0%Q. ring.
    - assert (HW1 : (1 <= W)%Q) by (apply Q_of_N_pos; lia).
      destruct (Z.eq_dec a 0%Z) as [-> | Hane].
      + left. unfold r, q. rewrite (round64_zero (inject_Z 0 / 1000)); [ring|].
        reflexivity.
      + right.
        assert (H1 : (1 # 1000 <= q)%Q).
        { assert (Qa : (1 <= inject_Z a)%Q)
            by (change 1%Q with (inject_Z 1); rewrite <- Zle_Qle; lia).
          unfold q. apply Qle_shift_div_l; [reflexivity | lra]. }
        apply Qle_trans with ((1 # 1000) * (1 - pow2 (-53)))%Q; [exact Htiny|].
        apply Qle_trans with r; nra. }
  destruct Hrel as [Hlo Hhi].
  unfold exact. fold q. fold W.
  split; [|split; [|split]].
  - apply Qle_trans with (r * W * (1 - pow2 (-53)))%Q; [|exact Hlo].
    assert (HWu : (0 <= W * (1 - pow2 (-53)))%Q)
      by (apply Qmult_le_0_compat; lra).
    pose proof (Qmult_le_compat_r _ _ _ Hrlo HWu) as H. lra.
  - apply Qle_trans with (r * W * (1 + pow2 (-53)))%Q; [exact Hhi|].
    assert (HWu : (0 <= W * (1 + pow2 (-53)))%Q)
      by (apply Qmult_le_0_compat; lra).
    pose proof (Qmult_le_compat_r _ _ _ Hrhi HWu) as H. lra.
  - apply round64_nonneg, Hp0.
  - unfold W, Q_of_N. apply round64_le_int; [| exact Hp0 | exact Hp1].
    assert (H32 : (Z.of_N size < 2 ^ 32)%Z).
    { change (2 ^ 32)%Z with (Z.of_N (2 ^ 32)). lia. }
    lia.
Qed.

(** The numbers of a box between 0 and [2^53] are its entries, and so are
    their differences. *)
Lemma number_whole (z : Z) : (0 <= z <= 2 ^ 53)%Z -> (number z == inject_Z z)%Q.
Proof. apply round64_int. Qed.

Lemma scaled_comp (a a' : Q) (size : N) :
  (a == a')%Q -> scaled a size = scaled a' size.
Proof.
  intros E. unfold scaled.
  rewrite (round64_comp (a / 1000) (a' / 1000)); [reflexivity|].
  rewrite E. reflexivity.
Qed.

Lemma rect_of_whole (canvas : Canvas) (ymin xmin ymax xmax : Z) :
  (0 <= ymin <= ymax)%Z -> (ymax <= 2 ^ 53)%Z ->
  (0 <= xmin <= xmax)%Z -> (xmax <= 2 ^ 53)%Z ->
  rect_of canvas (ymin, xmin, ymax, xmax)
  = (scaled (inject_Z xmin) (width canvas),
     scaled (inject_Z ymin) (height canvas),
     scaled (inject_Z (xmax - xmin)) (width canvas),
     scaled (inject_Z (ymax - ymin)) (height canvas)).
Proof.
  intros Hy Hy' Hx Hx'.
  assert (Hdiff : forall a b : Z, (0 <= a <= b)%Z -> (b <= 2 ^ 53)%Z ->
            (round64 (number b - number a) == inject_Z (b - a))%Q).
  { intros a b Ha Hb.
    rewrite (round64_comp (number b - number a) (inject_Z (b - a))).
    - apply round64_int. lia.
    - rewrite !number_whole by lia. unfold Z.sub.
      rewrite inject_Z_plus, inject_Z_opp. reflexivity. }
  unfold rect_of.
  rewrite (scaled_comp (number xmin) (inject_Z xmin)) by (apply number_whole; lia).
  rewrite (scaled_comp (number ymin) (inject_Z ymin)) by (apply number_whole; lia).
  rewrite (scaled_comp (round64 (number xmax - number xmin))
             (inject_Z (xmax - xmin))) by (apply Hdiff; lia).
  rewrite (scaled_comp (round64 (number ymax - number ymin))
             (inject_Z (ymax - ymin))) by (apply Hdiff; lia).
  reflexivity.
Qed.

(** C3, amended. For every valid normalized box of a field and every
    canvas, the renderer strokes the rectangle whose origin is
    [(xmin/1000*W, ymin/1000*H)] and whose size is
    [((xmax-xmin)/1000*W, (ymax-ymin)/1000*H)], each as binary64 evaluates
    it, with the line width [max(2, W*0.003)].  Each of the four numbers is
    the exact value times a factor between [(1-2^-53)^2] and [(1+2^-53)^2],
    so that the area is the fixed fraction [(xmax-xmin)*(ymax-ymin)/10^6] of
    [W*H] up to the square of that factor.  Origin and size are not negative
    and none exceeds the side of the canvas; the right and the bottom edge
    stay within [W*(1+2^-53)^2] and [H*(1+2^-53)^2]. *)
Theorem valid_box_rectangle :
  forall (measureText : Q -> jsstring -> Q) (canvas : Canvas)
         (data : gmap jsstring ExtractedValue) (field : FieldDefinition)
         (extracted : ExtractedValue) (ymin xmin ymax xmax : Z),
    data !! key field = Some extracted ->
    box_2d extracted = Some (ymin, xmin, ymax, xmax) ->
    valid_box (ymin, xmin, ymax, xmax) ->
    (width canvas < 2 ^ 32)%N -> (height canvas < 2 ^ 32)%N ->
    let W := Q_of_N (width canvas) in
    let H := Q_of_N (height canvas) in
    let lo := ((1 - pow2 (-53)) * (1 - pow2 (-53)))%Q in
    let hi := ((1 + pow2 (-53)) * (1 + pow2 (-53)))%Q in
    exists x y w h rest,
      draw_field measureText canvas data field
      = set_lineWidth (Qmax 2 (round64 (W * round64 (3 # 1000))))
          :: set_strokeStyle (color field)
          :: strokeRect x y w h :: rest
      /\ x = round64 (round64 (inject_Z xmin / 1000) * W)
      /\ y = round64 (round64 (inject_Z ymin / 1000) * H)
      /\ w = round64 (round64 (inject_Z (xmax - xmin) / 1000) * W)
      /\ h = round64 (round64 (inject_Z (ymax - ymin) / 1000) * H)
      /\ (inject_Z xmin / 1000 * W * lo <= x
          /\ x <= inject_Z xmin / 1000 * W * hi)%Q
      /\ (inject_Z ymin / 1000 * H * lo <= y
          /\ y <= inject_Z ymin / 1000 * H * hi)%Q
      /\ (inject_Z (xmax - xmin) / 1000 * W * lo <= w
          /\ w <= inject_Z (xmax - xmin) / 1000 * W * hi)%Q
      /\ (inject_Z (ymax - ymin) / 1000 * H * lo <= h
          /\ h <= inject_Z (ymax - ymin) / 1000 * H * hi)%Q
      /\ (inject_Z ((xmax - xmin) * (ymax - ymin)) / 1000000 * (W * H)
            * (lo * lo) <= w * h
          /\ w * h <= inject_Z ((xmax - xmin) * (ymax - ymin)) / 1000000
                        * (W * H) * (hi * hi))%Q
      /\ (0 <= x /\ 0 <= w /\ x <= W /\ w <= W /\ x + w <= W * hi)%Q
      /\ (0 <= y /\ 0 <= h /\ y <= H /\ h <= H /\ y + h <= H * hi)%Q.
Proof.
  intros measureText canvas data field extracted ymin xmin ymax xmax
    Hdata Hbox (Hy & Hy' & Hx & Hx') HW32 HH32 W H lo hi.
  destruct (scaled_bounds xmin (width canvas)) as (Hx1 & Hx2 & Hx3 & Hx4);
    [lia | exact HW32 |].
  destruct (scaled_bounds ymin (height canvas)) as (Hy1 & Hy2 & Hy3 & Hy4);
    [lia | exact HH32 |].
  destruct (scaled_bounds (xmax - xmin) (width canvas))
    as (Hw1 & Hw2 & Hw3 & Hw4); [lia | exact HW32 |].
  destruct (scaled_bounds (ymax - ymin) (height canvas))
    as (Hh1 & Hh2 & Hh3 & Hh4); [lia | exact HH32 |].
  fold W lo hi in Hx1, Hx2, Hx4, Hw1, Hw2, Hw4.
  fold H lo hi in Hy1, Hy2, Hy4, Hh1, Hh2, Hh4.
  exists (scaled (inject_Z xmin) (width canvas)),
         (scaled (inject_Z ymin) (height canvas)),
         (scaled (inject_Z (xmax - xmin)) (width canvas)),
         (scaled (inject_Z (ymax - ymin)) (height canvas)).
  set (x := scaled (inject_Z xmin) (width canvas)) in *.
  set (y := scaled (inject_Z ymin) (height canvas)) in *.
  set (w := scaled (inject_Z (xmax - xmin)) (width canvas)) in *.
  set (h := scaled (inject_Z (ymax - ymin)) (height canvas)) in *.
  eexists. split.
  { unfold draw_field. rewrite Hdata, Hbox. unfold draw_box.
    rewrite rect_of_whole by lia. reflexivity. }
  do 4 (split; [reflexivity|]).
  do 4 (split; [split; assumption|]).
  pose proof (Q_of_N_nonneg (width canvas)) as HW0.
  pose proof (Q_of_N_nonneg (height canvas)) as HH0.
  fold W in HW0. fold H in HH0.
  assert (Hu : (0 < pow2 (-53))%Q) by apply pow2_pos.
  assert (Hu1 : (pow2 (-53) <= 1 # 2)%Q) by (vm_compute; discriminate).
  assert (Hlo0 : (0 <= lo)%Q) by (apply Qmult_le_0_compat; lra).
  assert (Hhi0 : (0 <= hi)%Q) by (apply Qmult_le_0_compat; lra).
  assert (Qdx0 : (0 <= inject_Z (xmax - xmin))%Q)
    by (change 0%Q with (inject_Z 0); rewrite <- Zle_Qle; lia).
  assert (Qdy0 : (0 <= inject_Z (ymax - ymin))%Q)
    by (change 0%Q with (inject_Z 0); rewrite <- Zle_Qle; lia).
  assert (Qx0 : (0 <= inject_Z xmin)%Q)
    by (change 0%Q with (inject_Z 0); rewrite <- Zle_Qle; lia).
  assert (Qy0 : (0 <= inject_Z ymin)%Q)
    by (change 0%Q with (inject_Z 0); rewrite <- Zle_Qle; lia).
  assert (Qxmax : (inject_Z xmin + inject_Z (xmax - xmin) <= 1000)%Q).
  { rewrite <- inject_Z_plus. change 1000%Q with (inject_Z 1000).
    rewrite <- Zle_Qle. lia. }
  assert (Qymax : (inject_Z ymin + inject_Z (ymax - ymin) <= 1000)%Q).
  { rewrite <- inject_Z_plus. change 1000%Q with (inject_Z 1000).
    rewrite <- Zle_Qle. lia. }
  set (dx := inject_Z (xmax - xmin)) in *.
  set (dy := inject_Z (ymax - ymin)) in *.
  assert (HWd0 : (0 <= dx / 1000 * W)%Q).
  { apply Qmult_le_0_compat; [|exact HW0]. apply Qle_shift_div_l; lra. }
  assert (HHd0 : (0 <= dy / 1000 * H)%Q).
  { apply Qmult_le_0_compat; [|exact HH0]. apply Qle_shift_div_l; lra. }
  split.
  { assert (E : forall f : Q,
              (inject_Z ((xmax - xmin) * (ymax - ymin)) / 1000000 * (W * H)
                 * (f * f)
               == dx / 1000 * W * f * (dy / 1000 * H * f))%Q).
    { intros f. rewrite inject_Z_mult. fold dx dy. field. }
    rewrite !E. split; apply Qmult_le_compat_nonneg; split; try assumption;
      apply Qmult_le_0_compat; assumption. }
  split.
  - repeat (split; [assumption|]).
    apply Qle_trans with ((inject_Z xmin / 1000 * W + dx / 1000 * W) * hi)%Q;
      [lra|].
    apply Qmult_le_compat_r; [|exact Hhi0].
    assert (E : (inject_Z xmin / 1000 * W + dx / 1000 * W
                 == (inject_Z xmin + dx) / 1000 * W)%Q) by field.
    rewrite E. apply Qle_trans with (1 * W)%Q; [|lra].
    apply Qmult_le_compat_r; [|exact HW0]. apply Qle_shift_div_r; lra.
  - repeat (split; [assumption|]).
    apply Qle_trans with ((inject_Z ymin / 1000 * H + dy / 1000 * H) * hi)%Q;
      [lra|].
    apply Qmult_le_compat_r; [|exact Hhi0].
    assert (E : (inject_Z ymin / 1000 * H + dy / 1000 * H
                 == (inject_Z ymin + dy) / 1000 * H)%Q) by field.
    rewrite E. apply Qle_trans with (1 * H)%Q; [|lra].
    apply Qmult_le_compat_r; [|exact HH0]. apply Qle_shift_div_r; lra.
Qed.

Lemma valid_box_rectangle_witness :
  exists x y w h rest,
    draw_field (fun _ _ => 0%Q) square_canvas
      (total_data (Some (100, 200, 300, 600)%Z)) total_field
    = set_lineWidth (Qmax 2 (round64 (1000 * round64 (3 # 1000))))
        :: set_strokeStyle (lit "#ff0000")
        :: strokeRect x y w h :: rest
    /\ (0 <= x /\ 0 <= w /\ x <= 1000 /\ w <= 1000)%Q
    /\ (0 <= y /\ 0 <= h /\ y <= 1000 /\ h <= 1000)%Q.
Proof.
  destruct (valid_box_rectangle (fun _ _ => 0%Q) square_canvas
              (total_data (Some (100, 200, 300, 600)%Z)) total_field
              {| value := Some (lit "12");
                 box_2d := Some (100, 200, 300, 600)%Z |}
              100 200 300 600)
    as (x & y & w & h & rest & Hdraw & _ & _ & _ & _ & _ & _ & _ & _ & _
        & (Hx0 & Hw0 & Hx1 & Hw1 & _) & (Hy0 & Hh0 & Hy1 & Hh1 & _)).
  - vm_compute. reflexivity.
  - reflexivity.
  - unfold valid_box. lia.
  - reflexivity.
  - reflexivity.
  - exists x, y, w, h, rest. split; [exact Hdraw|]. split; auto.
Defined.

(** C3 as stated fails: on a canvas 1224 wide the valid box
    [[0, 63, 1000, 1000]] is stroked from [x = 77.111999999999994...] with
    the width [w = 1146.888000000000147...], so that the right edge lies
    beyond the canvas; as a number, [x + w] is the number next above
    1224. *)
Lemma rounded_box_leaves_canvas :
  valid_box edge_box
  /\ exists x y w h,
       In (strokeRect x y w h)
         (draw_fields (fun _ _ => 0%Q) wide_canvas
            (total_data (Some edge_box)) [total_field])
       /\ (x == 2713137300514013 # 35184372088832)%Q
       /\ (w == 5044066767027045 # 4398046511104)%Q
       /\ (Q_of_N (width wide_canvas) < x + w)%Q
       /\ ~ (x + w <= Q_of_N (width wide_canvas))%Q
       /\ (round64 (x + w) == 1224 + pow2 (-42))%Q.
Proof.
  split; [unfold valid_box, edge_box; lia|].
  exists (scaled 63 1224), (scaled 0 1000), (scaled 937 1224), (scaled 1000 1000).
  split; [right; right; left; reflexivity|].
  split; [vm_compute; reflexivity|]. split; [vm_compute; reflexivity|].
  split; [vm_compute; reflexivity|]. split; [|vm_compute; reflexivity].
  apply Qlt_not_le. vm_compute. reflexivity.
Qed.

End RendererFacts.


(** ** The reconciliation result *)

Module ReconcileFacts.
Import Reconcile.

Lemma is_prefix_spec (p : jsstring) : forall s,
  is_prefix p s = true <-> exists t, s = p ++ t.
Proof.
  induction p as [|c p IH]; intros s; simpl.
  - split; [intros _; exists s; reflexivity | reflexivity].
  - destruct s as [|c' s].
    + split; [discriminate | intros (t & Ht); discriminate Ht].
    + rewrite andb_true_iff, N.eqb_eq, IH. split.
      * intros (-> & t & ->). exists t. reflexivity.
      * intros (t & [= -> ->]). split; [reflexivity | exists t; reflexivity].
Qed.

Lemma occurs_at_0 p s : occurs_at p s 0 <-> is_prefix p s = true.
Proof. unfold occurs_at. rewrite is_prefix_spec. reflexivity. Qed.

(** [find_sub] returns the least index at which the pattern occurs. *)
Lemma find_sub_spec (p : jsstring) : forall s i,
  find_sub p s = Some i <->
  occurs_at p s i /\ forall j, (j < i)%nat -> ~ occurs_at p s j.
Proof.
  induction s as [|c s IH]; intros i.
  - simpl. destruct (is_prefix p []) eqn:E.
    + split.
      * intros [= <-]. split; [now apply occurs_at_0 | intros j Hj; lia].
      * intros [_ Hmin]. destruct i as [|i]; [reflexivity|].
        destruct (Hmin O); [lia | now apply occurs_at_0].
    + split; [discriminate|]. intros [(t & Ht) _].
      rewrite drop_nil in Ht.
      assert (Hp : is_prefix p [] = true) by (apply is_prefix_spec; eauto).
      congruence.
  - change (find_sub p (c :: s))
      with (if is_prefix p (c :: s) then Some O else S <$> find_sub p s).
    destruct (is_prefix p (c :: s)) eqn:E.
    + split.
      * intros [= <-]. split; [now apply occurs_at_0 | intros j Hj; lia].
      * intros [_ Hmin]. destruct i as [|i]; [reflexivity|].
        destruct (Hmin O); [lia | now apply occurs_at_0].
    + destruct i as [|i].
      * split.
        -- destruct (find_sub p s); discriminate.
        -- intros [H _]. apply occurs_at_0 in H. congruence.
      * transitivity (find_sub p s = Some i).
        { destruct (find_sub p s); simpl; split; congruence. }
        rewrite IH. unfold occurs_at. simpl. split.
        -- intros [H Hmin]. split; [exact H|].
           intros [|j] Hj Hocc.
           ++ apply (occurs_at_0 p (c :: s)) in Hocc. congruence.
           ++ apply (Hmin j); [lia | exact Hocc].
        -- intros [H Hmin]. split; [exact H|].
           intros j Hj Hocc. apply (Hmin (S j)); [lia | exact Hocc].
Qed.

(** The model of the regular expression finds the first tagged block. *)
Lemma match_JSON_RESULT_first_block (report inner : jsstring) :
  match_JSON_RESULT report = Some inner <-> first_block report inner.
Proof.
  unfold match_JSON_RESULT, first_block. split.
  - destruct (find_sub open_tag report) as [i|] eqn:Ei; [|discriminate].
    destruct (find_sub close_tag _) as [j|] eqn:Ej; [|discriminate].
    intros Hinner.
    assert (inner = take j (drop (i + length open_tag) report)) as ->
      by congruence.
    clear Hinner.
    apply find_sub_spec in Ei as [(t & Ht) Hi].
    apply find_sub_spec in Ej as [(t' & Ht') Hj].
    assert (Hrest : drop (i + length open_tag) report = t).
    { rewrite <- drop_drop, Ht, drop_app_length. reflexivity. }
    rewrite Hrest in *.
    assert (Hlen : (i <= length report)%nat).
    { destruct (Nat.le_gt_cases i (length report)) as [|Hgt]; [assumption|].
      rewrite drop_ge in Ht by lia. discriminate Ht. }
    assert (Hj' : (j <= length t)%nat).
    { destruct (Nat.le_gt_cases j (length t)) as [|Hgt]; [assumption|].
      rewrite drop_ge in Ht' by lia. discriminate Ht'. }
    exists (take i report), t'.
    assert (Et : t = take j t ++ close_tag ++ t').
    { rewrite <- Ht'. symmetry. apply take_drop. }
    split.
    + rewrite <- Et, <- Ht. symmetry. apply take_drop.
    + split.
      * intros k Hk. apply Hi. rewrite length_take in Hk. lia.
      * intros k Hk. rewrite <- Et. apply Hj. rewrite length_take in Hk. lia.
  - intros (before & after & -> & Hopen & Hclose).
    assert (Ei : find_sub open_tag
                   (before ++ open_tag ++ inner ++ close_tag ++ after)
                 = Some (length before)).
    { apply find_sub_spec. split; [|exact Hopen].
      exists (inner ++ close_tag ++ after). apply drop_app_length. }
    rewrite Ei.
    assert (Hrest : drop (length before + length open_tag)
                      (before ++ open_tag ++ inner ++ close_tag ++ after)
                    = inner ++ close_tag ++ after).
    { rewrite <- drop_drop, drop_app_length, drop_app_length.
      reflexivity. }
    rewrite Hrest.
    assert (Ej : find_sub close_tag (inner ++ close_tag ++ after)
                 = Some (length inner)).
    { apply find_sub_spec. split; [|exact Hclose].
      exists after. apply drop_app_length. }
    rewrite Ej, take_app_length. reflexivity.
Qed.

(** C8, amended. For every reply of the reconciliation service whose
    report carries a tagged block, if the first such block (from the first
    opening tag to the first closing tag behind it) holds text that
    [JSON.parse] rejects, the call resolves with the report and the code as
    they are for any reply, and without joined data. *)
Theorem malformed_json_degrades :
  forall (JSON_parse : jsstring -> option Json) (API_KEY : jsstring)
         (response : Response) (inner : jsstring),
    API_KEY <> [] ->
    first_block (report_of response) inner ->
    JSON_parse inner = None ->
    reconcileData JSON_parse (Some API_KEY) (resolved response)
    = resolved {| report := report_of response;
                  code := code_of response;
                  joinedData := None |}.
Proof.
  intros JSON_parse API_KEY response inner Hkey Hblock Hparse.
  destruct API_KEY as [|c k]; [congruence|]. simpl.
  unfold build_result, joinedData_of.
  apply match_JSON_RESULT_first_block in Hblock. rewrite Hblock.
  destruct inner; [reflexivity|]. rewrite Hparse. reflexivity.
Qed.

Lemma malformed_json_degrades_witness :
  reconcileData (fun _ => None) (Some (lit "key")) (resolved broken_reply)
  = resolved {| report := lit "Summary <JSON_RESULT>[{oops</JSON_RESULT> done";
                code := lit "print(1)";
                joinedData := None |}.
Proof.
  apply (malformed_json_degrades (fun _ => None) (lit "key") broken_reply
           (lit "[{oops")).
  - discriminate.
  - apply match_JSON_RESULT_first_block. vm_compute. reflexivity.
  - reflexivity.
Defined.

(** C8 as stated fails: the report below carries a tagged block with
    malformed JSON, the second one, and yet the result has joined data, that
    of the first block; blocks behind the first are never read. *)
Lemma later_malformed_block_is_not_read :
  (exists before after,
     report_of two_block_reply
     = before ++ open_tag ++ lit "[{oops" ++ close_tag ++ after)
  /\ parse_array_of_one (lit "[{oops") = None
  /\ reconcileData parse_array_of_one (Some (lit "key"))
       (resolved two_block_reply)
     = resolved {| report := report_of two_block_reply;
                   code := [];
                   joinedData := Some (JArray [JNumber 1]) |}
  /\ joinedData {| report := report_of two_block_reply;
                   code := [];
                   joinedData := Some (JArray [JNumber 1]) |} <> None.
Proof.
  split.
  - exists (lit "a <JSON_RESULT>[1]</JSON_RESULT> b "), []. reflexivity.
  - split; [reflexivity|]. split; [vm_compute; reflexivity | discriminate].
Qed.

End ReconcileFacts.

(** * Further properties *)

(** ** The palette *)

Module PaletteFacts.
Import Palette.

(** X1. With a non-empty palette [getNextColor] always yields a color of the
    palette, and the colors repeat with the length of the palette as period;
    with an empty palette it yields nothing. *)
Theorem getNextColor_cycles :
  forall (COLORS : list jsstring) (index : nat),
    (COLORS = [] -> getNextColor COLORS index = None)
    /\ (COLORS <> [] ->
        exists c,
          getNextColor COLORS index = Some c
          /\ In c COLORS
          /\ getNextColor COLORS (index + length COLORS) = Some c).
Proof.
  intros COLORS index. unfold getNextColor. split.
  - intros ->. apply lookup_nil.
  - intros Hne.
    assert (Hlen : (length COLORS <> 0)%nat) by (destruct COLORS; simpl; congruence).
    assert (Hlt : (index mod length COLORS < length COLORS)%nat)
      by (apply Nat.mod_upper_bound, Hlen).
    destruct (lookup_lt_is_Some_2 COLORS _ Hlt) as [c Hc].
    exists c. split; [exact Hc|]. split.
    + apply list_elem_of_In, list_elem_of_lookup. eauto.
    + replace ((index + length COLORS) mod length COLORS)%nat
        with (index mod length COLORS)%nat; [exact Hc|].
      rewrite <- (Nat.Div0.add_mod_idemp_r index (length COLORS)),
        Nat.Div0.mod_same, Nat.add_0_r. reflexivity.
Qed.

Lemma getNextColor_cycles_witness :
  getNextColor [lit "#f00"; lit "#0f0"; lit "#00f"] 4 = Some (lit "#0f0").
Proof.
  destruct (proj2 (getNextColor_cycles [lit "#f00"; lit "#0f0"; lit "#00f"] 1))
    as (c & Hc & _ & Hper); [discriminate|].
  vm_compute in Hc. injection Hc as <-. exact Hper.
Defined.

End PaletteFacts.

(** ** The zoom of the document viewer *)

Module ViewerFacts.
Import Binary64 Binary64Facts Viewer.

Lemma floor_half (n : Z) : Qfloor (inject_Z n + (1 # 2)) = n.
Proof.
  unfold Qfloor, Qplus, inject_Z; simpl.
  symmetry. apply Z.div_unique with (r := 1%Z); lia.
Qed.

(** The quarters between a quarter and three and a quarter are numbers of
    the format: no sum or difference that the zoom buttons form is
    rounded. *)
Lemma quarter_exact (k : Z) (q : Q) :
  (1 <= k <= 13)%Z -> (q == k # 4)%Q -> (round64 q == k # 4)%Q.
Proof.
  intros Hk Hq. rewrite (round64_comp q (k # 4) Hq).
  assert (H : (k = 1 \/ k = 2 \/ k = 3 \/ k = 4 \/ k = 5 \/ k = 6 \/ k = 7
               \/ k = 8 \/ k = 9 \/ k = 10 \/ k = 11 \/ k = 12 \/ k = 13)%Z)
    by lia.
  repeat (destruct H as [-> | H]; [vm_compute; reflexivity|]).
  subst k. vm_compute. reflexivity.
Qed.

Lemma percent_quarter (k : Z) (s : Q) :
  (2 <= k <= 12)%Z -> (s == k # 4)%Q -> percent s = (25 * k)%Z.
Proof.
  intros Hk Hs. unfold percent, Math_round.
  assert (E : (s * 100 == inject_Z (25 * k))%Q).
  { rewrite Hs. unfold Qeq; simpl. lia. }
  rewrite (round64_comp _ _ E).
  rewrite (Qfloor_comp _ (inject_Z (25 * k) + (1 # 2))).
  - apply floor_half.
  - rewrite round64_int by lia. reflexivity.
Qed.

(** One action keeps the zoom factor a multiple of a quarter between one
    half and three. *)
Lemma step_quarters (s : Q) (k : Z) (a : Action) :
  (2 <= k <= 12)%Z -> (s == k # 4)%Q ->
  exists k', (2 <= k' <= 12)%Z /\ (step s a == k' # 4)%Q.
Proof.
  intros Hk Hs. destruct a; cbn [step].
  - unfold zoomOut.
    assert (E : (round64 (s - (1 # 4)) == (k - 1) # 4)%Q).
    { apply quarter_exact; [lia|]. rewrite Hs. unfold Qeq; simpl. lia. }
    destruct (Z.eq_dec k 2%Z) as [->|Hne].
    + exists 2%Z. split; [lia|]. rewrite E.
      rewrite Q.max_l; [reflexivity | unfold Qle; simpl; lia].
    + exists (k - 1)%Z. split; [lia|]. rewrite E.
      rewrite Q.max_r; [reflexivity | unfold Qle; simpl; lia].
  - unfold zoomIn.
    assert (E : (round64 (s + (1 # 4)) == (k + 1) # 4)%Q).
    { apply quarter_exact; [lia|]. rewrite Hs. unfold Qeq; simpl. lia. }
    destruct (Z.eq_dec k 12%Z) as [->|Hne].
    + exists 12%Z. split; [lia|]. rewrite E.
      rewrite Q.min_l; [reflexivity | unfold Qle; simpl; lia].
    + exists (k + 1)%Z. split; [lia|]. rewrite E.
      rewrite Q.min_r; [reflexivity | unfold Qle; simpl; lia].
  - exists 4%Z. split; [lia | reflexivity].
Qed.

Lemma fold_quarters (actions : list Action) : forall (s : Q) (k : Z),
  (2 <= k <= 12)%Z -> (s == k # 4)%Q ->
  exists k', (2 <= k' <= 12)%Z /\ (fold_left step actions s == k' # 4)%Q.
Proof.
  induction actions as [|a actions IH]; intros s k Hk Hs; simpl.
  - exists k. auto.
  - destruct (step_quarters s k a Hk Hs) as (k' & Hk' & Hs').
    apply (IH _ k' Hk' Hs').
Qed.

(** X2. Whatever the user does, the zoom factor stays between 0.5 and 3 and
    is a multiple of 0.25, and the percentage shown is the matching multiple
    of 25 between 50 and 300. *)
Theorem zoom_reachable :
  forall actions : list Action,
    exists k : Z,
      (2 <= k <= 12)%Z
      /\ (scale_after actions == k # 4)%Q
      /\ (1 # 2 <= scale_after actions <= 3)%Q
      /\ percent (scale_after actions) = (25 * k)%Z.
Proof.
  intros actions. unfold scale_after.
  destruct (fold_quarters actions 1%Q 4%Z) as (k & Hk & Hs);
    [lia | reflexivity |].
  exists k. split; [exact Hk|]. split; [exact Hs|]. split.
  - rewrite Hs. unfold Qle; simpl. lia.
  - apply percent_quarter; assumption.
Qed.

(** X3. On the zoom factors that can occur, the multiples [k/4] of a quarter
    between one half and three, zooming in and then out, or out and then
    in, gives back the zoom factor unless the first step hits a limit; at
    the limits the factor stays where it is. *)
Theorem zoom_in_out :
  forall (s : Q) (k : Z),
    (2 <= k <= 12)%Z -> (s == k # 4)%Q ->
    ((k <= 11)%Z -> (zoomOut (zoomIn s) == s)%Q)
    /\ ((3 <= k)%Z -> (zoomIn (zoomOut s) == s)%Q)
    /\ (k = 12%Z -> (zoomIn s == s)%Q)
    /\ (k = 2%Z -> (zoomOut s == s)%Q).
Proof.
  intros s k Hk Hs.
  assert (Hin : (round64 (s + (1 # 4)) == (k + 1) # 4)%Q).
  { apply quarter_exact; [lia|]. rewrite Hs. unfold Qeq; simpl. lia. }
  assert (Hout : (round64 (s - (1 # 4)) == (k - 1) # 4)%Q).
  { apply quarter_exact; [lia|]. rewrite Hs. unfold Qeq; simpl. lia. }
  split; [|split; [|split]].
  - intros H.
    assert (E : (Qmin 3 (round64 (s + (1 # 4))) == (k + 1) # 4)%Q)
      by (rewrite Hin; apply Q.min_r; unfold Qle; simpl; lia).
    assert (E' : (round64 (Qmin 3 (round64 (s + (1 # 4))) - (1 # 4))
                  == k # 4)%Q).
    { apply quarter_exact; [lia|]. rewrite E. unfold Qeq; simpl. lia. }
    unfold zoomOut, zoomIn. rewrite E', Hs. apply Q.max_r.
    unfold Qle; simpl. lia.
  - intros H.
    assert (E : (Qmax (1 # 2) (round64 (s - (1 # 4))) == (k - 1) # 4)%Q)
      by (rewrite Hout; apply Q.max_r; unfold Qle; simpl; lia).
    assert (E' : (round64 (Qmax (1 # 2) (round64 (s - (1 # 4))) + (1 # 4))
                  == k # 4)%Q).
    { apply quarter_exact; [lia|]. rewrite E. unfold Qeq; simpl. lia. }
    unfold zoomIn, zoomOut. rewrite E', Hs. apply Q.min_r.
    unfold Qle; simpl. lia.
  - intros ->. unfold zoomIn. rewrite Hin, Hs. reflexivity.
  - intros ->. unfold zoomOut. rewrite Hout, Hs. reflexivity.
Qed.

Lemma zoom_in_out_witness :
  (zoomOut (zoomIn 1) == 1)%Q /\ (zoomIn (zoomOut 1) == 1)%Q.
Proof.
  destruct (zoom_in_out 1%Q 4%Z ltac:(lia) ltac:(reflexivity))
    as (H1 & H2 & _).
  split; [apply H1; lia | apply H2; lia].
Defined.

End ViewerFacts.

(** ** More on the table extractor *)

Module TableFacts.
Import Markdown Layout MarkdownFacts.

(** *** Trimming *)

Lemma trimStart_split (s : jsstring) :
  exists sp, s = sp ++ trimStart s /\ forallb is_space sp = true.
Proof.
  induction s as [|c s (sp & Hs & Hsp)]; simpl.
  - exists []. auto.
  - destruct (is_space c) eqn:Hc.
    + exists (c :: sp). simpl. rewrite Hc, Hsp. split; [congruence | reflexivity].
    + exists []. auto.
Qed.

Lemma trimStart_edge (s : jsstring) : edge_ok (trimStart s) = true.
Proof.
  induction s as [|c s IH]; simpl; [reflexivity|].
  destruct (is_space c) eqn:Hc; [exact IH|]. simpl. rewrite Hc. reflexivity.
Qed.

Lemma trimStart_id (s : jsstring) : edge_ok s = true -> trimStart s = s.
Proof.
  destruct s as [|c s]; simpl; [reflexivity|].
  intros H. apply negb_true_iff in H. rewrite H. reflexivity.
Qed.

Lemma trimEnd_id (s : jsstring) : edge_ok (rev s) = true -> trimEnd s = s.
Proof.
  intros H. unfold trimEnd. rewrite (trimStart_id _ H). apply rev_involutive.
Qed.

Lemma trimEnd_split (s : jsstring) :
  exists sp, s = trimEnd s ++ sp /\ forallb is_space sp = true.
Proof.
  destruct (trimStart_split (rev s)) as (sp & Hs & Hsp).
  exists (rev sp). split.
  - unfold trimEnd. rewrite <- rev_app_distr, <- Hs. symmetry. apply rev_involutive.
  - apply forallb_forall. intros c Hc. rewrite forallb_forall in Hsp.
    apply Hsp, in_rev, Hc.
Qed.

(** A string without white space at its ends is left as it is. *)
Lemma trim_id (s : jsstring) :
  edge_ok s = true -> edge_ok (rev s) = true -> trim s = s.
Proof.
  intros H1 H2. unfold trim. rewrite (trimStart_id s H1). apply trimEnd_id, H2.
Qed.

(** What [trim] returns has no white space at its ends. *)
Lemma trim_edges (s : jsstring) :
  edge_ok (trim s) = true /\ edge_ok (rev (trim s)) = true.
Proof.
  unfold trim. split.
  - pose proof (trimStart_edge s) as He.
    destruct (trimEnd_split (trimStart s)) as (sp & Hs & _).
    destruct (trimEnd (trimStart s)) as [|c t]; [reflexivity|].
    rewrite Hs in He. exact He.
  - unfold trimEnd. rewrite rev_involutive. apply trimStart_edge.
Qed.

Lemma trim_idempotent (s : jsstring) : trim (trim s) = trim s.
Proof. destruct (trim_edges s). apply trim_id; assumption. Qed.

Lemma trim_In (s : jsstring) (c : N) : In c (trim s) -> In c s.
Proof.
  unfold trim. intros H.
  destruct (trimStart_split s) as (sp & Hs & _).
  destruct (trimEnd_split (trimStart s)) as (sp' & Hs' & _).
  rewrite Hs, Hs', !in_app_iff. auto.
Qed.

(** *** Splitting *)

Lemma split_not_nil (sep : N) (s : jsstring) : split sep s <> [].
Proof.
  induction s as [|c s IH]; simpl; [discriminate|].
  destruct (c =? sep)%N; [discriminate|].
  destruct (split sep s); [contradiction | discriminate].
Qed.

Lemma split_pieces (sep : N) (s w : jsstring) (c : N) :
  In w (split sep s) -> In c w -> In c s /\ c <> sep.
Proof.
  revert w. induction s as [|x s IH]; simpl; intros w Hw Hc.
  - destruct Hw as [<- | []]. destruct Hc.
  - destruct (N.eqb_spec x sep) as [->|Hne].
    + destruct Hw as [<- | Hw]; [destruct Hc|].
      destruct (IH w Hw Hc). auto.
    + destruct (split sep s) as [|w0 ws] eqn:E.
      * destruct Hw as [<- | []]. destruct Hc as [<- | []]. auto.
      * destruct Hw as [<- | Hw].
        -- destruct Hc as [<- | Hc]; [auto|].
           destruct (IH w0 (or_introl eq_refl) Hc). auto.
        -- destruct (IH w (or_intror Hw) Hc). auto.
Qed.

Lemma split_length (sep : N) (s : jsstring) :
  length (split sep s) = S (length (List.filter (fun c => (c =? sep)%N) s)).
Proof.
  induction s as [|x s IH]; simpl; [reflexivity|].
  destruct (x =? sep)%N; simpl; [rewrite IH; reflexivity|].
  destruct (split sep s) as [|w ws] eqn:E; [destruct (split_not_nil _ _ E)|].
  simpl in *. exact IH.
Qed.

Lemma removelast_length {A} (l : list A) :
  length (removelast l) = pred (length l).
Proof.
  induction l as [|a l IH]; [reflexivity|].
  destruct l as [|b l]; [reflexivity|].
  change (length (removelast (a :: b :: l))) with (S (length (removelast (b :: l)))).
  rewrite IH. reflexivity.
Qed.

(** A line with [n] pipes is cut into [n - 1] cells. *)
Lemma cells_of_length (line : jsstring) :
  length (cells_of line) = (count_pipes line - 1)%nat.
Proof.
  unfold cells_of, slice_1_m1, count_pipes.
  rewrite length_map, removelast_length.
  pose proof (split_length c_pipe line) as H.
  destruct (split c_pipe line) as [|w ws]; simpl in *; lia.
Qed.

Lemma cells_of_cell (line cell : jsstring) :
  In cell (cells_of line) ->
  trim cell = cell /\ forall c, In c cell -> In c line /\ c <> c_pipe.
Proof.
  unfold cells_of, slice_1_m1. intros (w & <- & Hw)%in_map_iff.
  split; [apply trim_idempotent|].
  intros c Hc%trim_In.
  apply (split_pieces c_pipe line w c); [|exact Hc].
  destruct (split c_pipe line) as [|w0 ws]; [destruct Hw|].
  right. simpl in Hw. clear -Hw.
  induction ws as [|a ws IH]; [destruct Hw|].
  destruct ws as [|b ws]; [destruct Hw|].
  destruct Hw as [<- | Hw]; [left; reflexivity | right; apply IH, Hw].
Qed.

Lemma line_at_In (markdown : jsstring) (k : nat) (c : N) :
  In c (line_at markdown k) -> c <> c_newline.
Proof.
  unfold line_at, lines_of. intros Hc%trim_In.
  destruct (nth_in_or_default k (split c_newline markdown) []) as [Hin | Hd].
  - apply (split_pieces c_newline markdown _ c Hin Hc).
  - rewrite Hd in Hc. destruct Hc.
Qed.

(** *** The rows that are returned *)

Lemma parse_rows (markdown : jsstring) (rows : list Row) :
  parseMarkdownTable markdown = Some rows ->
  rows = List.map (fun k => cells_of (line_at markdown k)) (contributing markdown)
  /\ rows <> [].
Proof.
  unfold parseMarkdownTable. rewrite table_scan_rows.
  destruct (List.map _ (contributing markdown)) as [|r rs]; simpl; [discriminate|].
  intros [= <-]. split; [reflexivity | discriminate].
Qed.

(** X4. A table that is returned is never empty, and none of its cells
    contains a pipe or a newline or has white space at either end. *)
Theorem table_cells_clean :
  forall (markdown : jsstring) (rows : list Row),
    parseMarkdownTable markdown = Some rows ->
    rows <> []
    /\ forall row cell,
         In row rows -> In cell row ->
         trim cell = cell
         /\ ~ In c_pipe cell /\ ~ In c_newline cell.
Proof.
  intros markdown rows [-> Hne]%parse_rows. split; [exact Hne|].
  intros row cell (k & <- & _)%in_map_iff Hcell.
  destruct (cells_of_cell _ _ Hcell) as [Htrim Hin].
  split; [exact Htrim|]. split.
  - intros H. destruct (Hin _ H) as [_ Hp]. congruence.
  - intros H. destruct (Hin _ H) as [Hl _].
    apply line_at_In in Hl. congruence.
Qed.

Lemma table_cells_clean_witness :
  trim (lit "A") = lit "A"
  /\ ~ In c_pipe (lit "A") /\ ~ In c_newline (lit "A").
Proof.
  apply (proj2 (table_cells_clean example_markdown
                  [[lit "A"; lit "B"]; [lit "1"; lit "2"]]
                  ltac:(vm_compute; reflexivity))
           [lit "A"; lit "B"] (lit "A")).
  - left. reflexivity.
  - left. reflexivity.
Defined.

(** X5. Rows are not brought to a common width: the row taken from a line
    has one cell less than the line has pipes, whatever the other rows
    have. *)
Theorem table_rows_ragged :
  forall (markdown : jsstring) (rows : list Row),
    parseMarkdownTable markdown = Some rows ->
    length rows = length (contributing markdown)
    /\ forall n k row,
         contributing markdown !! n = Some k -> rows !! n = Some row ->
         length row = (count_pipes (line_at markdown k) - 1)%nat.
Proof.
  intros markdown rows [-> _]%parse_rows. split; [apply length_map|].
  intros n k row Hk Hrow.
  assert (E : List.map (fun k => cells_of (line_at markdown k))
                (contributing markdown) !! n
              = Some (cells_of (line_at markdown k))).
  { clear Hrow. revert n Hk.
    induction (contributing markdown) as [|a l IH]; intros [|n] Hk;
      simpl in *; try discriminate.
    - injection Hk as ->. reflexivity.
    - apply IH, Hk. }
  assert (Hx : Some row = Some (cells_of (line_at markdown k)))
    by (rewrite <- Hrow; exact E).
  injection Hx as ->. apply cells_of_length.
Qed.

Lemma table_rows_ragged_witness :
  length [lit "B"] = (count_pipes (line_at gapped_markdown 2) - 1)%nat.
Proof.
  apply (proj2 (table_rows_ragged gapped_markdown [[lit "A"]; [lit "B"]]
                  ltac:(vm_compute; reflexivity))
           1%nat 2%nat [lit "B"]).
  - vm_compute. reflexivity.
  - reflexivity.
Defined.

(** The least index with a decidable property. *)
Lemma below_or_none (P : nat -> bool) (n : nat) :
  (forall i, (i < n)%nat -> P i = false)
  \/ exists m, (m < n)%nat /\ P m = true.
Proof.
  induction n as [|n [IH | (m & Hm & HP)]].
  - left. intros i Hi. lia.
  - destruct (P n) eqn:Hn.
    + right. exists n. split; [lia | exact Hn].
    + left. intros i Hi. destruct (Nat.eq_dec i n) as [->|Hne]; [exact Hn|].
      apply IH. lia.
  - right. exists m. split; [lia | exact HP].
Qed.

Lemma least_index (P : nat -> bool) (n : nat) :
  P n = true -> exists k, P k = true /\ forall i, (i < k)%nat -> P i = false.
Proof.
  induction n as [n IH] using lt_wf_ind. intros Hn.
  destruct (below_or_none P n) as [Hnone | (m & Hm & HP)].
  - exists n. auto.
  - apply (IH m Hm HP).
Qed.

(** X6. The result is [null] exactly when no line of the text, trimmed,
    starts and ends with a pipe without being a separator line; a text that
    holds separator lines only gives [null]. *)
Theorem table_absent_iff :
  forall markdown : jsstring,
    parseMarkdownTable markdown = None <->
    forall k, is_row_line (line_at markdown k) = false.
Proof.
  intros markdown. split.
  - intros Hnone k. destruct (is_row_line (line_at markdown k)) eqn:Hk;
      [|reflexivity].
    destruct (least_index (fun i => is_row_line (line_at markdown i)) k Hk)
      as (k0 & Hk0 & Hleast).
    assert (Hin : In k0 (contributing markdown)).
    { apply contributing_iff. split; [exact Hk0|].
      intros i j Hij Hi. rewrite Hleast in Hi by lia. discriminate Hi. }
    unfold parseMarkdownTable in Hnone. rewrite table_scan_rows in Hnone.
    destruct (contributing markdown); [destruct Hin | discriminate Hnone].
  - intros Hno. unfold parseMarkdownTable. rewrite table_scan_rows.
    destruct (contributing markdown) as [|k l] eqn:E; [reflexivity|].
    assert (Hin : In k (contributing markdown)) by (rewrite E; left; reflexivity).
    apply contributing_iff in Hin as [Hrow _]. rewrite Hno in Hrow.
    discriminate Hrow.
Qed.

(** *** Reading back a table in the usual layout *)

Lemma split_app (sep : N) (a b : jsstring) :
  split sep (a ++ sep :: b) = split sep a ++ split sep b.
Proof.
  induction a as [|c a IH]; simpl.
  - rewrite N.eqb_refl. reflexivity.
  - destruct (c =? sep)%N; [rewrite IH; reflexivity|].
    rewrite IH.
    destruct (split sep a) as [|w ws] eqn:E; [destruct (split_not_nil _ _ E)|].
    reflexivity.
Qed.

Lemma split_none (sep : N) (a : jsstring) :
  ~ In sep a -> split sep a = [a].
Proof.
  induction a as [|c a IH]; simpl; intros H; [reflexivity|].
  destruct (N.eqb_spec c sep) as [->|Hne]; [tauto|].
  rewrite IH by tauto. reflexivity.
Qed.

Lemma split_join (sep : N) (lines : list jsstring) :
  lines <> [] -> (forall l, In l lines -> ~ In sep l) ->
  split sep (Reconcile.join [sep] lines) = lines.
Proof.
  induction lines as [|l lines IH]; intros Hne Hall; [congruence|].
  destruct lines as [|l2 lines].
  - simpl. apply split_none, Hall. left. reflexivity.
  - change (Reconcile.join [sep] (l :: l2 :: lines))
      with (l ++ sep :: Reconcile.join [sep] (l2 :: lines)).
    rewrite split_app, IH.
    + rewrite split_none by (apply Hall; left; reflexivity). reflexivity.
    + discriminate.
    + intros l' Hl'. apply Hall. right. exact Hl'.
Qed.

Lemma plain_cell_spec (c : jsstring) :
  plain_cell c = true ->
  ~ In c_pipe c /\ ~ In c_newline c /\ edge_ok c = true /\ edge_ok (rev c) = true.
Proof.
  unfold plain_cell. intros [[Hall H1]%andb_prop H2]%andb_prop.
  rewrite forallb_forall in Hall. repeat split; auto.
  - intros Hin. specialize (Hall _ Hin). rewrite N.eqb_refl in Hall.
    discriminate Hall.
  - intros Hin. specialize (Hall _ Hin). rewrite N.eqb_refl, andb_false_r in Hall.
    discriminate Hall.
Qed.

(** A cell between two spaces is recovered by trimming. *)
Lemma trim_padded (c : jsstring) :
  edge_ok c = true -> edge_ok (rev c) = true ->
  trim (lit " " ++ c ++ lit " ") = c.
Proof.
  intros H1 H2. unfold trim.
  change (trimStart (lit " " ++ c ++ lit " ")) with (trimStart (c ++ [32%N])).
  destruct c as [|x c].
  - reflexivity.
  - rewrite (trimStart_id ((x :: c) ++ [32%N])) by exact H1.
    unfold trimEnd. rewrite rev_app_distr.
    change (trimStart (rev [32%N] ++ rev (x :: c)))
      with (trimStart (rev (x :: c))).
    rewrite (trimStart_id _ H2). apply rev_involutive.
Qed.

Lemma padded_cell (c rest : jsstring) :
  (lit " " ++ c ++ lit " |") ++ rest
  = (lit " " ++ c ++ lit " ") ++ c_pipe :: rest.
Proof.
  change (lit " |") with (lit " " ++ [c_pipe]).
  rewrite <- !app_assoc. reflexivity.
Qed.

Lemma split_layout_cells (cells : list jsstring) :
  (forall c, In c cells -> ~ In c_pipe c) ->
  split c_pipe (flat_map (fun c => lit " " ++ c ++ lit " |") cells)
  = List.map (fun c => lit " " ++ c ++ lit " ") cells ++ [[]].
Proof.
  induction cells as [|c cells IH]; intros Hall; [reflexivity|].
  cbn [flat_map List.map].
  rewrite padded_cell, split_app.
  rewrite IH by (intros c' Hc'; apply Hall; right; exact Hc').
  rewrite split_none; [reflexivity|].
  intros [H | H]%in_app_iff.
  - destruct H as [H | []]. discriminate H.
  - apply in_app_iff in H as [H | [H | []]]; [|discriminate H].
    apply (Hall c); [left; reflexivity | exact H].
Qed.

Lemma cells_of_layout_row (cells : list jsstring) :
  forallb plain_cell cells = true ->
  cells_of (layout_row cells) = cells.
Proof.
  intros Hall. rewrite forallb_forall in Hall.
  unfold cells_of, layout_row, slice_1_m1.
  change (split c_pipe (c_pipe :: flat_map (fun c => lit " " ++ c ++ lit " |") cells))
    with ([] :: split c_pipe (flat_map (fun c => lit " " ++ c ++ lit " |") cells)).
  rewrite split_layout_cells.
  - simpl tl. rewrite removelast_last, List.map_map.
    rewrite <- (map_id cells) at 2. apply map_ext_in.
    intros c Hc. destruct (plain_cell_spec c (Hall c Hc)) as (_ & _ & H1 & H2).
    apply trim_padded; assumption.
  - intros c Hc. apply (plain_cell_spec c (Hall c Hc)).
Qed.

Lemma layout_row_ends (cells : list jsstring) :
  exists t, layout_row cells = t ++ [c_pipe].
Proof.
  unfold layout_row.
  destruct cells as [|c0 cells] using rev_ind.
  - exists []. reflexivity.
  - exists (c_pipe :: flat_map (fun c => lit " " ++ c ++ lit " |") cells
              ++ lit " " ++ c0 ++ lit " ").
    rewrite flat_map_app. cbn [flat_map]. rewrite app_nil_r.
    change (lit " |") with (lit " " ++ [c_pipe]).
    change (c_pipe :: ?a ++ ?b) with ((c_pipe :: a) ++ b).
    change (c_pipe :: ?a ++ ?b) with ((c_pipe :: a) ++ b).
    rewrite <- !app_assoc. reflexivity.
Qed.

Lemma layout_row_line (cells : list jsstring) :
  trim (layout_row cells) = layout_row cells
  /\ is_pipe_line (layout_row cells) = true.
Proof.
  destruct (layout_row_ends cells) as [t Ht].
  assert (Hrev : rev (layout_row cells) = c_pipe :: rev t)
    by (rewrite Ht, rev_app_distr; reflexivity).
  split.
  - apply trim_id; [reflexivity | rewrite Hrev; reflexivity].
  - unfold is_pipe_line, endsWith. rewrite Hrev. reflexivity.
Qed.

Lemma layout_row_no_newline (cells : list jsstring) :
  forallb plain_cell cells = true -> ~ In c_newline (layout_row cells).
Proof.
  intros Hall. rewrite forallb_forall in Hall. unfold layout_row.
  intros H. destruct H as [H | H]; [discriminate H|].
  apply in_flat_map in H as (c & Hc & H).
  destruct (plain_cell_spec c (Hall c Hc)) as (_ & Hnl & _).
  apply in_app_iff in H as [H | H]; [destruct H as [H | []]; discriminate H|].
  apply in_app_iff in H as [H | [H | [H | []]]]; try discriminate H.
  contradiction.
Qed.

(** The loop on the lines of a laid out table: every line gives its row. *)
Lemma scan_layout (rows : list (list jsstring)) (tail : list jsstring) :
  forallb plain_row rows = true ->
  (forall i data, scan tail i true data = data) ->
  forall i ts data,
    rows <> [] ->
    List.map snd (scan (List.map layout_row rows ++ tail) i ts data)
    = List.map snd data ++ rows.
Proof.
  intros Hrows Htail. induction rows as [|cells rows IH]; intros i ts data Hne;
    [congruence|].
  simpl in Hrows. apply andb_prop in Hrows as [Hrow Hrows].
  unfold plain_row in Hrow. apply andb_prop in Hrow as [Hcells Hsep].
  apply negb_true_iff in Hsep.
  destruct (layout_row_line cells) as [Htrim Hpipe].
  simpl. rewrite Htrim, Hpipe, Hsep, (cells_of_layout_row cells Hcells).
  destruct rows as [|cells' rows].
  - simpl. rewrite Htail, List.map_app. reflexivity.
  - rewrite (IH Hrows) by discriminate.
    rewrite List.map_app, <- app_assoc. reflexivity.
Qed.

(** Before the first row, a line that gives no row is passed over. *)
Lemma scan_skip (lines more : list jsstring) :
  forallb (fun l => negb (is_row_line (trim l))) lines = true ->
  forall i data,
    scan (lines ++ more) i false data = scan more (i + length lines) false data.
Proof.
  induction lines as [|l lines IH]; intros Hall i data; simpl.
  - rewrite Nat.add_0_r. reflexivity.
  - simpl in Hall. apply andb_prop in Hall as [Hl Hall].
    apply negb_true_iff in Hl. unfold is_row_line in Hl.
    replace (i + S (length lines))%nat with (S i + length lines)%nat by lia.
    destruct (is_pipe_line (trim l)).
    + destruct (is_separator (trim l)); [|discriminate Hl]. apply IH, Hall.
    + apply IH, Hall.
Qed.

(** X7. A table written in the usual layout is read back as it is: if the
    grid is not empty, no cell holds a pipe or a newline or has white space
    at an end, and no row looks like a separator line, then the extractor
    returns the grid, also when a blank line and any further text follow the
    table, and when text without row lines precedes it. *)
Theorem layout_read_back :
  forall rows : list (list jsstring),
    rows <> [] ->
    forallb plain_row rows = true ->
    parseMarkdownTable (layout rows) = Some rows
    /\ (forall rest,
          parseMarkdownTable (layout rows ++ [c_newline; c_newline] ++ rest)
          = Some rows)
    /\ forall before rest,
         no_rows before = true ->
         parseMarkdownTable
           (before ++ [c_newline] ++ layout rows
              ++ [c_newline; c_newline] ++ rest)
         = Some rows.
Proof.
  intros rows Hne Hrows.
  assert (Hnl : forall l, In l (List.map layout_row rows) -> ~ In c_newline l).
  { intros l (cells & <- & Hc)%in_map_iff. apply layout_row_no_newline.
    rewrite forallb_forall in Hrows. specialize (Hrows _ Hc).
    unfold plain_row in Hrows. apply andb_prop in Hrows as [H _]. exact H. }
  assert (Hlines : split c_newline (layout rows) = List.map layout_row rows).
  { apply split_join; [|exact Hnl]. destruct rows; [congruence | discriminate]. }
  assert (Hsome : forall rs : list Row, rs <> [] ->
            (if (0 <? length rs)%nat then Some rs else None) = Some rs).
  { intros [|r rs] H; [congruence | reflexivity]. }
  assert (Htail : forall rest,
            split c_newline (layout rows ++ [c_newline; c_newline] ++ rest)
            = List.map layout_row rows ++ [] :: split c_newline rest).
  { intros rest.
    change (layout rows ++ [c_newline; c_newline] ++ rest)
      with (layout rows ++ c_newline :: c_newline :: rest).
    rewrite split_app, Hlines. reflexivity. }
  split; [|split].
  - unfold parseMarkdownTable, table_scan, lines_of. rewrite Hlines.
    rewrite <- (app_nil_r (List.map layout_row rows)).
    rewrite (scan_layout rows [] Hrows) by (reflexivity || exact Hne).
    apply Hsome, Hne.
  - intros rest. unfold parseMarkdownTable, table_scan, lines_of.
    rewrite Htail.
    rewrite (scan_layout rows ([] :: split c_newline rest) Hrows)
      by (reflexivity || exact Hne).
    apply Hsome, Hne.
  - intros before rest Hbefore.
    unfold parseMarkdownTable, table_scan, lines_of.
    change (before ++ [c_newline] ++ layout rows
              ++ [c_newline; c_newline] ++ rest)
      with (before ++ c_newline
              :: (layout rows ++ [c_newline; c_newline] ++ rest)).
    rewrite split_app, Htail, (scan_skip _ _ Hbefore).
    rewrite (scan_layout rows ([] :: split c_newline rest) Hrows)
      by (reflexivity || exact Hne).
    apply Hsome, Hne.
Qed.

Lemma layout_read_back_witness :
  parseMarkdownTable
    (lit "Summary of the join:" ++ [c_newline]
       ++ layout [[lit "Invoice"; lit "Amount"]; [lit "INV-7"; lit "12.50"]]
       ++ [c_newline; c_newline] ++ lit "Trailing text")
  = Some [[lit "Invoice"; lit "Amount"]; [lit "INV-7"; lit "12.50"]].
Proof.
  apply (proj2 (proj2 (layout_read_back
                  [[lit "Invoice"; lit "Amount"]; [lit "INV-7"; lit "12.50"]]
                  ltac:(discriminate) ltac:(vm_compute; reflexivity)))).
  vm_compute. reflexivity.
Defined.

End TableFacts.

(** ** More on the names of the archive entries *)

Module NameFacts.
Import Packager PackagerFacts SheetFacts.

Lemma lastIndexOf_None (c : N) (s : jsstring) :
  lastIndexOf c s = None <-> ~ In c s.
Proof.
  induction s as [|c' s IH]; simpl; [tauto|].
  destruct (lastIndexOf c s) as [i|].
  - split; [discriminate|]. intros H. exfalso.
    assert (Hs : ~ In c s) by tauto. apply IH in Hs. discriminate Hs.
  - destruct (N.eqb_spec c' c) as [->|Hne].
    + split; [discriminate | tauto].
    + split; [|reflexivity]. intros _ [H | H]; [congruence|].
      destruct IH as [IH _]. apply IH; auto.
Qed.

Lemma lastIndexOf_last (c : N) (t : jsstring) :
  ~ In c t -> forall b, lastIndexOf c (b ++ c :: t) = Some (length b).
Proof.
  intros Ht. apply lastIndexOf_None in Ht.
  induction b as [|x b IH]; simpl.
  - rewrite Ht, N.eqb_refl. reflexivity.
  - rewrite IH. reflexivity.
Qed.

Lemma lastIndexOf_Some (c : N) (s : jsstring) :
  forall i, lastIndexOf c s = Some i ->
    exists b t, s = b ++ c :: t /\ length b = i /\ ~ In c t.
Proof.
  induction s as [|c' s IH]; simpl; intros i; [discriminate|].
  destruct (lastIndexOf c s) as [k|] eqn:E.
  - intros [= <-]. destruct (IH k eq_refl) as (b & t & -> & <- & Ht).
    exists (c' :: b), t. auto.
  - destruct (N.eqb_spec c' c) as [->|Hne]; [|discriminate].
    intros [= <-]. exists [], s. repeat split. apply lastIndexOf_None, E.
Qed.

Lemma dot_split_last (base t : jsstring) :
  ~ In c_dot t -> dot_split (base ++ c_dot :: t) = (base, c_dot :: t).
Proof.
  intros Ht. unfold dot_split, substring_to, substring_from, char in *.
  rewrite (lastIndexOf_last c_dot t Ht base).
  rewrite take_app_length, drop_app_length. reflexivity.
Qed.

Lemma dot_split_none (name : jsstring) :
  ~ In c_dot name -> dot_split name = (name, []).
Proof.
  intros H. apply lastIndexOf_None in H. unfold dot_split. rewrite H.
  reflexivity.
Qed.

Lemma dot_split_cases (name : jsstring) :
  (~ In c_dot name /\ dot_split name = (name, []))
  \/ exists base t,
       name = base ++ c_dot :: t /\ ~ In c_dot t
       /\ dot_split name = (base, c_dot :: t).
Proof.
  destruct (lastIndexOf c_dot name) as [i|] eqn:E.
  - right. destruct (lastIndexOf_Some _ _ _ E) as (b & t & -> & _ & Ht).
    exists b, t. repeat split; auto. apply dot_split_last, Ht.
  - left. apply lastIndexOf_None in E. split; [exact E|].
    apply dot_split_none, E.
Qed.

Lemma dot_split_app (name : jsstring) :
  (dot_split name).1 ++ (dot_split name).2 = name.
Proof.
  destruct (dot_split_cases name) as [[_ ->] | (b & t & E & _ & ->)]; simpl.
  - apply app_nil_r.
  - symmetry. exact E.
Qed.

(** X8. A name is cut at its last dot: the two parts give the name back,
    the extension is empty exactly when the name has no dot and otherwise is
    the last dot with what follows it; a base followed by a dot and a
    dot-free rest is cut into just these. *)
Theorem dot_split_parts :
  forall name : jsstring,
    (dot_split name).1 ++ (dot_split name).2 = name
    /\ ((dot_split name).2 = [] <-> ~ In c_dot name)
    /\ (In c_dot name ->
        exists t, (dot_split name).2 = c_dot :: t /\ ~ In c_dot t)
    /\ forall base t,
         name = base ++ c_dot :: t -> ~ In c_dot t ->
         dot_split name = (base, c_dot :: t).
Proof.
  intros name. split; [apply dot_split_app|]. split; [|split].
  - destruct (dot_split_cases name) as [[Hno ->] | (b & t & E & _ & ->)]; simpl.
    + tauto.
    + split; [discriminate|]. intros H. exfalso. apply H. rewrite E.
      apply in_app_iff. right. left. reflexivity.
  - intros Hin.
    destruct (dot_split_cases name) as [[Hno _] | (b & t & _ & Ht & ->)];
      [contradiction|].
    exists t. auto.
  - intros base t -> Ht. apply dot_split_last, Ht.
Qed.

(** *** What is stored under which name *)

Lemma pack_documents_payloads (documents : list DocumentResult) :
  forall st st',
    pack_documents st documents = Some st' ->
    List.map snd (docsFolder st')
    = List.map snd (docsFolder st) ++ List.map payload_of documents.
Proof.
  induction documents as [|doc rest IH]; intros st st'; simpl.
  - intros [= <-]. rewrite app_nil_r. reflexivity.
  - unfold pack_document. destruct (resolve_name st doc) as [u|]; [|discriminate].
    intros H. rewrite (IH _ _ H). simpl. rewrite List.map_app, <- app_assoc.
    reflexivity.
Qed.

Lemma resolves_shape (earlier : list jsstring) (name u : jsstring) :
  resolves earlier name u ->
  (dot_split name).1 `prefix_of` u /\ (dot_split name).2 `suffix_of` u.
Proof.
  intros [[_ ->] | (_ & n & _ & -> & _)].
  - split.
    + exists (dot_split name).2. symmetry. apply dot_split_app.
    + exists (dot_split name).1. symmetry. apply dot_split_app.
  - unfold numbered. split.
    + eexists. reflexivity.
    + exists ((dot_split name).1 ++ lit "_" ++ string_of_N n).
      rewrite <- !app_assoc. reflexivity.
Qed.

Lemma dot_split_annotated (name : jsstring) :
  dot_split (annotated_name name)
  = ((dot_split name).1 ++ lit "_annotated", lit ".jpg").
Proof.
  unfold annotated_name.
  change (lit "_annotated.jpg") with (lit "_annotated" ++ c_dot :: lit "jpg").
  rewrite app_assoc. apply dot_split_last.
  intros H. repeat (destruct H as [H | H]; [discriminate H|]). destruct H.
Qed.

(** X9. The documents folder receives one entry per document, in document
    order.  A document with an annotated image is stored as that image,
    under a name that starts with the base of its file name followed by
    [_annotated] and ends in [.jpg]; a document without one is stored as its
    original file, under a name that starts with the base of its file name
    and ends with its extension. *)
Theorem export_entries :
  forall documents : list DocumentResult,
    exists st,
      pack_documents empty_packing documents = Some st
      /\ List.map snd (docsFolder st) = List.map payload_of documents
      /\ forall i doc u,
           documents !! i = Some doc -> resolved_names st !! i = Some u ->
           match annotatedBlob doc with
           | Some blob =>
               payload_of doc = AnnotatedImage blob
               /\ ((dot_split (fileName doc)).1 ++ lit "_annotated") `prefix_of` u
               /\ lit ".jpg" `suffix_of` u
           | None =>
               payload_of doc = OriginalFile (file doc)
               /\ (dot_split (fileName doc)).1 `prefix_of` u
               /\ (dot_split (fileName doc)).2 `suffix_of` u
           end.
Proof.
  intros documents.
  destruct (pack_documents_spec documents empty_packing)
    as (st & new & Hst & _ & _ & Hnew & _ & Hall);
    [reflexivity | constructor |].
  exists st. split; [exact Hst|]. split.
  - rewrite (pack_documents_payloads documents _ _ Hst). reflexivity.
  - intros i doc u Hdoc Hu. simpl in Hnew. rewrite Hnew in Hu.
    specialize (Hall i doc u Hdoc Hu). apply resolves_shape in Hall.
    unfold payload_of, export_name in *.
    destruct (annotatedBlob doc) as [blob|].
    + rewrite dot_split_annotated in Hall. simpl in Hall. tauto.
    + tauto.
Qed.

(** *** Names that do not clash *)

Lemma pack_documents_distinct (documents : list DocumentResult) :
  forall st,
    usedFilenames st = list_to_set (resolved_names st) ->
    NoDup (resolved_names st ++ List.map export_name documents) ->
    exists st',
      pack_documents st documents = Some st'
      /\ resolved_names st'
         = resolved_names st ++ List.map export_name documents.
Proof.
  induction documents as [|doc rest IH]; intros st Hused Hnd; simpl.
  - exists st. rewrite app_nil_r. auto.
  - unfold pack_document.
    destruct (resolve_name_spec st doc Hused) as (u & -> & Hfree & Hres).
    assert (Hu : u = export_name doc).
    { destruct Hres as [[_ ->] | (Hin & _)]; [reflexivity|].
      exfalso. simpl in Hnd. apply NoDup_app in Hnd as (_ & Hdis & _).
      apply (Hdis _ Hin). left. }
    subst u.
    set (st1 := {| usedFilenames := {[export_name doc]} ∪ usedFilenames st;
                   filenameMap := <[doc_id doc:=export_name doc]> (filenameMap st);
                   docsFolder := docsFolder st
                                   ++ [(export_name doc, payload_of doc)] |}).
    assert (Hnames : resolved_names st1 = resolved_names st ++ [export_name doc]).
    { unfold resolved_names, st1; simpl. rewrite List.map_app. reflexivity. }
    destruct (IH st1) as (st' & Hrun & Hnew).
    + rewrite Hnames. simpl. rewrite Hused, list_to_set_app_L. simpl.
      rewrite (right_id_L ∅ (∪)). apply (comm_L (∪)).
    + rewrite Hnames, <- app_assoc. exact Hnd.
    + exists st'. split; [exact Hrun|].
      rewrite Hnew, Hnames, <- app_assoc. reflexivity.
Qed.

(** X10. No document is renamed without need: the resolved names are the
    candidate names themselves exactly when the candidate names are pairwise
    distinct. *)
Theorem export_renames_only_clashes :
  forall documents : list DocumentResult,
    exists st,
      pack_documents empty_packing documents = Some st
      /\ (resolved_names st = List.map export_name documents
          <-> NoDup (List.map export_name documents)).
Proof.
  intros documents.
  destruct (pack_documents_spec documents empty_packing)
    as (st & new & Hst & _ & Hnd & _);
    [reflexivity | constructor |].
  exists st. split; [exact Hst|]. split.
  - intros <-. exact Hnd.
  - intros Hdistinct.
    destruct (pack_documents_distinct documents empty_packing)
      as (st' & Hst' & Hnames); [reflexivity | exact Hdistinct |].
    rewrite Hst in Hst'. injection Hst' as <-. exact Hnames.
Qed.

(** *** The map from document ids to names *)

Lemma pack_documents_map_last (documents : list DocumentResult) :
  forall st st',
    pack_documents st documents = Some st' ->
    (forall id : jsstring,
       is_Some (filenameMap st' !! id)
       <-> is_Some (filenameMap st !! id) \/ In id (List.map doc_id documents))
    /\ forall i doc,
         documents !! i = Some doc ->
         (forall j d, (i < j)%nat -> documents !! j = Some d ->
            doc_id d <> doc_id doc) ->
         filenameMap st' !! doc_id doc
         = resolved_names st' !! (length (resolved_names st) + i)%nat.
Proof.
  induction documents as [|doc0 rest IH]; intros st st'; simpl.
  - intros [= <-]. split; [tauto|]. intros i doc H. destruct i; discriminate H.
  - unfold pack_document.
    destruct (resolve_name st doc0) as [u|] eqn:Hu; [|discriminate].
    set (st1 := {| usedFilenames := {[u]} ∪ usedFilenames st;
                   filenameMap := <[doc_id doc0:=u]> (filenameMap st);
                   docsFolder := docsFolder st ++ [(u, payload_of doc0)] |}).
    intros Hrun.
    assert (Hnames : resolved_names st1 = resolved_names st ++ [u]).
    { unfold resolved_names, st1; simpl. rewrite List.map_app. reflexivity. }
    destruct (IH st1 st' Hrun) as [Hdom Hlast]. split.
    + intros id. rewrite Hdom. unfold st1; simpl.
      destruct (decide (doc_id doc0 = id)) as [->|Hne].
      * rewrite lookup_insert_eq. split; [auto|]. intros _. left. eauto.
      * rewrite lookup_insert_ne by exact Hne. split.
        -- intros [H | H]; auto.
        -- intros [H | [H | H]]; auto. contradiction.
    + intros [|i] doc Hdoc Hlater; simpl in Hdoc.
      * injection Hdoc as <-.
        rewrite (pack_documents_map_other rest st1 st' (doc_id doc0) Hrun).
        -- unfold st1; simpl. rewrite lookup_insert_eq.
           destruct (pack_documents_names rest st1 st' Hrun) as [new ->].
           rewrite Hnames, Nat.add_0_r, <- app_assoc.
           rewrite lookup_app_r by lia. rewrite Nat.sub_diag. reflexivity.
        -- intros (d & Hd & Hin)%in_map_iff.
           apply list_elem_of_In, list_elem_of_lookup in Hin as [j Hj].
           apply (Hlater (S j) d); [lia | exact Hj | exact Hd].
      * rewrite (Hlast i doc Hdoc).
        -- rewrite Hnames, length_app. simpl. f_equal. lia.
        -- intros j d Hij Hd. apply (Hlater (S j) d); [lia | exact Hd].
Qed.

(** X11. The map that the hyperlinks are taken from has an entry for the id
    of every document and for nothing else; under an id it holds the name
    resolved for the last document with that id, so that of two documents
    with the same id the earlier one is linked to the file of the later. *)
Theorem filename_map_last_wins :
  forall documents : list DocumentResult,
    exists st,
      pack_documents empty_packing documents = Some st
      /\ (forall id : jsstring,
            is_Some (filenameMap st !! id)
            <-> In id (List.map doc_id documents))
      /\ forall i doc,
           documents !! i = Some doc ->
           (forall j d, (i < j)%nat -> documents !! j = Some d ->
              doc_id d <> doc_id doc) ->
           filenameMap st !! doc_id doc = resolved_names st !! i.
Proof.
  intros documents. destruct (pack_documents_total documents) as [st Hst].
  exists st. split; [exact Hst|].
  destruct (pack_documents_map_last documents empty_packing st Hst)
    as [Hdom Hlast].
  split.
  - intros id. rewrite Hdom. simpl. rewrite lookup_empty. split.
    + intros [[x H] | H]; [discriminate H | exact H].
    + auto.
  - intros i doc Hdoc Hlater. apply (Hlast i doc Hdoc Hlater).
Qed.

End NameFacts.

(** ** More on the audit sheet and the run *)

Module WorkbookFacts.
Import Packager PackagerFacts SheetFacts.

Lemma write_header_row (hdr : list jsstring) :
  forall (C0 : nat) (ws : gmap (nat * nat) Cell) (C : nat),
    write_header hdr C0 ws !! (0, C)%nat
    = if decide (C0 <= C)%nat then
        match hdr !! (C - C0)%nat with
        | Some h => Some {| cell_v := h; cell_l := None |}
        | None => ws !! (0, C)%nat
        end
      else ws !! (0, C)%nat.
Proof.
  induction hdr as [|h hdr IH]; intros C0 ws C; simpl.
  - destruct (decide _); reflexivity.
  - rewrite IH.
    destruct (decide (S C0 <= C)%nat) as [H1|H1];
      destruct (decide (C0 <= C)%nat) as [H0|H0]; try lia.
    + replace (C - C0)%nat with (S (C - S C0)) by lia. simpl.
      destruct (hdr !! (C - S C0)%nat); [reflexivity|].
      apply lookup_insert_ne. intros [= E]. lia.
    + assert (C = C0) as -> by lia. rewrite Nat.sub_diag. simpl.
      apply lookup_insert_eq.
    + apply lookup_insert_ne. intros [= E]. lia.
Qed.

Lemma json_to_sheet_rows (fields : list FieldDefinition)
    (documents : list DocumentResult) :
  exists ws : gmap (nat * nat) Cell,
    add_rows (dataRows fields documents) 1 (headers fields, ∅)
    = (headers fields, ws)
    /\ forall c, ws !! (0, c)%nat = None.
Proof.
  destruct (add_rows_spec (headers fields) (dataRows fields documents) 1 ∅
              (dataRows_ok fields documents)) as (ws & Hws & Hframe & _).
  exists ws. split; [exact Hws|].
  intros c. rewrite Hframe by lia. apply lookup_empty.
Qed.

Lemma json_to_sheet_parts (js : list JsObject) (header hdr : list jsstring)
    (ws : gmap (nat * nat) Cell) :
  add_rows js 1 (header, ∅) = (hdr, ws) ->
  cells (json_to_sheet js header) = write_header hdr 0 ws
  /\ last_row (json_to_sheet js header) = length js
  /\ last_col (json_to_sheet js header) = (length hdr - 1)%nat.
Proof.
  intros H. unfold json_to_sheet. rewrite H. auto.
Qed.

Lemma add_hyperlinks_row0 (documents : list DocumentResult)
    (fmap : gmap jsstring jsstring) (worksheet : Worksheet) (c : nat) :
  cells (add_hyperlinks documents fmap worksheet) !! (0, c)%nat
  = cells worksheet !! (0, c)%nat.
Proof.
  rewrite cells_add_hyperlinks.
  apply (add_hyperlinks_fold documents fmap (seq 1 (last_row worksheet))
           (cells worksheet) (NoDup_seq _ _)).
  right. rewrite in_seq. lia.
Qed.

(** X12. Whatever the fields and documents are, the audit sheet spans one
    row per document below the header row and one column per header, and
    its first row holds the headers in order, without links: the file name,
    the status, the field names, then the names of the coordinate columns. *)
Theorem audit_sheet_header :
  forall (fields : list FieldDefinition) (documents : list DocumentResult)
         (fmap : gmap jsstring jsstring),
    last_row (audit_sheet fields documents fmap) = length documents
    /\ last_col (audit_sheet fields documents fmap) = (1 + 2 * length fields)%nat
    /\ forall C,
         cells (audit_sheet fields documents fmap) !! (0, C)%nat
         = (fun h => {| cell_v := h; cell_l := None |}) <$> headers fields !! C.
Proof.
  intros fields documents fmap.
  destruct (json_to_sheet_rows fields documents) as (ws & Hws & Hrow0).
  destruct (json_to_sheet_parts _ _ _ _ Hws) as (Hcells & Hrows & Hcols).
  unfold audit_sheet. split; [|split].
  - simpl. rewrite Hrows. unfold dataRows. apply length_map.
  - simpl. rewrite Hcols. unfold headers. simpl.
    rewrite length_app, !length_map. lia.
  - intros C. rewrite add_hyperlinks_row0, Hcells, write_header_row.
    destruct (decide (0 <= C)%nat) as [_|H]; [|lia].
    replace (C - 0)%nat with C by lia.
    destruct (headers fields !! C); [reflexivity | apply Hrow0].
Qed.

(** *** Where the sheet has links *)

Lemma write_cell_no_link (v : jsstring) (ref : nat * nat)
    (ws : gmap (nat * nat) Cell) :
  (forall r cell, ws !! r = Some cell -> cell_l cell = None) ->
  forall r cell, write_cell v ref ws !! r = Some cell -> cell_l cell = None.
Proof.
  intros Hws r cell. unfold write_cell.
  destruct (ws !! ref) as [old|] eqn:E.
  - destruct (decide (ref = r)) as [->|Hne].
    + rewrite lookup_insert_eq. intros [= <-]. simpl. apply (Hws r old E).
    + rewrite lookup_insert_ne by exact Hne. apply Hws.
  - destruct (decide (ref = r)) as [->|Hne].
    + rewrite lookup_insert_eq. intros [= <-]. reflexivity.
    + rewrite lookup_insert_ne by exact Hne. apply Hws.
Qed.

Lemma add_row_no_link (R : nat) (row : JsObject) :
  forall (hdr : list jsstring) (ws : gmap (nat * nat) Cell),
    (forall r cell, ws !! r = Some cell -> cell_l cell = None) ->
    forall r cell,
      (fold_left (add_property R) row (hdr, ws)).2 !! r = Some cell ->
      cell_l cell = None.
Proof.
  induction row as [|[k v] row IH]; intros hdr ws Hws; simpl; [exact Hws|].
  destruct (indexOf k hdr) as [C|]; apply IH, write_cell_no_link, Hws.
Qed.

Lemma add_rows_no_link (js : list JsObject) :
  forall (R : nat) (acc : list jsstring * gmap (nat * nat) Cell),
    (forall r cell, acc.2 !! r = Some cell -> cell_l cell = None) ->
    forall r cell,
      (add_rows js R acc).2 !! r = Some cell -> cell_l cell = None.
Proof.
  induction js as [|JS js IH]; intros R [hdr ws] Hws; simpl; [exact Hws|].
  apply IH, add_row_no_link, Hws.
Qed.

Lemma write_header_no_link (hdr : list jsstring) :
  forall (C : nat) (ws : gmap (nat * nat) Cell),
    (forall r cell, ws !! r = Some cell -> cell_l cell = None) ->
    forall r cell,
      write_header hdr C ws !! r = Some cell -> cell_l cell = None.
Proof.
  induction hdr as [|h hdr IH]; intros C ws Hws; simpl; [exact Hws|].
  apply IH. intros r cell.
  destruct (decide ((0, C)%nat = r)) as [<-|Hne].
  - rewrite lookup_insert_eq. intros [= <-]. reflexivity.
  - rewrite lookup_insert_ne by exact Hne. apply Hws.
Qed.

Lemma json_to_sheet_no_link (js : list JsObject) (header : list jsstring) :
  forall r cell,
    cells (json_to_sheet js header) !! r = Some cell -> cell_l cell = None.
Proof.
  unfold json_to_sheet.
  pose proof (add_rows_no_link js 1 (header, ∅)) as H.
  destruct (add_rows js 1 (header, ∅)) as [hdr ws]. simpl in *.
  apply write_header_no_link, H.
  intros r cell Hr. rewrite lookup_empty in Hr. discriminate Hr.
Qed.

Lemma json_to_sheet_last_row (js : list JsObject) (header : list jsstring) :
  last_row (json_to_sheet js header) = length js.
Proof.
  unfold json_to_sheet. destruct (add_rows js 1 (header, ∅)). reflexivity.
Qed.

(** X13. A link in the audit sheet is never misplaced: a cell that carries
    one lies in the first column of the row of a document, the map holds a
    non-empty name under the id of that document, and the target is the
    folder of the archive, a slash, and that name. *)
Theorem audit_sheet_links :
  forall (fields : list FieldDefinition) (documents : list DocumentResult)
         (fmap : gmap jsstring jsstring) (r c : nat) (cell : Cell)
         (target : jsstring),
    cells (audit_sheet fields documents fmap) !! (r, c) = Some cell ->
    cell_l cell = Some target ->
    c = 0%nat
    /\ exists (i : nat) (doc : DocumentResult) (u : jsstring),
         r = S i /\ documents !! i = Some doc
         /\ fmap !! doc_id doc = Some u /\ u <> []
         /\ target = folderName ++ lit "/" ++ u.
Proof.
  intros fields documents fmap r c cell target Hcell Hlink.
  unfold audit_sheet in Hcell.
  set (sheet := json_to_sheet (dataRows fields documents) (headers fields)) in *.
  assert (Hno : forall r cell, cells sheet !! r = Some cell -> cell_l cell = None)
    by apply json_to_sheet_no_link.
  rewrite cells_add_hyperlinks in Hcell.
  destruct (add_hyperlinks_fold documents fmap (seq 1 (last_row sheet))
              (cells sheet) (NoDup_seq _ _)) as [Hother Hown].
  destruct (decide (c = 0%nat)) as [->|Hc].
  2:{ rewrite Hother in Hcell by (left; exact Hc).
      rewrite (Hno _ _ Hcell) in Hlink. discriminate Hlink. }
  destruct (in_dec Nat.eq_dec r (seq 1 (last_row sheet))) as [Hr|Hr].
  2:{ rewrite Hother in Hcell by (right; exact Hr).
      rewrite (Hno _ _ Hcell) in Hlink. discriminate Hlink. }
  split; [reflexivity|].
  rewrite (Hown r Hr) in Hcell. apply in_seq in Hr.
  destruct r as [|i]; [lia|].
  unfold add_hyperlink in Hcell. simpl in Hcell. rewrite Nat.sub_0_r in Hcell.
  destruct (documents !! i) as [doc|] eqn:Hdoc.
  2:{ rewrite (Hno _ _ Hcell) in Hlink. discriminate Hlink. }
  destruct (fmap !! doc_id doc) as [[|x u]|] eqn:Hu.
  1,3: rewrite (Hno _ _ Hcell) in Hlink; discriminate Hlink.
  rewrite lookup_insert_eq in Hcell. injection Hcell as <-.
  simpl in Hlink. injection Hlink as <-.
  exists i, doc, (x :: u). repeat split; auto; discriminate.
Qed.

Lemma audit_sheet_links_witness :
  0%nat = 0%nat
  /\ exists (i : nat) (doc : DocumentResult) (u : jsstring),
       1%nat = S i /\ [invoice_document] !! i = Some doc
       /\ ({[ lit "d1" := lit "a_annotated.jpg" ]} : gmap jsstring jsstring)
            !! doc_id doc = Some u
       /\ u <> []
       /\ lit "annotated_documents/a_annotated.jpg" = folderName ++ lit "/" ++ u.
Proof.
  apply (audit_sheet_links [Renderer.total_field] [invoice_document]
           {[ lit "d1" := lit "a_annotated.jpg" ]} 1 0
           {| cell_v := lit "a.pdf";
              cell_l := Some (lit "annotated_documents/a_annotated.jpg") |}).
  - vm_compute. reflexivity.
  - reflexivity.
Defined.

(** *** The status column *)

Lemma coords_header_not_status (f : FieldDefinition) :
  coords_header f <> lit "Status".
Proof.
  unfold coords_header. intros E. apply (f_equal (@length N)) in E.
  rewrite length_app in E. simpl in E. lia.
Qed.

Lemma row_of_status (fields : list FieldDefinition) (doc : DocumentResult) :
  ~ In (lit "Status") (List.map name fields) ->
  In (lit "Status", status doc) (row_of fields doc).
Proof.
  intros Hno. apply obj_get_In; [apply row_of_NoDup|].
  rewrite row_of_start, fill_fields_other; [reflexivity | exact Hno |].
  intros (f & Hf & _)%in_map_iff. apply (coords_header_not_status f Hf).
Qed.

(** X14. Unless a field is itself named [Status], the second cell of the
    row of a document holds the status of that document, and no link. *)
Theorem audit_sheet_status :
  forall (fields : list FieldDefinition) (documents : list DocumentResult)
         (fmap : gmap jsstring jsstring) (i : nat) (doc : DocumentResult),
    ~ In (lit "Status") (List.map name fields) ->
    documents !! i = Some doc ->
    cells (audit_sheet fields documents fmap) !! (S i, 1%nat)
    = Some {| cell_v := status doc; cell_l := None |}.
Proof.
  intros fields documents fmap i doc Hno Hdoc.
  destruct (json_to_sheet_spec (dataRows fields documents) (headers fields)
              (dataRows_ok fields documents)) as (_ & _ & Hcell).
  unfold audit_sheet. rewrite add_hyperlinks_other by (left; lia).
  apply (Hcell i (row_of fields doc) (lit "Status")).
  - unfold dataRows. rewrite lookup_map, Hdoc. reflexivity.
  - apply row_of_status, Hno.
  - reflexivity.
Qed.

Lemma audit_sheet_status_witness :
  cells (audit_sheet [Renderer.total_field] [invoice_document] ∅) !! (1, 1)%nat
  = Some {| cell_v := lit "success"; cell_l := None |}.
Proof.
  apply (audit_sheet_status [Renderer.total_field] [invoice_document] ∅ 0
           invoice_document).
  - intros [H | []]. discriminate H.
  - reflexivity.
Defined.

(** *** How a run ends *)

Ltac no_effect H :=
  repeat (destruct H as [H | H]; [discriminate H|]); destruct H.

(** X15. Every run of the export comes to an end, in exactly one of three
    ways: the archive is offered for download, the user is alerted, or the
    returned promise rejects.  The download happens exactly when both
    libraries are loaded and both the writing of the workbook and the
    generation of the archive succeed; it is then the only effect, and the
    archive offered has been given one call of [docsFolder.file] per
    document and the workbook in one call at the root. *)
Theorem export_run_outcome :
  forall (env : Env) (fields : list FieldDefinition)
         (documents : list DocumentResult)
         (reconcileResult : option ReconcileResult),
    exists run,
      exportToZip env fields documents reconcileResult = Some run
      /\ ((exists zip,
             effects run = [download (lit "TickAndTie_Audit_Annotated.zip") zip]
             /\ rejects run = false
             /\ assembled run = Some zip
             /\ length (zip_documents zip) = length documents
             /\ List.map fst (zip_root zip) = [lit "Audit_Report.xlsx"])
          <-> XLSX_loaded env && JSZip_loaded env
              && write_ok env && generateAsync_ok env = true)
      /\ ((exists msg, In (alert msg) (effects run))
          <-> negb (XLSX_loaded env && JSZip_loaded env)
              || write_ok env && negb (generateAsync_ok env) = true)
      /\ (rejects run = true
          <-> XLSX_loaded env && JSZip_loaded env && negb (write_ok env) = true)
      /\ (rejects run = true -> effects run = [])
      /\ ((exists msg, In (alert msg) (effects run)) ->
          forall filename zip, ~ In (download filename zip) (effects run)).
Proof.
  intros env fields documents reconcileResult.
  destruct (pack_documents_spec documents empty_packing)
    as (st & new & Hst & _ & _ & Hnew & Hlen & _);
    [reflexivity | constructor |].
  assert (Hdocs : length (docsFolder st) = length documents).
  { rewrite <- Hlen. simpl in Hnew. rewrite <- Hnew.
    unfold resolved_names. symmetry. apply length_map. }
  unfold exportToZip. rewrite Hst.
  destruct env as [[] [] [] []]; simpl; eexists; (split; [reflexivity|]);
    simpl; (split; [|split; [|split; [|split]]]).
  all: try (split; intros H; first [reflexivity | discriminate H]).
  all: try (intros H; first [reflexivity | discriminate H]).
  all: try (intros [msg Ha] filename zip H;
            first [ solve [no_effect Ha] | solve [no_effect H] ]).
  all: try (split;
            [ intros (zip & H & _); first [discriminate H | reflexivity]
            | intros H;
              first [ discriminate H
                    | eexists; split; [reflexivity|]; split; [reflexivity|];
                      split; [reflexivity|];
                      split; [exact Hdocs | reflexivity] ] ]).
  all: split;
    [ intros [msg H]; first [reflexivity | solve [no_effect H]]
    | intros H; first [discriminate H | eexists; right; left; reflexivity] ].
Qed.

End WorkbookFacts.

(** ** The export packager: the rows of the audit sheet *)

Module AuditFacts.
Import Packager PackagerFacts SheetFacts NameFacts WorkbookFacts.

(** *** Keys of a row *)







(** *** Cells that no property is written to *)



(** *** The first column *)

Lemma headers_first (fields : list FieldDefinition) :
  indexOf (lit "File Name") (headers fields) = Some 0.
Proof. reflexivity. Qed.

(** What the hyperlink loop leaves in the first cell of a document's row. *)
Lemma add_hyperlinks_first_column (documents : list DocumentResult)
    (fmap : gmap jsstring jsstring) (worksheet : Worksheet)
    (i : nat) (doc : DocumentResult) (cell : Cell) :
  documents !! i = Some doc ->
  i < last_row worksheet ->
  cells worksheet !! (S i, 0) = Some cell ->
  cells (add_hyperlinks documents fmap worksheet) !! (S i, 0)
  = Some {| cell_v := cell_v cell;
            cell_l := match fmap !! doc_id doc with
                      | Some (c :: u) => Some (folderName ++ lit "/" ++ c :: u)
                      | _ => cell_l cell
                      end |}.
Proof.
  intros Hdoc Hi Hcell. rewrite cells_add_hyperlinks.
  destruct (add_hyperlinks_fold documents fmap (seq 1 (last_row worksheet))
              (cells worksheet) (NoDup_seq _ _)) as [_ Hown].
  rewrite Hown by (apply in_seq; lia).
  unfold add_hyperlink. replace (S i - 1) with i by lia.
  rewrite Hdoc, Hcell.
  destruct (fmap !! doc_id doc) as [[|c u]|].
  - rewrite Hcell. destruct cell; reflexivity.
  - apply lookup_insert_eq.
  - rewrite Hcell. destruct cell; reflexivity.
Qed.





(** *** A field named like the first column *)

Lemma coords_header_not_file_name (f : FieldDefinition) :
  coords_header f <> lit "File Name".
Proof.
  unfold coords_header. intros H.
  apply (f_equal (@List.rev N)) in H. rewrite rev_app_distr in H.
  cbn in H. discriminate H.
Qed.

Lemma fill_fields_last_named doc fields : forall row j f,
  fields !! j = Some f ->
  name f = lit "File Name" ->
  (forall j' f', j < j' -> fields !! j' = Some f' -> name f' <> lit "File Name") ->
  obj_get (lit "File Name") (fold_left (fill_field doc) fields row)
  = Some (value_text (data doc !! key f)).
Proof.
  induction fields as [|f0 rest IH]; intros row j f Hj Hname Hlater;
    [discriminate Hj|].
  destruct j as [|j]; simpl in Hj |- *.
  - injection Hj as <-. rewrite fill_fields_other.
    + unfold fill_field.
      rewrite assign_get_ne by apply coords_header_not_file_name.
      rewrite <- Hname. apply assign_get_eq. rewrite Hname.
      intros H. vm_compute in H. discriminate H.
    + intros (f' & Hf' & Hin)%in_map_iff.
      apply list_elem_of_In, list_elem_of_lookup in Hin as [j' Hj'].
      apply (Hlater (S j') f'); [lia | exact Hj' | exact Hf'].
    + intros (f' & Hf' & _)%in_map_iff.
      exact (coords_header_not_file_name f' Hf').
  - apply (IH _ j f Hj Hname).
    intros j' f' Hlt Hf'. apply (Hlater (S j') f'); [lia | exact Hf'].
Qed.

(** X26. When a field is named [File Name], the value extracted for the
    last such field takes the place of the document's file name in the
    first cell of the document's row: the row object is keyed by the header
    texts, and [row[field.name] = ...] overwrites [row["File Name"]]. *)
Theorem file_name_column_collision :
  forall (fields : list FieldDefinition) (documents : list DocumentResult)
         (fmap : gmap jsstring jsstring) (i j : nat)
         (doc : DocumentResult) (field : FieldDefinition),
    documents !! i = Some doc ->
    fields !! j = Some field ->
    name field = lit "File Name" ->
    (forall j' f', j < j' -> fields !! j' = Some f' ->
       name f' <> lit "File Name") ->
    cell_v <$> cells (audit_sheet fields documents fmap) !! (S i, 0)
    = Some (value_text (data doc !! key field)).
Proof.
  intros fields documents fmap i j doc field Hdoc Hfield Hname Hlater.
  destruct (json_to_sheet_spec (dataRows fields documents) (headers fields)
              (dataRows_ok fields documents)) as (Hlast & _ & Hcell).
  assert (Hrow : dataRows fields documents !! i = Some (row_of fields doc)).
  { unfold dataRows. rewrite lookup_map, Hdoc. reflexivity. }
  assert (Hin : In (lit "File Name", value_text (data doc !! key field))
                  (row_of fields doc)).
  { apply obj_get_In; [apply row_of_NoDup|]. rewrite row_of_start.
    apply (fill_fields_last_named doc fields _ j field Hfield Hname Hlater). }
  assert (Hi : i < last_row (json_to_sheet (dataRows fields documents)
                                (headers fields))).
  { rewrite Hlast. unfold dataRows. rewrite length_map.
    eapply lookup_lt_Some, Hdoc. }
  unfold audit_sheet.
  rewrite (add_hyperlinks_first_column documents fmap _ i doc _ Hdoc Hi
             (Hcell i _ _ _ 0 Hrow Hin (headers_first fields))).
  reflexivity.
Qed.

Lemma file_name_column_collision_witness :
  cell_v <$> cells (audit_sheet [file_name_field] [invoice_document] ∅) !! (1, 0)
  = Some (lit "INV-7")
  /\ fileName invoice_document = lit "a.pdf".
Proof.
  split; [|reflexivity].
  apply (file_name_column_collision [file_name_field] [invoice_document] ∅
           0 0 invoice_document file_name_field);
    try reflexivity.
  intros [|j'] f' Hlt Hf'; [lia | discriminate Hf'].
Defined.

End AuditFacts.

(** ** More on the annotation renderer *)

Module LabelFacts.
Import Binary64 Binary64Facts Renderer RendererFacts Layout.





Lemma draw_box_strokes measureText canvas field b :
  stroke_styles (draw_box measureText canvas field b) = [color field]
  /\ length (draw_box measureText canvas field b) = 12%nat.
Proof.
  unfold draw_box. destruct (rect_of canvas b) as [[[x y] w] h].
  split; reflexivity.
Qed.

Lemma stroke_styles_app (a b : list CtxOp) :
  stroke_styles (a ++ b) = stroke_styles a ++ stroke_styles b.
Proof.
  unfold stroke_styles. apply omap_app.
Qed.

(** X17. The renderer outlines every field for which the data holds a box
    exactly once, in the order of the field list and in the color of the
    field; for each of them it goes to the context twelve times (seven
    properties set and five methods called, [measureText] among them), and
    not at all for any other field; two fields with the same key are both
    drawn on the same box. *)
Theorem outlines_of_boxed_fields :
  forall (measureText : Q -> jsstring -> Q) (canvas : Canvas)
         (data : gmap jsstring ExtractedValue) (fields : list FieldDefinition),
    stroke_styles (draw_fields measureText canvas data fields)
    = List.map color (List.filter (has_box data) fields)
    /\ length (draw_fields measureText canvas data fields)
       = (12 * length (List.filter (has_box data) fields))%nat.
Proof.
  intros measureText canvas data fields. unfold draw_fields.
  induction fields as [|f fields [IHs IHl]]; [split; reflexivity|].
  cbn [flat_map List.filter]. rewrite stroke_styles_app, length_app, IHs, IHl.
  unfold draw_field, has_box.
  destruct (data !! key f) as [e|]; [|split; reflexivity].
  destruct (box_2d e) as [b|]; [|split; reflexivity].
  destruct (draw_box_strokes measureText canvas f b) as [-> ->].
  split; [reflexivity|]. simpl length. lia.
Qed.

End LabelFacts.

(** ** More on the reconciliation reply *)

Module JoinedFacts.
Import Reconcile ReconcileFacts.

(** X18. The reply carries joined data exactly when its report has a tagged
    block, the first such block is not empty, and [JSON.parse] accepts the
    text of that block; the joined data is then what [JSON.parse] makes of
    it.  Later blocks are never looked at. *)
Theorem joined_data_of_first_block :
  forall (JSON_parse : jsstring -> option Json) (response : Response) (j : Json),
    joinedData (build_result JSON_parse response) = Some j
    <-> exists inner,
          first_block (report_of response) inner
          /\ inner <> [] /\ JSON_parse inner = Some j.
Proof.
  intros JSON_parse response j. unfold build_result, joinedData_of. simpl.
  split.
  - destruct (match_JSON_RESULT (report_of response)) as [[|c g]|] eqn:E;
      try discriminate.
    intros H. exists (c :: g). split; [|split; [discriminate | exact H]].
    apply match_JSON_RESULT_first_block, E.
  - intros (inner & Hblock & Hne & Hparse).
    apply match_JSON_RESULT_first_block in Hblock. rewrite Hblock.
    destruct inner; [congruence | exact Hparse].
Qed.

End JoinedFacts.

(** ** The extraction request *)

Module ExtractionFacts.
Import Extraction.

Lemma get_put_eq {V} (k : jsstring) (v : V) (o : list (jsstring * V)) :
  get k (put k v o) = Some v.
Proof.
  induction o as [|[k' v'] o IH]; simpl.
  - rewrite bool_decide_eq_true_2; reflexivity.
  - destruct (bool_decide (k' = k)) eqn:E; simpl.
    + rewrite bool_decide_eq_true_2; reflexivity.
    + rewrite E. exact IH.
Qed.

Lemma get_put_ne {V} (k k' : jsstring) (v : V) (o : list (jsstring * V)) :
  k <> k' -> get k' (put k v o) = get k' o.
Proof.
  intros Hne. induction o as [|[k0 v0] o IH]; simpl.
  - rewrite bool_decide_eq_false_2; [reflexivity | exact Hne].
  - destruct (bool_decide (k0 = k)) eqn:E; simpl.
    + apply bool_decide_eq_true in E. subst k0.
      rewrite !bool_decide_eq_false_2 by exact Hne. reflexivity.
    + destruct (bool_decide (k0 = k')); [reflexivity | exact IH].
Qed.

Lemma put_keys {V} (k : jsstring) (v : V) (o : list (jsstring * V)) (k' : jsstring) :
  In k' (List.map fst (put k v o)) <-> k' = k \/ In k' (List.map fst o).
Proof.
  induction o as [|[k0 v0] o IH]; simpl.
  - intuition.
  - destruct (bool_decide (k0 = k)) eqn:E; simpl.
    + apply bool_decide_eq_true in E. subst k0. intuition.
    + rewrite IH. intuition.
Qed.

Lemma put_NoDup {V} (k : jsstring) (v : V) (o : list (jsstring * V)) :
  NoDup (List.map fst o) -> NoDup (List.map fst (put k v o)).
Proof.
  induction o as [|[k0 v0] o IH]; simpl; intros Hnd.
  - repeat constructor. intros H. inversion H.
  - apply NoDup_cons in Hnd as [Hk0 Hnd].
    destruct (bool_decide (k0 = k)) eqn:E; simpl.
    + apply bool_decide_eq_true in E. subst k0. apply NoDup_cons. auto.
    + apply bool_decide_eq_false in E. apply NoDup_cons. split; [|auto].
      rewrite list_elem_of_In, put_keys, <- list_elem_of_In. intros [H | H]; auto.
Qed.

(** Properties set one after the other: the last assignment to a key
    decides, and [__proto__] is never set. *)
Lemma fold_assign_get {A V} (kf : A -> jsstring) (vf : A -> V) (l : list A) :
  forall (o : list (jsstring * V)) (k : jsstring),
    get k (fold_left (fun o a => assign_any (kf a) (vf a) o) l o)
    = if bool_decide (k = lit "__proto__") then get k o
      else match List.find (fun a => bool_decide (kf a = k)) (rev l) with
           | Some a => Some (vf a)
           | None => get k o
           end.
Proof.
  induction l as [|a l IH] using rev_ind; intros o k; simpl.
  - destruct (bool_decide _); reflexivity.
  - rewrite fold_left_app, rev_app_distr. simpl.
    unfold assign_any at 1.
    destruct (bool_decide (kf a = lit "__proto__")) eqn:Ea.
    + apply bool_decide_eq_true in Ea. rewrite IH.
      destruct (bool_decide (k = lit "__proto__")) eqn:Ek; [reflexivity|].
      apply bool_decide_eq_false in Ek.
      rewrite (bool_decide_eq_false_2 (kf a = k)) by congruence. reflexivity.
    + destruct (bool_decide (kf a = k)) eqn:E.
      * apply bool_decide_eq_true in E. subst k. rewrite Ea. apply get_put_eq.
      * apply bool_decide_eq_false in E. rewrite get_put_ne by exact E.
        apply IH.
Qed.

Lemma fold_assign_NoDup {A V} (kf : A -> jsstring) (vf : A -> V) (l : list A) :
  forall o : list (jsstring * V),
    NoDup (List.map fst o) ->
    NoDup (List.map fst (fold_left (fun o a => assign_any (kf a) (vf a) o) l o)).
Proof.
  induction l as [|a l IH]; intros o Hnd; simpl; [exact Hnd|].
  apply IH. unfold assign_any. destruct (bool_decide _); [exact Hnd|].
  apply put_NoDup, Hnd.
Qed.

(** X19. The response schema has one entry per key: under a key it holds
    the entry of the last field with that key, and a field whose key is
    [__proto__] gets no entry at all. *)
Theorem schema_last_field_wins :
  forall (fields : list FieldDefinition) (k : jsstring),
    NoDup (List.map fst (schema_properties fields))
    /\ get k (schema_properties fields)
       = if bool_decide (k = lit "__proto__") then None
         else schema_entry <$> last_field (fun f => bool_decide (key f = k)) fields.
Proof.
  intros fields k. unfold schema_properties, last_field. split.
  - apply (fold_assign_NoDup key schema_entry fields []). constructor.
  - rewrite (fold_assign_get key schema_entry fields [] k). simpl.
    destruct (bool_decide _); [reflexivity|].
    destruct (List.find _ _); reflexivity.
Qed.

Lemma set_property_other (k n : jsstring) (v : option jsstring)
    (row : RowObject) :
  k <> n -> get n (own (set_property k v row)) = get n (own row).
Proof.
  intros Hne. unfold set_property.
  destruct (bool_decide (k = lit "__proto__") && negb (null_prototype row)).
  - destruct v; reflexivity.
  - simpl. apply get_put_ne, Hne.
Qed.

Lemma set_property_same (n : jsstring) (v : option jsstring) (row : RowObject) :
  n <> lit "__proto__" -> get n (own (set_property n v row)) = Some v.
Proof.
  intros Hne. unfold set_property.
  rewrite (bool_decide_eq_false_2 _ Hne). simpl. apply get_put_eq.
Qed.

(** Under a key other than [__proto__] the last assignment decides. *)
Lemma extracted_row_get (d : DocumentResult) (fields : list FieldDefinition) :
  forall (row : RowObject) (n : jsstring),
    n <> lit "__proto__" ->
    get n (own (fold_left
                  (fun row f =>
                     set_property (name f) (value_or_null (data d !! key f)) row)
                  fields row))
    = match List.find (fun f => bool_decide (name f = n)) (rev fields) with
      | Some f => Some (value_or_null (data d !! key f))
      | None => get n (own row)
      end.
Proof.
  induction fields as [|f fields IH] using rev_ind; intros row n Hn;
    [reflexivity|].
  rewrite fold_left_app, rev_app_distr. simpl.
  destruct (bool_decide (name f = n)) eqn:E.
  - apply bool_decide_eq_true in E. rewrite E. apply set_property_same, Hn.
  - apply bool_decide_eq_false in E. rewrite set_property_other by exact E.
    apply IH, Hn.
Qed.

Lemma proto_values_cons (d : DocumentResult) (f : FieldDefinition)
    (fields : list FieldDefinition) :
  proto_values (f :: fields) d
  = if bool_decide (name f = lit "__proto__")
    then value_or_null (data d !! key f) :: proto_values fields d
    else proto_values fields d.
Proof.
  unfold proto_values. simpl. destruct (bool_decide _); reflexivity.
Qed.

(** Under [__proto__]: nothing until [null] has been assigned; from then on
    the last assignment decides. *)
Lemma extracted_row_proto (d : DocumentResult) (fields : list FieldDefinition) :
  forall row : RowObject,
    let final :=
      fold_left
        (fun row f =>
           set_property (name f) (value_or_null (data d !! key f)) row)
        fields row in
    get (lit "__proto__") (own final)
    = match last (if null_prototype row then proto_values fields d
                  else after_first_null (proto_values fields d)) with
      | Some v => Some v
      | None => get (lit "__proto__") (own row)
      end
    /\ (null_prototype final = true
        <-> null_prototype row = true \/ In None (proto_values fields d)).
Proof.
  induction fields as [|f fields IH]; intros row.
  - simpl. split; [destruct (null_prototype row); reflexivity | tauto].
  - cbn [fold_left]. cbv zeta in IH.
    set (v := value_or_null (data d !! key f)).
    destruct (IH (set_property (name f) v row)) as [IHget IHnull].
    cbv zeta. rewrite IHget, IHnull. clear IHget IHnull IH.
    rewrite (proto_values_cons d f fields). fold v.
    unfold set_property.
    destruct (bool_decide (name f = lit "__proto__")) eqn:E.
    + destruct (null_prototype row) eqn:Hnp; cbn [andb negb].
      * cbn [own null_prototype]. split.
        -- destruct (proto_values fields d) as [|v' vs]; cbn [last].
           ++ apply bool_decide_eq_true in E. rewrite <- E.
              rewrite get_put_eq. reflexivity.
           ++ destruct (last (v' :: vs)) eqn:El; [reflexivity|].
              rewrite last_cons in El. destruct (last vs); discriminate El.
        -- cbn [In]. intuition discriminate.
      * destruct v as [x|].
        -- rewrite Hnp. split; [reflexivity|].
           cbn [In]. intuition discriminate.
        -- cbn [own null_prototype]. split; [reflexivity|].
           cbn [In]. intuition discriminate.
    + cbn [andb own null_prototype].
      rewrite get_put_ne by (apply bool_decide_eq_false in E; exact E).
      tauto.
Qed.

(** X20. The extracted data sent for reconciliation has the rows of the
    documents whose status is [success], and of no other.  Under the name
    of a field other than [__proto__] a row holds the value, or [null],
    found under the key of the last field with that name; [fileName] holds
    the file name of the document unless a field is named so.  Of the
    values assigned under [__proto__] the first [null] makes the prototype
    of the row [null] and is not kept; no value before it is kept; the last
    value after it, if there is one, is kept as an own property. *)
Theorem extracted_data_rows :
  forall (documents : list DocumentResult) (fields : list FieldDefinition),
    (forall row,
       In row (extractedData documents fields)
       <-> exists d, In d documents /\ status d = lit "success"
                     /\ row = extracted_row fields d)
    /\ forall (d : DocumentResult) (n : jsstring),
         get n (own (extracted_row fields d))
         = (if bool_decide (n = lit "__proto__")
            then last (after_first_null (proto_values fields d))
            else match last_field (fun f => bool_decide (name f = n)) fields with
                 | Some f => Some (value_or_null (data d !! key f))
                 | None =>
                     if bool_decide (n = lit "fileName")
                     then Some (Some (fileName d)) else None
                 end)
         /\ (null_prototype (extracted_row fields d) = true
             <-> In None (proto_values fields d)).
Proof.
  intros documents fields. split.
  - intros row. unfold extractedData. rewrite in_map_iff. split.
    + intros (d & <- & [Hd Hs]%filter_In). exists d.
      apply bool_decide_eq_true in Hs. auto.
    + intros (d & Hd & Hs & ->). exists d. split; [reflexivity|].
      apply filter_In. split; [exact Hd|]. apply bool_decide_eq_true, Hs.
  - intros d n. unfold extracted_row, last_field.
    destruct (extracted_row_proto d fields
                {| own := [(lit "fileName", Some (fileName d))];
                   null_prototype := false |}) as [Hget Hnull].
    simpl in Hget, Hnull. split.
    + destruct (bool_decide (n = lit "__proto__")) eqn:Ep.
      * apply bool_decide_eq_true in Ep. subst n. rewrite Hget.
        destruct (last (after_first_null (proto_values fields d)));
          reflexivity.
      * apply bool_decide_eq_false in Ep.
        rewrite (extracted_row_get d fields _ n Ep). simpl.
        destruct (List.find _ _); [reflexivity|].
        destruct (bool_decide (lit "fileName" = n)) eqn:E.
        -- apply bool_decide_eq_true in E. subst n. reflexivity.
        -- apply bool_decide_eq_false in E.
           rewrite bool_decide_eq_false_2 by congruence. reflexivity.
    + rewrite Hnull. split; [intros [H | H]; [discriminate H | exact H] | auto].
Qed.

(** X21. A call of [processDocument] makes at most one request, and none
    when the API key is missing or the file cannot be read.  It resolves
    exactly when the key is there, the file is read, the reply carries a
    non-empty text and [JSON.parse] accepts it, with what [JSON.parse]
    returns.  A failure after the request was sent is logged once and
    passed on as it is; a failure before that is passed on without being
    logged. *)
Theorem processDocument_settles :
  forall (JSON_parse : jsstring -> Outcome Json) (API_KEY : option jsstring)
         (base64DataUrl : Outcome jsstring) (reply : Outcome (option jsstring))
         (doc : DocumentResult) (fields : list FieldDefinition),
    let s := processDocument JSON_parse API_KEY base64DataUrl reply doc fields in
    (length (requests s) <= 1)%nat
    /\ (requests s = []
        <-> API_KEY = None \/ API_KEY = Some []
            \/ exists e, base64DataUrl = rejected e)
    /\ (forall json,
          outcome s = resolved json
          <-> exists k url text,
                API_KEY = Some k /\ k <> []
                /\ base64DataUrl = resolved url
                /\ reply = resolved (Some text) /\ text <> []
                /\ JSON_parse text = resolved json)
    /\ (forall json, outcome s = resolved json -> logged s = [])
    /\ (forall e, outcome s = rejected e ->
          logged s = match requests s with [] => [] | _ => [e] end)
    /\ forall r, In r (requests s) ->
         mimeType r = file_type (file doc)
         /\ prompt_fields r = field_list fields
         /\ responseSchema r = schema_properties fields
         /\ exists url, base64DataUrl = resolved url
                        /\ inline_data r = base64Data url.
Proof.
  intros JSON_parse API_KEY base64DataUrl reply doc fields s. subst s.
  unfold processDocument.
  destruct API_KEY as [[|c0 k]|].
  1,3: simpl; split; [lia|]; split; [tauto|]; split;
       [ intros json; split; [discriminate|];
         intros (k & url & text & H & Hk & _); congruence |];
       split; [discriminate|]; split; [intros e _; reflexivity|];
       intros r [].
  destruct base64DataUrl as [url|e0].
  2:{ simpl. split; [lia|]. split; [split; eauto|]. split.
      - intros json. split; [discriminate|].
        intros (k' & url & text & _ & _ & H & _). discriminate H.
      - split; [discriminate|]. split; [intros e _; reflexivity|]. intros r []. }
  assert (Hreq : forall r,
            In r [{| mimeType := file_type (file doc);
                     inline_data := base64Data url;
                     prompt_fields := field_list fields;
                     responseSchema := schema_properties fields |}] ->
            mimeType r = file_type (file doc)
            /\ prompt_fields r = field_list fields
            /\ responseSchema r = schema_properties fields
            /\ exists url', resolved url = resolved url'
                            /\ inline_data r = base64Data url').
  { intros r [<- | []]. simpl. repeat split. exists url. auto. }
  assert (Hnone : forall (l : list Request) (r : Request),
            r :: l = []
            <-> Some (c0 :: k) = None \/ Some (c0 :: k) = Some []
                \/ exists e, resolved url = @rejected jsstring e).
  { intros l r. split; [discriminate|].
    intros [H | [H | [e H]]]; discriminate H. }
  destruct reply as [[[|c t]|]|e1]; simpl.
  - split; [lia|]. split; [apply Hnone|]. split.
    + intros json. split; [discriminate|].
      intros (k' & u & text & _ & _ & _ & [= <-] & Ht & _). congruence.
    + split; [discriminate|]. split; [intros e [= <-]; reflexivity | exact Hreq].
  - destruct (JSON_parse (c :: t)) as [json0|e2] eqn:Ep; simpl.
    + split; [lia|]. split; [apply Hnone|]. split.
      * intros json. split.
        -- intros [= <-]. exists (c0 :: k), url, (c :: t).
           repeat split; auto; discriminate.
        -- intros (k' & u & text & _ & _ & _ & [= <-] & _ & Hp). congruence.
      * split; [reflexivity|]. split; [discriminate | exact Hreq].
    + split; [lia|]. split; [apply Hnone|]. split.
      * intros json. split; [discriminate|].
        intros (k' & u & text & _ & _ & _ & [= <-] & _ & Hp). congruence.
      * split; [discriminate|].
        split; [intros e [= <-]; reflexivity | exact Hreq].
  - split; [lia|]. split; [apply Hnone|]. split.
    + intros json. split; [discriminate|].
      intros (k' & u & text & _ & _ & _ & H & _). discriminate H.
    + split; [discriminate|]. split; [intros e [= <-]; reflexivity | exact Hreq].
  - split; [lia|]. split; [apply Hnone|]. split.
    + intros json. split; [discriminate|].
      intros (k' & u & text & _ & _ & _ & H & _). discriminate H.
    + split; [discriminate|]. split; [intros e [= <-]; reflexivity | exact Hreq].
Qed.

Lemma no_comma_filter (s : jsstring) :
  List.filter (fun c => (c =? c_comma)%N) s = [] <-> ~ In c_comma s.
Proof.
  induction s as [|c s IH]; simpl; [tauto|].
  destruct (N.eqb_spec c c_comma) as [->|Hne].
  - split; [discriminate | tauto].
  - rewrite IH. split; [intros H [E | E]; auto | tauto].
Qed.

(** X22. The data sent inline for a document is what stands between the
    first and the second comma of the data URL, or all after the first comma
    if there is no second: for a URL made of a comma-free header, a comma
    and a comma-free payload, it is the payload.  It is missing exactly when
    the URL has no comma. *)
Theorem base64Data_payload :
  forall url : jsstring,
    (base64Data url = None <-> ~ In c_comma url)
    /\ forall header payload,
         ~ In c_comma header -> ~ In c_comma payload ->
         (url = header ++ [c_comma] ++ payload -> base64Data url = Some payload)
         /\ forall rest,
              url = header ++ [c_comma] ++ payload ++ [c_comma] ++ rest ->
              base64Data url = Some payload.
Proof.
  intros url. unfold base64Data. split.
  - rewrite <- no_comma_filter.
    pose proof (TableFacts.split_length c_comma url) as Hlen.
    destruct (split c_comma url) as [|w [|w' ws]]; simpl in *.
    + discriminate Hlen.
    + split; [intros _ | reflexivity].
      destruct (List.filter _ url); [reflexivity | discriminate Hlen].
    + split; [discriminate|]. intros E. rewrite E in Hlen. discriminate Hlen.
  - intros header payload Hh Hp. split.
    + intros ->. change (header ++ [c_comma] ++ payload)
        with (header ++ c_comma :: payload).
      rewrite TableFacts.split_app, !TableFacts.split_none by assumption.
      reflexivity.
    + intros rest ->.
      change (header ++ [c_comma] ++ payload ++ [c_comma] ++ rest)
        with (header ++ c_comma :: (payload ++ c_comma :: rest)).
      rewrite !TableFacts.split_app, !TableFacts.split_none by assumption.
      reflexivity.
Qed.

End ExtractionFacts.

(** ** One notion of a missing value *)

Module ValueFacts.

(** X23. The viewer, the audit sheet and the data sent for reconciliation
    agree on when a field has no value: the viewer shows its placeholder
    exactly when the cell of the sheet is empty and exactly when the row
    sent holds [null], which is the case when nothing was extracted under
    the key, or the value is absent or the empty string; otherwise all three
    hold the extracted text. *)
Theorem missing_value_agrees :
  forall extracted : option ExtractedValue,
    Extraction.value_or_null extracted = Viewer.shown_value extracted
    /\ Packager.value_text extracted = default [] (Viewer.shown_value extracted)
    /\ (Viewer.shown_value extracted = None
        <-> Packager.value_text extracted = [])
    /\ (Viewer.shown_value extracted = None
        <-> extracted = None
            \/ exists e, extracted = Some e
                         /\ (value e = None \/ value e = Some [])).
Proof.
  intros [[[[|c v]|] b]|]; simpl; repeat split; try discriminate; auto.
  - intros _. right. eexists. split; [reflexivity|]. auto.
  - intros [H | (e & [= <-] & [H | H])]; discriminate H.
  - intros _. right. eexists. split; [reflexivity|]. auto.
Qed.

End ValueFacts.

(** ** More on [sanitizeKey] *)

(** X24. A key is as long as the name it is made from and is made unit by
    unit, so that the key of a concatenation is the concatenation of the
    keys; the names that are their own key are exactly the strings of
    lowercase letters, digits and underscores, among them [__proto__]. *)
Theorem sanitizeKey_unit_by_unit :
  forall (unicode_lower : jsstring -> jsstring) (a b : jsstring),
    length (sanitizeKey unicode_lower a) = length a
    /\ sanitizeKey unicode_lower (a ++ b)
       = sanitizeKey unicode_lower a ++ sanitizeKey unicode_lower b
    /\ (sanitizeKey unicode_lower a = a <-> forallb is_key_char a = true)
    /\ sanitizeKey unicode_lower (lit "__proto__") = lit "__proto__".
Proof.
  intros lower a b. rewrite !sanitizeKey_map. split; [apply length_map|].
  split; [apply List.map_app|]. split.
  - split.
    + intros E. rewrite <- E, <- (sanitizeKey_map lower).
      apply sanitizeKey_alphabet.
    + intros H. rewrite <- (sanitizeKey_map lower). apply sanitizeKey_fix, H.
  - reflexivity.
Qed.

(** ** Reading a box back from its cell *)

Module CoordsFacts.
Import Packager PackagerFacts.

Lemma string_of_Z_inj (a b : Z) : string_of_Z a = string_of_Z b -> a = b.
Proof.
  unfold string_of_Z. intros H%lit_inj.
  assert (Hi : Z.to_int a = Z.to_int b).
  { assert (Some (Z.to_int a) = Some (Z.to_int b)) as [=]; [|assumption].
    rewrite <- !NilEmpty.isi. now rewrite H. }
  rewrite <- (DecimalZ.of_to a), <- (DecimalZ.of_to b), Hi. reflexivity.
Qed.

Lemma string_of_uint_no_comma (d : Decimal.uint) :
  ~ In 44%N (lit (NilEmpty.string_of_uint d)).
Proof.
  induction d; simpl; intros H; try (destruct H as [H | H]; [discriminate H|]);
    auto.
Qed.

Lemma string_of_Z_no_comma (z : Z) : ~ In 44%N (string_of_Z z).
Proof.
  unfold string_of_Z. destruct (Z.to_int z) as [d|d]; simpl.
  - apply string_of_uint_no_comma.
  - intros [H | H]; [discriminate H|]. apply (string_of_uint_no_comma d H).
Qed.

(** Two texts that agree up to and behind their first separator. *)
Lemma app_sep_inj (sep : N) (a a' r r' : jsstring) :
  ~ In sep a -> ~ In sep a' ->
  a ++ sep :: r = a' ++ sep :: r' -> a = a' /\ r = r'.
Proof.
  revert a'. induction a as [|x a IH]; intros [|x' a'] Ha Ha' E; simpl in *.
  - injection E as ->. auto.
  - injection E as <- _. tauto.
  - injection E as -> _. tauto.
  - injection E as -> E. destruct (IH a') as [-> ->]; auto.
Qed.

Lemma JSON_stringify_box_inj (b1 b2 : Box) :
  JSON_stringify_box b1 = JSON_stringify_box b2 -> b1 = b2.
Proof.
  destruct b1 as [[[y1 x1] y1'] x1'], b2 as [[[y2 x2] y2'] x2'].
  unfold JSON_stringify_box. intros E.
  apply app_inv_head in E.
  change (lit ",") with [44%N] in E. simpl in E.
  apply app_sep_inj in E as [Ey E]; try apply string_of_Z_no_comma.
  apply app_sep_inj in E as [Ex E]; try apply string_of_Z_no_comma.
  apply app_sep_inj in E as [Ey' E]; try apply string_of_Z_no_comma.
  apply app_inv_tail in E.
  apply string_of_Z_inj in Ey, Ex, Ey', E. congruence.
Qed.

(** X25. For boxes of safe integers the text of a coordinates cell
    determines the box: the cell is empty exactly when the extraction
    result has no box, and two results with the same text in the cell have
    the same box. *)
Theorem coords_text_determines_box :
  forall e1 e2 : option ExtractedValue,
    (forall b, e1 ≫= box_2d = Some b -> safe_box b) ->
    (forall b, e2 ≫= box_2d = Some b -> safe_box b) ->
    (coords_text e1 = [] <-> e1 ≫= box_2d = None)
    /\ (coords_text e1 = coords_text e2 <-> e1 ≫= box_2d = e2 ≫= box_2d).
Proof.
  assert (Hne : forall b, JSON_stringify_box b <> []).
  { intros [[[y x] y'] x']. discriminate. }
  intros e1 e2 _ _. unfold coords_text. split.
  - destruct (e1 ≫= box_2d) as [b|]; [|tauto].
    split; [intros H; destruct (Hne b H) | discriminate].
  - destruct (e1 ≫= box_2d) as [b1|], (e2 ≫= box_2d) as [b2|].
    + split; [intros H%JSON_stringify_box_inj | intros [= H]]; congruence.
    + split; [intros H; destruct (Hne b1 H) | discriminate].
    + split; [intros H; symmetry in H; destruct (Hne b2 H) | discriminate].
    + tauto.
Qed.

Lemma coords_text_determines_box_witness :
  coords_text (Some {| value := None; box_2d := Some (10, 20, 30, 40)%Z |})
  = coords_text
      (Some {| value := Some (lit "x"); box_2d := Some (10, 20, 30, 40)%Z |}).
Proof.
  apply (proj2 (coords_text_determines_box
                  (Some {| value := None;
                           box_2d := Some (10, 20, 30, 40)%Z |})
                  (Some {| value := Some (lit "x");
                           box_2d := Some (10, 20, 30, 40)%Z |})
                  ltac:(intros b [= <-]; unfold safe_box, safe_integer; lia)
                  ltac:(intros b [= <-]; unfold safe_box, safe_integer; lia))).
  reflexivity.
Defined.

End CoordsFacts.
